(** * Cortex: querier context helpers, store series set, runtime-config manager

    A shallow embedding of
      - pkg/querier: [InjectBlocksIntoContext], [ExtractBlocksFromContext],
        [storeSeriesSet];
      - pkg/util/runtimeconfig: [Manager] with its listener registry, config
        cell, reload cycle and lifecycle hooks.

    Go values are modelled as the code has them: an [interface{}] is either the
    nil interface or a typed value, a slice is either nil or a sequence, a
    channel is a heap cell shared between the manager and its subscriber, and a
    run-time panic is an explicit outcome. *)

From Stdlib Require Import ZArith Strings.Byte Ascii String.
From stdpp Require Import gmap strings list fin_maps.

Local Open Scope string_scope.
Local Open Scope list_scope.
Local Open Scope Z_scope.

(** ** Outcomes of Go code: a normal return or a run-time panic *)

Inductive outcome (A : Type) : Type :=
  | Ret (a : A)
  | Panic (msg : string).
Arguments Ret {A} a.
Arguments Panic {A} msg.

(** Go's [error]: [None] is the nil error, [Some msg] an error with that text. *)
Definition error : Type := option string.

(** [errors.Wrap] of github.com/pkg/errors: nil stays nil, otherwise the
    message is prefixed. *)
Definition Wrap (err : error) (msg : string) : error :=
  match err with
  | None => None
  | Some e => Some (msg ++ ": " ++ e)%string
  end.

(** [errors.New]. *)
Definition errors_New (msg : string) : error := Some msg.

(** ** pkg/querier *)

Module Querier.

(** A Go slice value: the nil slice, or a slice over a sequence of elements. *)
Inductive slice (A : Type) : Type :=
  | nil_slice
  | mk_slice (elems : list A).
Arguments nil_slice {A}.
Arguments mk_slice {A} elems.

(** Keys of [context.WithValue] are compared as interface values: same dynamic
    type and same value.  [contextKey n] is a key of this package's unexported
    type [contextKey]; [foreign_key ty v] stands for a key of any other type. *)
Inductive key : Type :=
  | contextKey (n : Z)
  | foreign_key (ty : string) (v : string).

#[global] Instance key_eq_dec : EqDecision key.
Proof. solve_decision. Defined.

Definition blockCtxKey : key := contextKey 0.

Section Blocks.

(** [*bucketindex.Block]: the pointers are opaque to this code. *)
Variable Block : Type.

(** Values stored in a context, as [interface{}]: the nil interface, a value
    of type [[]*bucketindex.Block] (which may be the nil slice), or a value
    of some other dynamic type. *)
Inductive any : Type :=
  | any_nil
  | any_blocks (s : slice Block)
  | any_other (ty : string).

(** [context.Context]: only [WithValue] layers answer [Value]; cancellation
    and deadline layers pass the lookup on to their parent. *)
Inductive context : Type :=
  | Background
  | WithCancel (parent : context)
  | WithValue (parent : context) (k : key) (v : any).

Fixpoint Value (ctx : context) (k : key) : any :=
  match ctx with
  | Background => any_nil
  | WithCancel parent => Value parent k
  | WithValue parent k' v => if decide (k' = k) then v else Value parent k
  end.

Definition InjectBlocksIntoContext (ctx : context) (blocks : slice Block) : context :=
  WithValue ctx blockCtxKey (any_blocks blocks).

(** The type assertion [blocks.([]*bucketindex.Block)] panics on a value of
    another dynamic type. *)
Definition ExtractBlocksFromContext (ctx : context) : outcome (slice Block * bool) :=
  match Value ctx blockCtxKey with
  | any_nil => Ret (nil_slice, false)
  | any_blocks s => Ret (s, true)
  | any_other ty => Panic ("interface conversion: interface {} is " ++ ty)%string
  end.

(** No layer of [ctx] carries a value under [blockCtxKey]. *)
Fixpoint never_injected (ctx : context) : bool :=
  match ctx with
  | Background => true
  | WithCancel parent => never_injected parent
  | WithValue parent k _ => negb (bool_decide (k = blockCtxKey)) && never_injected parent
  end.

End Blocks.

Arguments any_nil {Block}.
Arguments any_blocks {Block} s.
Arguments any_other {Block} ty.
Arguments Background {Block}.
Arguments WithCancel {Block} parent.
Arguments WithValue {Block} parent k v.
Arguments Value {Block} ctx k.
Arguments InjectBlocksIntoContext {Block} ctx blocks.
Arguments ExtractBlocksFromContext {Block} ctx.
Arguments never_injected {Block} ctx.

(** *** storeSeriesSet *)

Section SeriesSet.

(** [storepb.Series], [labels.Labels] and [storepb.AggrChunk] come from the
    Prometheus and Thanos libraries; the set only reads a series through
    [PromLabels()] and the [Chunks] field.  The set holds pointers
    [*storepb.Series]: an element is [Some x] for a pointer to the series
    [x] and [None] for the nil pointer. *)
Variables Series Labels AggrChunk : Type.
Variable PromLabels : Series -> Labels.
Variable Chunks : Series -> list AggrChunk.

Record storeSeriesSet : Type := mkStoreSeriesSet {
  series : list (option Series);
  i : Z
}.

Definition newStoreSeriesSet (s : list (option Series)) : storeSeriesSet :=
  {| series := s; i := -1 |}.

Definition len (s : storeSeriesSet) : Z := Z.of_nat (length (series s)).

(** [Next] returns its result together with the receiver after the call.
    The increment cannot overflow: it only runs when [i < len - 1]. *)
Definition Next (s : storeSeriesSet) : bool * storeSeriesSet :=
  if i s >=? len s - 1 then (false, s)
  else (true, {| series := series s; i := i s + 1 |}).

Definition Err (s : storeSeriesSet) : error := None.

(** [s.series[s.i]] with Go's bounds check; the element is a pointer. *)
Definition index (s : storeSeriesSet) : outcome (option Series) :=
  if (i s <? 0) || (i s >=? len s) then Panic "index out of range"
  else match series s !! Z.to_nat (i s) with
       | Some p => Ret p
       | None => Panic "index out of range"
       end.

(** [PromLabels()] reads [m.Labels] and [.Chunks] reads a field through the
    pointer: on the nil pointer the call panics. *)
Definition At (s : storeSeriesSet) : outcome (Labels * list AggrChunk) :=
  match index s with
  | Ret (Some x) => Ret (PromLabels x, Chunks x)
  | Ret None => Panic "invalid memory address or nil pointer dereference"
  | Panic msg => Panic msg
  end.

(** [n] successive calls of [Next]: the results in call order and the
    receiver afterwards. *)
Fixpoint run_next (n : nat) (s : storeSeriesSet) : list bool * storeSeriesSet :=
  match n with
  | O => ([], s)
  | S n' =>
      let '(b, s') := Next s in
      let '(bs, s'') := run_next n' s' in
      (b :: bs, s'')
  end.

End SeriesSet.

Arguments series {Series} s.
Arguments i {Series} s.
Arguments newStoreSeriesSet {Series} s.
Arguments len {Series} s.
Arguments Next {Series} s.
Arguments Err {Series} s.
Arguments index {Series} s.
Arguments At {Series Labels AggrChunk} PromLabels Chunks s.
Arguments run_next {Series} n s.

End Querier.

(** ** crypto/sha256 and the [%x] verb

    [sha256.Sum256] belongs to Go's standard library; it is written out here
    after FIPS 180-4 so that the content-hash label of the manager can be
    computed.  Words are 32-bit integers held in [Z], every addition wraps
    modulo [2^32]. *)

Module Sha256.

Definition wrap32 (x : Z) : Z := x mod 2 ^ 32.

Definition add32 (a b : Z) : Z := wrap32 (a + b).

Definition rotr (n x : Z) : Z :=
  wrap32 (Z.lor (Z.shiftr x n) (Z.shiftl x (32 - n))).

Definition not32 (x : Z) : Z := Z.lxor x 4294967295.

Definition Ch (x y z : Z) : Z := Z.lxor (Z.land x y) (Z.land (not32 x) z).
Definition Maj (x y z : Z) : Z :=
  Z.lxor (Z.lxor (Z.land x y) (Z.land x z)) (Z.land y z).
Definition bsig0 (x : Z) : Z := Z.lxor (Z.lxor (rotr 2 x) (rotr 13 x)) (rotr 22 x).
Definition bsig1 (x : Z) : Z := Z.lxor (Z.lxor (rotr 6 x) (rotr 11 x)) (rotr 25 x).
Definition ssig0 (x : Z) : Z := Z.lxor (Z.lxor (rotr 7 x) (rotr 18 x)) (Z.shiftr x 3).
Definition ssig1 (x : Z) : Z := Z.lxor (Z.lxor (rotr 17 x) (rotr 19 x)) (Z.shiftr x 10).

(** The first 64 primes. *)
Definition primes : list Z :=
  [2; 3; 5; 7; 11; 13; 17; 19; 23; 29; 31; 37; 41; 43; 47; 53; 59; 61; 67; 71;
   73; 79; 83; 89; 97; 101; 103; 107; 109; 113; 127; 131; 137; 139; 149; 151;
   157; 163; 167; 173; 179; 181; 191; 193; 197; 199; 211; 223; 227; 229; 233;
   239; 241; 251; 257; 263; 269; 271; 277; 281; 283; 293; 307; 311].

(** The largest [r] below [2^bits] above [acc] with [r^3 <= n], bit by bit. *)
Fixpoint cube_root (bits : nat) (n acc : Z) : Z :=
  match bits with
  | O => acc
  | S b =>
      let c := acc + 2 ^ Z.of_nat b in
      if c * c * c <=? n then cube_root b n c else cube_root b n acc
  end.

(** The round constants: the first 32 bits of the fractional part of the cube
    root of each prime. *)
Definition K : list Z :=
  (fun p => wrap32 (cube_root 36 (p * 2 ^ 96) 0)) <$> primes.

(** The eight working variables [a..h], also the chaining value. *)
Record digest : Type := mkDigest {
  h0 : Z; h1 : Z; h2 : Z; h3 : Z; h4 : Z; h5 : Z; h6 : Z; h7 : Z
}.

(** The initial hash value: the first 32 bits of the fractional part of the
    square root of each of the first eight primes. *)
Definition frac_sqrt (p : Z) : Z := wrap32 (Z.sqrt (p * 2 ^ 64)).

Definition init : digest :=
  mkDigest (frac_sqrt 2) (frac_sqrt 3) (frac_sqrt 5) (frac_sqrt 7)
           (frac_sqrt 11) (frac_sqrt 13) (frac_sqrt 17) (frac_sqrt 19).

Definition byte_to_Z (b : byte) : Z := Z.of_N (Byte.to_N b).

Definition byte_of_Z (z : Z) : byte :=
  match Byte.of_N (Z.to_N (z mod 256)) with
  | Some b => b
  | None => x00
  end.

(** Big-endian encoding of the low [n] bytes of [x]. *)
Fixpoint be_bytes (n : nat) (x : Z) : list Z :=
  match n with
  | O => []
  | S n' => (Z.shiftr x (8 * Z.of_nat n')) mod 256 :: be_bytes n' x
  end.

(** Message padding: a [0x80] byte, zero bytes up to 56 modulo 64, then the
    bit length as a 64-bit big-endian integer. *)
Definition pad (msg : list Z) : list Z :=
  let l := Z.of_nat (length msg) in
  let zeros := Z.to_nat ((55 - l) mod 64) in
  msg ++ [128] ++ replicate zeros 0 ++ be_bytes 8 ((l * 8) mod 2 ^ 64).

Fixpoint words (n : nat) (bs : list Z) : list Z :=
  match n, bs with
  | S n', b3 :: b2 :: b1 :: b0 :: rest =>
      (b3 * 16777216 + b2 * 65536 + b1 * 256 + b0) :: words n' rest
  | _, _ => []
  end.

(** Message schedule: [w] holds the words computed so far, newest first. *)
Fixpoint schedule (n : nat) (w : list Z) : list Z :=
  match n with
  | O => w
  | S n' =>
      let get k := nth k w 0 in
      let x := add32 (add32 (ssig1 (get 1%nat)) (get 6%nat))
                     (add32 (ssig0 (get 14%nat)) (get 15%nat)) in
      schedule n' (x :: w)
  end.

Definition round (d : digest) (kw : Z * Z) : digest :=
  let '(k, w) := kw in
  let t1 := add32 (add32 (add32 (h7 d) (bsig1 (h4 d))) (add32 (Ch (h4 d) (h5 d) (h6 d)) k)) w in
  let t2 := add32 (bsig0 (h0 d)) (Maj (h0 d) (h1 d) (h2 d)) in
  mkDigest (add32 t1 t2) (h0 d) (h1 d) (h2 d) (add32 (h3 d) t1) (h4 d) (h5 d) (h6 d).

Definition compress (d : digest) (block : list Z) : digest :=
  let w := rev (schedule 48 (rev (words 16 block))) in
  let r := fold_left round (zip K w) d in
  mkDigest (add32 (h0 d) (h0 r)) (add32 (h1 d) (h1 r)) (add32 (h2 d) (h2 r))
           (add32 (h3 d) (h3 r)) (add32 (h4 d) (h4 r)) (add32 (h5 d) (h5 r))
           (add32 (h6 d) (h6 r)) (add32 (h7 d) (h7 r)).

Fixpoint blocks (n : nat) (d : digest) (bs : list Z) : digest :=
  match n with
  | O => d
  | S n' => blocks n' (compress d (take 64 bs)) (drop 64 bs)
  end.

Definition digest_bytes (d : digest) : list byte :=
  byte_of_Z <$> (be_bytes 4 (h0 d) ++ be_bytes 4 (h1 d) ++ be_bytes 4 (h2 d) ++
                 be_bytes 4 (h3 d) ++ be_bytes 4 (h4 d) ++ be_bytes 4 (h5 d) ++
                 be_bytes 4 (h6 d) ++ be_bytes 4 (h7 d)).

(** [sha256.Sum256]: the 32-byte digest of [data]. *)
Definition Sum256 (data : list byte) : list byte :=
  let p := pad (byte_to_Z <$> data) in
  digest_bytes (blocks (length p / 64) init p).

(** One lowercase hexadecimal digit. *)
Definition hexdigit (n : Z) : ascii :=
  if n <? 10 then ascii_of_nat (Z.to_nat (48 + n))
  else ascii_of_nat (Z.to_nat (87 + n)).

(** [fmt.Sprintf("%x", b)] on a byte slice: two lowercase digits per byte. *)
Fixpoint hex (bs : list byte) : string :=
  match bs with
  | [] => EmptyString
  | b :: rest =>
      String (hexdigit (byte_to_Z b / 16))
        (String (hexdigit (byte_to_Z b mod 16)) (hex rest))
  end.

(** The characters [0-9a-f]. *)
Definition is_lower_hex (a : ascii) : bool :=
  let n := nat_of_ascii a in
  ((48 <=? n) && (n <=? 57))%nat || ((97 <=? n) && (n <=? 102))%nat.

Fixpoint all_lower_hex (s : string) : bool :=
  match s with
  | EmptyString => true
  | String a rest => is_lower_hex a && all_lower_hex rest
  end.

End Sha256.

(** ** pkg/util/runtimeconfig *)

Module RuntimeConfig.

(** A channel value is a reference: the manager's registry and the subscriber
    hold the same channel.  Channels live in a heap, a reference is the index
    of its cell; an index outside the heap behaves as the nil channel. *)
Abbreviation chan_id := nat.

Section Manager.

(** The dynamic values a [Loader] produces. *)
Variable V : Type.

(** [bucket.Filesystem], the default backend name of pkg/storage/bucket. *)
Variable Filesystem : string.

(** [interface{}]: [None] is the nil interface. *)
Definition iface : Type := option V.

(** A channel made by [make(chan interface{}, cap)]: the buffered values
    (oldest first), whether it was closed, how many receivers are parked on
    it, and the values receivers have taken out so far. *)
Record Chan : Type := mkChan {
  cap : nat;
  buf : list iface;
  closed : bool;
  recvq : nat;
  taken : list iface
}.

(** [type Loader func(r io.Reader) (interface{}, error)], applied to the
    bytes behind the reader. *)
Definition Loader_func : Type := list byte -> iface * error.

(** [bucket.Config]: the manager only touches [Backend]. *)
Record bucket_Config : Type := mkBucketConfig { Backend : string }.

Record Config : Type := mkConfig {
  ReloadPeriod : Z;
  LoadPath : string;
  Loader : Loader_func;
  StorageConfig : bucket_Config
}.

(** [objstore.Bucket] handles are opaque; [None] is the nil interface. *)
Definition Bucket : Type := string.
Definition BucketClientFactory : Type := unit -> option Bucket * error.

(** What the object store answers during one reload cycle: the error of
    [Get], the bytes and the error of [io.ReadAll], the error of [Close]. *)
Record fetch_io : Type := mkFetch {
  get_err : error;
  read_buf : list byte;
  read_err : error;
  close_err : error
}.

(** Observable effects, in the order the code performs them. *)
Inductive event : Type :=
  | EvFactory
  | EvGet (path : string)
  | EvLoader (data : list byte)
  | EvSuccessGauge (v : Z)
  | EvSetConfig (c : iface)
  | EvSend (ch : chan_id) (v : iface)
  | EvDrop (ch : chan_id) (v : iface)
  | EvClose (ch : chan_id)
  | EvHashReset
  | EvHashSet (label : string) (v : Z)
  | EvLog (lvl msg : string) (err : error).

(** The [Manager] struct, the heap of channels it shares with subscribers
    and the log of effects so far (oldest first). *)
Record State : Type := mkState {
  cfg : Config;
  listeners : list chan_id;
  config : iface;
  configLoadSuccess : Z;
  configHash : gmap string Z;
  bucketClient : option Bucket;
  bucketClientFactory : BucketClientFactory;
  chans : list Chan;
  trace : list event
}.

Definition set_listeners (l : list chan_id) (s : State) : State :=
  mkState (cfg s) l (config s) (configLoadSuccess s) (configHash s)
          (bucketClient s) (bucketClientFactory s) (chans s) (trace s).
Definition set_config (c : iface) (s : State) : State :=
  mkState (cfg s) (listeners s) c (configLoadSuccess s) (configHash s)
          (bucketClient s) (bucketClientFactory s) (chans s) (trace s).
Definition set_configLoadSuccess (g : Z) (s : State) : State :=
  mkState (cfg s) (listeners s) (config s) g (configHash s)
          (bucketClient s) (bucketClientFactory s) (chans s) (trace s).
Definition set_configHash (h : gmap string Z) (s : State) : State :=
  mkState (cfg s) (listeners s) (config s) (configLoadSuccess s) h
          (bucketClient s) (bucketClientFactory s) (chans s) (trace s).
Definition set_bucketClient (b : option Bucket) (s : State) : State :=
  mkState (cfg s) (listeners s) (config s) (configLoadSuccess s) (configHash s)
          b (bucketClientFactory s) (chans s) (trace s).
Definition set_chans (c : list Chan) (s : State) : State :=
  mkState (cfg s) (listeners s) (config s) (configLoadSuccess s) (configHash s)
          (bucketClient s) (bucketClientFactory s) c (trace s).
Definition set_trace (t : list event) (s : State) : State :=
  mkState (cfg s) (listeners s) (config s) (configLoadSuccess s) (configHash s)
          (bucketClient s) (bucketClientFactory s) (chans s) t.

(** *** State and panic monad *)

Inductive result (A : Type) : Type :=
  | Done (a : A) (s : State)
  | Crashed (msg : string) (s : State).
Arguments Done {A} a s.
Arguments Crashed {A} msg s.

Definition M (A : Type) : Type := State -> result A.

Definition ret {A} (a : A) : M A := fun s => Done a s.
Definition bind {A B} (m : M A) (k : A -> M B) : M B :=
  fun s => match m s with
           | Done a s' => k a s'
           | Crashed msg s' => Crashed msg s'
           end.
Definition panic {A} (msg : string) : M A := fun s => Crashed msg s.
Definition gets {A} (f : State -> A) : M A := fun s => Done (f s) s.
Definition modify (f : State -> State) : M unit := fun s => Done tt (f s).
Definition emit (e : event) : M unit :=
  modify (fun s => set_trace (trace s ++ [e]) s).

(** The state a computation stops in, returned or crashed. *)
Definition final {A} (r : result A) : State :=
  match r with Done _ s => s | Crashed _ s => s end.

Notation "'let*' x ':=' c 'in' k" := (bind c (fun x => k))
  (at level 10, x name, c at level 100, k at level 200, only parsing).
Notation "c '>>' k" := (bind c (fun _ => k))
  (at level 100, k at level 200, right associativity, only parsing).

(** *** Channels *)

(** The limits [makechan] of the Go runtime checks on 64-bit platforms: the
    largest allocation ([1 << 48] bytes), the size of a channel header and
    the size of an [interface{}] element. *)
Definition maxAlloc : Z := 281474976710656.
Definition hchanSize : Z := 96.
Definition elem_size : Z := 16.

(** [makechan] refuses a negative size and a size whose buffer does not fit
    the largest allocation. *)
Definition size_out_of_range (size : Z) : bool :=
  (size <? 0) || (maxAlloc - hchanSize <? elem_size * size).

(** The largest buffer [makechan] accepts. *)
Definition max_buffer : Z := 17592186044410.

(** [make(chan interface{}, buffer)].  Running out of memory, a fatal error
    of the runtime at any allocation, is outside this model. *)
Definition make_chan (buffer : Z) : M chan_id :=
  if size_out_of_range buffer then panic "makechan: size out of range"
  else fun s =>
    Done (length (chans s))
         (set_chans (chans s ++ [mkChan (Z.to_nat buffer) [] false 0 []]) s).

(** A send can proceed when a receiver is parked or the buffer has room. *)
Definition ready (c : Chan) : bool :=
  (0 <? recvq c)%nat || (length (buf c) <? cap c)%nat.

(** The channel after it accepted [v]: handed to a parked receiver if there
    is one, queued otherwise. *)
Definition deliver (v : iface) (c : Chan) : Chan :=
  if (0 <? recvq c)%nat
  then mkChan (cap c) (buf c) (closed c) (pred (recvq c)) (taken c ++ [v])
  else mkChan (cap c) (buf c ++ [v]) (closed c) (recvq c) (taken c).

(** The channel after a non-blocking send of [v] was tried on it. *)
Definition offer (v : iface) (c : Chan) : Chan :=
  if ready c then deliver v c else c.

(** [select { case ch <- v: default: }]: never blocks; reports whether the
    value was sent. *)
Definition try_send (ch : chan_id) (v : iface) : M bool :=
  fun s =>
    match chans s !! ch with
    | None => (emit (EvDrop ch v) >> ret false) s
    | Some c =>
        if closed c then Crashed "send on closed channel" s
        else if ready c
             then (modify (fun s => set_chans (<[ch := deliver v c]> (chans s)) s) >>
                   emit (EvSend ch v) >> ret true) s
             else (emit (EvDrop ch v) >> ret false) s
    end.

(** A channel after [close]: parked receivers are released with the zero
    value, buffered values stay readable. *)
Definition shut (c : Chan) : Chan :=
  mkChan (cap c) (buf c) true 0 (taken c).

(** [close(ch)]. *)
Definition close_chan (ch : chan_id) : M unit :=
  fun s =>
    match chans s !! ch with
    | None => Crashed "close of nil channel" s
    | Some c =>
        if closed c then Crashed "close of closed channel" s
        else (modify (fun s => set_chans (<[ch := shut c]> (chans s)) s) >>
              emit (EvClose ch)) s
    end.

(** A subscriber starts [<-ch]: it takes the oldest buffered value, or gets
    the zero value of a closed channel, or parks. *)
Definition recv (ch : chan_id) : M unit :=
  fun s =>
    match chans s !! ch with
    | None => Done tt s
    | Some c =>
        match buf c with
        | v :: rest =>
            Done tt (set_chans
              (<[ch := mkChan (cap c) rest (closed c) (recvq c) (taken c ++ [v])]> (chans s)) s)
        | [] =>
            if closed c then Done tt s
            else Done tt (set_chans
              (<[ch := mkChan (cap c) [] false (S (recvq c)) (taken c)]> (chans s)) s)
        end
    end.

(** *** Manager *)

(** [New] called with the nil [prometheus.Registerer]: [promauto.With(nil)]
    builds the two gauges without registering them, so nothing can refuse
    them.  [New_with] below is [New] with any registerer. *)
Definition New (c : Config) (factory : BucketClientFactory) : option State * error :=
  if decide (LoadPath c = "") then (None, errors_New "LoadPath is empty")
  else
    let c' :=
      if decide (Backend (StorageConfig c) = "")
      then mkConfig (ReloadPeriod c) (LoadPath c) (Loader c) (mkBucketConfig Filesystem)
      else c in
    (Some (mkState c' [] None 0 ∅ None factory [] []), None).

(** What a registerer is given with a gauge: the [GaugeOpts] it was built
    from and the label names of a vector. *)
Record Collector : Type := mkCollector {
  Name : string;
  Help : string;
  labelNames : list string
}.

Definition configLoadSuccess_gauge : Collector :=
  mkCollector "runtime_config_last_reload_successful"
              "Whether the last runtime-config reload attempt was successful." [].

Definition configHash_gauge : Collector :=
  mkCollector "runtime_config_hash"
              "Hash of the currently active runtime config file." ["sha256"].

(** [prometheus.Registerer] is an interface: an implementation is its state
    [R] and its [Register] method, which returns the state afterwards and
    the error of a refused collector.  The nil interface value is [None]. *)
Variable R : Type.
Variable Register : Collector -> R -> R * error.

Definition Registerer : Type := option R.

(** [promauto.With(r)] on a new collector: nothing on the nil registerer,
    [r.MustRegister] otherwise, which panics with the error [Register]
    returns. *)
Definition MustRegister (g : Collector) (r : Registerer) : outcome Registerer :=
  match r with
  | None => Ret None
  | Some st =>
      match Register g st with
      | (st', None) => Ret (Some st')
      | (_, Some err) => Panic (A := Registerer) err
      end
  end.

(** [New] with its registerer: the manager and the error it returns, and the
    registerer afterwards, or the panic of a refused registration.  The
    struct literal builds the success gauge first and the hash gauge
    second; the empty path returns before either. *)
Definition New_with (registerer : Registerer) (c : Config) (factory : BucketClientFactory)
  : outcome (option State * error * Registerer) :=
  if decide (LoadPath c = "")
  then Ret (None, errors_New "LoadPath is empty", registerer)
  else
    let c' :=
      if decide (Backend (StorageConfig c) = "")
      then mkConfig (ReloadPeriod c) (LoadPath c) (Loader c) (mkBucketConfig Filesystem)
      else c in
    match MustRegister configLoadSuccess_gauge registerer with
    | Panic msg => Panic msg
    | Ret r1 =>
        match MustRegister configHash_gauge r1 with
        | Panic msg => Panic msg
        | Ret r2 => Ret (Some (mkState c' [] None 0 ∅ None factory [] []), None, r2)
        end
    end.

(** The registerer [r] takes both gauges of [New] and is [r'] afterwards. *)
Definition accepts (r r' : Registerer) : Prop :=
  match r with
  | None => r' = None
  | Some st =>
      let first := Register configLoadSuccess_gauge st in
      let second := Register configHash_gauge (fst first) in
      snd first = None /\ snd second = None /\ r' = Some (fst second)
  end.

Definition loadConfigFromBucket (io : fetch_io) : M (list byte * error) :=
  let* client := gets bucketClient in
  match client with
  | None => panic "invalid memory address or nil pointer dereference"
  | Some _ =>
      let* path := gets (fun s => LoadPath (cfg s)) in
      emit (EvGet path) >>
      match get_err io with
      | Some e => ret ([], Wrap (Some e) "open file")
      | None =>
          match read_err io with
          | Some e => ret ([], Wrap (Some e) "read entire file")
          | None => ret (read_buf io, close_err io)
          end
      end
  end.

(** What [loadConfigFromBucket] returns for an answer of the store. *)
Definition fetch_result (io : fetch_io) : list byte * error :=
  match get_err io with
  | Some e => ([], Wrap (Some e) "open file")
  | None =>
      match read_err io with
      | Some e => ([], Wrap (Some e) "read entire file")
      | None => (read_buf io, close_err io)
      end
  end.

Definition setConfig (c : iface) : M unit :=
  modify (set_config c) >> emit (EvSetConfig c).

(** The [range] loop of [callListeners] over the registry. *)
Fixpoint send_each (chs : list chan_id) (newValue : iface) : M unit :=
  match chs with
  | [] => ret tt
  | ch :: rest => try_send ch newValue >> send_each rest newValue
  end.

Definition callListeners (newValue : iface) : M unit :=
  let* chs := gets listeners in
  send_each chs newValue.

Definition set_success (g : Z) : M unit :=
  modify (set_configLoadSuccess g) >> emit (EvSuccessGauge g).

Definition hash_Reset : M unit :=
  modify (set_configHash ∅) >> emit EvHashReset.

Definition hash_Set (label : string) (g : Z) : M unit :=
  modify (fun s => set_configHash (<[label := g]> (configHash s)) s) >>
  emit (EvHashSet label g).

Definition loadConfig (io : fetch_io) : M error :=
  let* r := loadConfigFromBucket io in
  let buf := fst r in
  match snd r with
  | Some e => set_success 0 >> ret (Wrap (Some e) "read file")
  | None =>
      let hash := Sha256.Sum256 buf in
      let* load := gets (fun s => Loader (cfg s)) in
      emit (EvLoader buf) >>
      let loaded := load buf in
      match snd loaded with
      | Some e => set_success 0 >> ret (Wrap (Some e) "load file")
      | None =>
          set_success 1 >>
          setConfig (fst loaded) >>
          callListeners (fst loaded) >>
          hash_Reset >>
          hash_Set (Sha256.hex hash) 1 >>
          ret None
      end
  end.

Definition starting (io : fetch_io) : M error :=
  let* path := gets (fun s => LoadPath (cfg s)) in
  if decide (path = "") then ret None
  else
    let* factory := gets bucketClientFactory in
    emit EvFactory >>
    modify (set_bucketClient (fst (factory tt))) >>
    match snd (factory tt) with
    | Some e => ret (Some e)
    | None =>
        let* err := loadConfig io in
        ret (Wrap err "failed to load runtime config")
    end.

Definition CreateListenerChannel (buffer : Z) : M chan_id :=
  let* ch := make_chan buffer in
  modify (fun s => set_listeners (listeners s ++ [ch]) s) >>
  ret ch.

(** Index of the first registry entry equal to [listener]. *)
Fixpoint index_of (listener : chan_id) (chs : list chan_id) : option nat :=
  match chs with
  | [] => None
  | ch :: rest =>
      if decide (ch = listener) then Some O
      else S <$> index_of listener rest
  end.

Definition CloseListenerChannel (listener : chan_id) : M unit :=
  let* chs := gets listeners in
  match index_of listener chs with
  | Some ix =>
      modify (set_listeners (take ix chs ++ drop (S ix) chs)) >>
      close_chan listener
  | None => ret tt
  end.

(** What wakes the [select] of the run loop: a tick of the ticker, with the
    object store's answer for the cycle it starts, or [ctx.Done()]. *)
Inductive wake : Type :=
  | Tick (io : fetch_io)
  | CtxDone.

(** The loop either returned, or consumed every wake-up offered so far and
    is blocked again. *)
Inductive loop_result : Type :=
  | Returned (err : error)
  | Blocked.

(** [<-ctx.Done()] of the disabled branch: no ticker exists there. *)
Fixpoint wait_done (evs : list wake) : loop_result :=
  match evs with
  | [] => Blocked
  | CtxDone :: _ => Returned None
  | Tick _ :: rest => wait_done rest
  end.

Definition log_error (e : string) : M unit :=
  emit (EvLog "error" "failed to load config" (Some e)).

(** The [for { select { ... } }] of [loop]. *)
Fixpoint loop_from (evs : list wake) : M loop_result :=
  match evs with
  | [] => ret Blocked
  | CtxDone :: _ => ret (Returned None)
  | Tick io :: rest =>
      let* err := loadConfig io in
      match err with
      | Some e => log_error e
      | None => ret tt
      end >>
      loop_from rest
  end.

Definition loop (evs : list wake) : M loop_result :=
  let* c := gets cfg in
  if decide (LoadPath c = "")
  then emit (EvLog "info" "runtime config disabled: file not specified" None) >>
       ret (wait_done evs)
  else if ReloadPeriod c <=? 0
       then panic "non-positive interval for NewTicker"
       else loop_from evs.

(** The [range] loop of [stopping]. *)
Fixpoint close_each (chs : list chan_id) : M unit :=
  match chs with
  | [] => ret tt
  | ch :: rest => close_chan ch >> close_each rest
  end.

Definition stopping (_ : error) : M error :=
  let* chs := gets listeners in
  close_each chs >>
  modify (set_listeners []) >>
  ret None.

Definition GetConfig : M iface := gets config.

(** *** Histories *)

(** How often [close] ran on [ch] in a log. *)
Fixpoint closes (ch : chan_id) (t : list event) : nat :=
  match t with
  | [] => O
  | EvClose c :: t' => ((if decide (c = ch) then 1 else 0) + closes ch t')%nat
  | _ :: t' => closes ch t'
  end.

(** The values sent on [ch] in a log, oldest first. *)
Fixpoint sends (ch : chan_id) (t : list event) : list iface :=
  match t with
  | [] => []
  | EvSend c v :: t' => if decide (c = ch) then v :: sends ch t' else sends ch t'
  | _ :: t' => sends ch t'
  end.

(** The events one [callListeners] of [v] leaves for the registry [chs],
    decided by each channel's state in the heap [cs]. *)
Definition publish_events (chs : list chan_id) (v : iface) (cs : list Chan) : list event :=
  (fun ch => match cs !! ch with
             | Some c => if ready c then EvSend ch v else EvDrop ch v
             | None => EvDrop ch v
             end) <$> chs.

(** What the manager's callers, its subscribers and its host can do. *)
Inductive op : Type :=
  | OpStarting (io : fetch_io)
  | OpLoop (evs : list wake)
  | OpLoadConfig (io : fetch_io)
  | OpCreateListenerChannel (buffer : Z)
  | OpCloseListenerChannel (listener : chan_id)
  | OpGetConfig
  | OpRecv (ch : chan_id)
  | OpStopping (err : error).

Definition exec (o : op) : M unit :=
  match o with
  | OpStarting io => starting io >> ret tt
  | OpLoop evs => loop evs >> ret tt
  | OpLoadConfig io => loadConfig io >> ret tt
  | OpCreateListenerChannel buffer => CreateListenerChannel buffer >> ret tt
  | OpCloseListenerChannel listener => CloseListenerChannel listener
  | OpGetConfig => GetConfig >> ret tt
  | OpRecv ch => recv ch
  | OpStopping err => stopping err >> ret tt
  end.

(** A history of operations; a panic ends it. *)
Fixpoint run (ops : list op) : M unit :=
  match ops with
  | [] => ret tt
  | o :: rest => exec o >> run rest
  end.

(** The registry invariant: the registry has no duplicates, it holds exactly
    the channels of the heap that are still open, and [close] ran once on
    every closed channel and never on any other. *)
Record wf (s : State) : Prop := mkWf {
  wf_nodup : NoDup (listeners s);
  wf_open : forall ch, ch ∈ listeners s <-> (closed <$> chans s) !! ch = Some false;
  wf_closes : forall ch,
    closes ch (trace s) =
    match (closed <$> chans s) !! ch with Some true => 1%nat | _ => 0%nat end
}.

(** An event that is neither a send nor a close. *)
Definition silent (e : event) : bool :=
  match e with
  | EvSend _ _ | EvClose _ => false
  | _ => true
  end.

(** [ch] is a channel of the heap on which [close] ran. *)
Definition dead (s : State) (ch : chan_id) : Prop :=
  (closed <$> chans s) !! ch = Some true.

(** Between [s] and [s'] nothing was sent on [ch] and [close] did not run
    on it. *)
Definition quiet (ch : chan_id) (s s' : State) : Prop :=
  sends ch (trace s') = sends ch (trace s) /\
  closes ch (trace s') = closes ch (trace s).

(** A computation keeps the registry invariant and leaves closed channels
    alone, whether it returns or panics. *)
Definition preserves {A} (m : M A) : Prop :=
  forall s, wf s ->
    wf (final (m s)) /\
    forall ch, dead s ch -> dead (final (m s)) ch /\ quiet ch s (final (m s)).

(** A cycle fails when the fetch or the decoder reports an error. *)
Definition fetch_fails (io : fetch_io) : bool :=
  bool_decide (get_err io <> None) || bool_decide (read_err io <> None) ||
  bool_decide (close_err io <> None).

Definition cycle_fails (load : Loader_func) (io : fetch_io) : bool :=
  fetch_fails io || bool_decide (snd (load (read_buf io)) <> None).

End Manager.

Arguments mkChan {V} cap buf closed recvq taken.
Arguments cap {V} c.
Arguments buf {V} c.
Arguments closed {V} c.
Arguments recvq {V} c.
Arguments taken {V} c.
Arguments mkConfig {V} ReloadPeriod LoadPath Loader StorageConfig.
Arguments ReloadPeriod {V} c.
Arguments LoadPath {V} c.
Arguments Loader {V} c.
Arguments StorageConfig {V} c.
Arguments EvFactory {V}.
Arguments EvGet {V} path.
Arguments EvLoader {V} data.
Arguments EvSuccessGauge {V} v.
Arguments EvSetConfig {V} c.
Arguments EvSend {V} ch v.
Arguments EvDrop {V} ch v.
Arguments EvClose {V} ch.
Arguments EvHashReset {V}.
Arguments EvHashSet {V} label v.
Arguments EvLog {V} lvl msg err.
Arguments mkState {V} cfg listeners config configLoadSuccess configHash
  bucketClient bucketClientFactory chans trace.
Arguments cfg {V} s.
Arguments listeners {V} s.
Arguments config {V} s.
Arguments configLoadSuccess {V} s.
Arguments configHash {V} s.
Arguments bucketClient {V} s.
Arguments bucketClientFactory {V} s.
Arguments chans {V} s.
Arguments trace {V} s.
Arguments set_listeners {V} l s.
Arguments set_config {V} c s.
Arguments set_configLoadSuccess {V} g s.
Arguments set_configHash {V} h s.
Arguments set_bucketClient {V} b s.
Arguments set_chans {V} c s.
Arguments set_trace {V} t s.
Arguments Done {V A} a s.
Arguments Crashed {V A} msg s.
Arguments final {V A} r.
Arguments ret {V A} a.
Arguments bind {V A B} m k.
Arguments panic {V A} msg.
Arguments gets {V A} f.
Arguments modify {V} f.
Arguments emit {V} e.
Arguments make_chan {V} buffer.
Arguments ready {V} c.
Arguments deliver {V} v c.
Arguments offer {V} v c.
Arguments try_send {V} ch v.
Arguments shut {V} c.
Arguments close_chan {V} ch.
Arguments recv {V} ch.
Arguments New {V} Filesystem c factory.
Arguments Registerer R : clear implicits.
Arguments MustRegister {R} Register g r.
Arguments New_with {V} Filesystem {R} Register registerer c factory.
Arguments accepts {R} Register r r'.
Arguments loadConfigFromBucket {V} io.
Arguments setConfig {V} c.
Arguments send_each {V} chs newValue.
Arguments callListeners {V} newValue.
Arguments set_success {V} g.
Arguments hash_Reset {V}.
Arguments hash_Set {V} label g.
Arguments loadConfig {V} io.
Arguments starting {V} io.
Arguments CreateListenerChannel {V} buffer.
Arguments CloseListenerChannel {V} listener.
Arguments log_error {V} e.
Arguments loop_from {V} evs.
Arguments loop {V} evs.
Arguments close_each {V} chs.
Arguments stopping {V} _.
Arguments GetConfig {V}.
Arguments closes {V} ch t.
Arguments sends {V} ch t.
Arguments publish_events {V} chs v cs.
Arguments exec {V} o.
Arguments run {V} ops.
Arguments wf {V} s.
Arguments wf_nodup {V s} _.
Arguments wf_open {V s} _ ch.
Arguments wf_closes {V s} _ ch.
Arguments silent {V} e.
Arguments dead {V} s ch.
Arguments quiet {V} ch s s'.
Arguments preserves {V A} m.
Arguments fetch_fails io : simpl never.
Arguments cycle_fails {V} load io.

End RuntimeConfig.

(** ** A small deployment, used to run the model on concrete inputs *)

Module Scenario.

Import RuntimeConfig.

(** A decoder that rejects the empty file and otherwise yields the size of
    the content. *)
Definition decode : Loader_func nat :=
  fun data =>
    match data with
    | [] => (None, Some "EOF")
    | _ => (Some (length data), None)
    end.

Definition factory : BucketClientFactory := fun _ => (Some "fs-bucket", None).

Definition cfg_yaml : Config nat :=
  mkConfig 10 "cfg.yaml" decode (mkBucketConfig "").

Definition cfg_disabled : Config nat :=
  mkConfig 10 "" decode (mkBucketConfig "").

Definition B1 : list byte := [x61; x3a; x31].
Definition B2 : list byte := [x61; x3a; x32; x32].

Definition serves (data : list byte) : fetch_io := mkFetch None data None None.
Definition not_found : fetch_io := mkFetch (Some "object not found") [] None None.
Definition close_fails : fetch_io := mkFetch None B1 None (Some "close: i/o error").

(** The manager [New] builds for [cfg_yaml]. *)
Definition fresh : State nat :=
  mkState (mkConfig 10 "cfg.yaml" decode (mkBucketConfig "filesystem"))
          [] None 0 ∅ None factory [] [].

(** Started on [B1]; then three subscribers: channel 0 with a buffer of one,
    channel 1 unbuffered with its subscriber parked in a receive, channel 2
    unbuffered with nobody receiving. *)
Definition serving : State nat :=
  final (run [OpStarting (serves B1);
              OpCreateListenerChannel 1;
              OpCreateListenerChannel 0;
              OpCreateListenerChannel 0;
              OpRecv 1] fresh).

(** A manager value with an empty path, which [New] never builds. *)
Definition disabled : State nat :=
  mkState cfg_disabled [] None 0 ∅ None factory [] [].

(** A registerer that holds the names registered with it and refuses a
    collector whose name it holds, with the text of the error a
    [prometheus.Registry] returns for a collector registered twice. *)
Definition held_Register (g : Collector) (held : list string) : list string * error :=
  if decide (Name g ∈ held)
  then (held, Some "duplicate metrics collector registration attempted")
  else (Name g :: held, None).

End Scenario.

(** ** pkg/querier: label matchers and typed contexts *)

Module QuerierMore.

Import Querier.

(** [labels.MatchType] is an [int]; Prometheus numbers the four kinds from 0. *)
Definition MatchEqual : Z := 0.
Definition MatchNotEqual : Z := 1.
Definition MatchRegexp : Z := 2.
Definition MatchNotRegexp : Z := 3.

(** [storepb.LabelMatcher_Type] is an [int32] enumeration of the Thanos store
    API; its zero value is [LabelMatcher_EQ]. *)
Definition LabelMatcher_EQ : Z := 0.
Definition LabelMatcher_NEQ : Z := 1.
Definition LabelMatcher_RE : Z := 2.
Definition LabelMatcher_NRE : Z := 3.

(** The fields of [labels.Matcher] the conversion reads. *)
Record Matcher : Type := mkMatcher {
  MType : Z;
  MName : string;
  MValue : string
}.

(** [storepb.LabelMatcher]. *)
Record LabelMatcher : Type := mkLabelMatcher {
  LMType : Z;
  LMName : string;
  LMValue : string
}.

(** The [switch m.Type] of the conversion: [t] starts as the zero value and
    no case assigns it for a type outside the four known ones. *)
Definition convert_type (ty : Z) : Z :=
  if ty =? MatchEqual then LabelMatcher_EQ
  else if ty =? MatchNotEqual then LabelMatcher_NEQ
  else if ty =? MatchRegexp then LabelMatcher_RE
  else if ty =? MatchNotRegexp then LabelMatcher_NRE
  else 0.

Definition elems {A} (s : slice A) : list A :=
  match s with
  | nil_slice => []
  | mk_slice l => l
  end.

(** [append(s, x)]: the result is never the nil slice. *)
Definition append {A} (s : slice A) (x : A) : slice A := mk_slice (elems s ++ [x]).

(** The [storepb.LabelMatcher] one iteration builds from [m]. *)
Definition convert_one (m : Matcher) : LabelMatcher :=
  let t := convert_type (MType m) in
  mkLabelMatcher t (MName m) (MValue m).

(** The [range] loop over [matchers]; a matcher is a pointer, [None] is nil
    and reading a field through it panics. *)
Fixpoint convert_loop (converted : slice LabelMatcher) (matchers : list (option Matcher))
  : outcome (slice LabelMatcher) :=
  match matchers with
  | [] => Ret converted
  | None :: _ => Panic "invalid memory address or nil pointer dereference"
  | Some m :: rest => convert_loop (append converted (convert_one m)) rest
  end.

Definition convertMatchersToLabelMatcher (matchers : list (option Matcher))
  : outcome (slice LabelMatcher) :=
  convert_loop nil_slice matchers.

(** One of the four matcher kinds of Prometheus. *)
Definition known_type (ty : Z) : bool := (0 <=? ty) && (ty <=? 3).

(** Every layer of [ctx] under [blockCtxKey] holds a slice of blocks, as the
    layers [InjectBlocksIntoContext] adds do. *)
Fixpoint blocks_typed {Block : Type} (ctx : context Block) : bool :=
  match ctx with
  | Background => true
  | WithCancel parent => blocks_typed parent
  | WithValue parent k v =>
      (if decide (k = blockCtxKey)
       then match v with any_blocks _ => true | _ => false end
       else true) && blocks_typed parent
  end.

End QuerierMore.

(** ** pkg/util/runtimeconfig: histories of reload cycles and of channels *)

Module Reloads.

Import RuntimeConfig.

Section Reloads.

Context {V : Type}.

(** A computation keeps the property [I] of states, whether it returns or
    panics. *)
Definition keeps {A} (I : State V -> Prop) (m : State V -> result V A) : Prop :=
  forall s, I s -> I (final (m s)).

(** The config cell, the success gauge and the hash gauge after one reload
    cycle, as functions of what they held before. *)
Definition cell_after (load : Loader_func V) (c : iface V) (io : fetch_io) : iface V :=
  if cycle_fails load io then c else fst (load (read_buf io)).

Definition gauge_after (load : Loader_func V) (g : Z) (io : fetch_io) : Z :=
  if cycle_fails load io then 0 else 1.

Definition hash_after (load : Loader_func V) (h : gmap string Z) (io : fetch_io)
  : gmap string Z :=
  if cycle_fails load io then h
  else {[ Sha256.hex (Sha256.Sum256 (read_buf io)) := 1 ]}.

(** The values stored in the config cell in a log, oldest first. *)
Fixpoint configs (t : list (event V)) : list (iface V) :=
  match t with
  | [] => []
  | EvSetConfig c :: t' => c :: configs t'
  | _ :: t' => configs t'
  end.

(** An event that is neither a send nor a store into the config cell. *)
Definition muted (e : event V) : bool :=
  match e with
  | EvSend _ _ | EvSetConfig _ => false
  | _ => true
  end.

(** What was sent on each channel is a subsequence of what was stored in the
    config cell. *)
Definition ordered (s : State V) : Prop :=
  forall ch : chan_id, sends ch (trace s) `sublist_of` configs (trace s).

(** The invariant carried through histories: the registry invariant and the
    order of sends. *)
Definition steady (s : State V) : Prop := wf s /\ ordered s.

(** A computation sends nothing and stores nothing in the config cell. *)
Definition calm {A} (m : State V -> result V A) : Prop :=
  forall s,
    (forall ch : chan_id, sends ch (trace (final (m s))) = sends ch (trace s)) /\
    configs (trace (final (m s))) = configs (trace s).

(** Every channel is a bounded queue in step with the log: its buffer is
    within capacity, a receiver is parked only on an empty buffer, and the
    values taken out followed by the buffered ones are the values sent on
    it, in order.  Nothing was sent on a reference outside the heap. *)
Definition chan_ok (s : State V) : Prop :=
  forall ch : chan_id,
    match chans s !! ch with
    | Some c =>
        (length (buf c) <= cap c)%nat /\
        ((0 < recvq c)%nat -> buf c = []) /\
        taken c ++ buf c = sends ch (trace s)
    | None => sends ch (trace s) = []
    end.

(** Publishing the values [vs] one after the other. *)
Fixpoint publish_each (vs : list (iface V)) : State V -> result V unit :=
  match vs with
  | [] => ret ()
  | v :: rest => bind (callListeners v) (fun _ => publish_each rest)
  end.

(** The state [loop_from] logs an error in, if the cycle returned one. *)
Definition logged (err : error) (s : State V) : State V :=
  match err with
  | Some e => set_trace (trace s ++ [EvLog "error" "failed to load config" (Some e)]) s
  | None => s
  end.

End Reloads.

End Reloads.

(** * Properties *)

(** ** pkg/querier: blocks in a context *)

Section QuerierContext.

Import Querier.
Context {Block : Type}.

Lemma Value_never_injected (ctx : context Block) :
  never_injected ctx = true -> Value ctx blockCtxKey = any_nil.
Proof.
  induction ctx as [|parent IH|parent IH k v]; simpl; intros H.
  - reflexivity.
  - auto.
  - apply andb_true_iff in H as [Hk Hp].
    apply negb_true_iff, bool_decide_eq_false in Hk.
    destruct (decide (k = blockCtxKey)); [contradiction | auto].
Qed.

(** C9: extracting from a context right after injecting the slice [bs]
    returns [(bs, true)], for the nil slice too; extracting from a context
    in which no layer carries blocks returns [(nil, false)]. *)
Theorem Extract_Inject_roundtrip (ctx : context Block) (bs : slice Block) :
  ExtractBlocksFromContext (InjectBlocksIntoContext ctx bs) = Ret (bs, true) /\
  (never_injected ctx = true ->
   ExtractBlocksFromContext ctx = Ret (nil_slice, false)).
Proof.
  split.
  - unfold ExtractBlocksFromContext, InjectBlocksIntoContext. simpl.
    destruct (decide (blockCtxKey = blockCtxKey)); [reflexivity | congruence].
  - intros H. unfold ExtractBlocksFromContext.
    rewrite (Value_never_injected ctx H). reflexivity.
Qed.

End QuerierContext.

Lemma Extract_Inject_roundtrip_witness :
  let ctx : Querier.context nat :=
    Querier.WithCancel
      (Querier.WithValue Querier.Background (Querier.foreign_key "string" "user")
                         (Querier.any_other "string")) in
  Querier.never_injected ctx = true /\
  Querier.ExtractBlocksFromContext (Querier.InjectBlocksIntoContext ctx Querier.nil_slice)
    = Ret (Querier.nil_slice, true) /\
  Querier.ExtractBlocksFromContext ctx = Ret (Querier.nil_slice, false).
Proof.
  intros ctx. split; [reflexivity | split].
  - apply (Extract_Inject_roundtrip ctx Querier.nil_slice).
  - apply (Extract_Inject_roundtrip ctx Querier.nil_slice). reflexivity.
Defined.

(** ** pkg/querier: storeSeriesSet *)

Section QuerierSeriesSet.

Import Querier.
Context {Series Labels AggrChunk : Type}.
Variable PromLabels : Series -> Labels.
Variable Chunks : Series -> list AggrChunk.

(** [n] calls of [Next] on a set positioned on element [j - 1]. *)
Lemma run_next_from (s : list (option Series)) (n j : nat) :
  (j <= length s)%nat ->
  run_next n (mkStoreSeriesSet Series s (Z.of_nat j - 1)) =
  (replicate (n `min` (length s - j)) true ++ replicate (n - (length s - j)) false,
   mkStoreSeriesSet Series s (Z.of_nat ((j + n) `min` length s) - 1)).
Proof.
  revert j. induction n as [|n IH]; intros j Hj.
  - simpl. rewrite Nat.add_0_r, Nat.min_l by lia. reflexivity.
  - cbn [run_next]. unfold Next, len. cbn [i series].
    destruct (Z.geb_spec (Z.of_nat j - 1) (Z.of_nat (length s) - 1)) as [Hge|Hlt].
    + assert (j = length s) by lia. subst j.
      specialize (IH (length s) (Nat.le_refl _)). rewrite IH.
      rewrite !Nat.sub_diag, !Nat.min_0_r, !Nat.sub_0_r. simpl.
      rewrite !Nat.min_r by lia. reflexivity.
    + replace (Z.of_nat j - 1 + 1) with (Z.of_nat (S j) - 1) by lia.
      rewrite (IH (S j)) by lia.
      replace (length s - j)%nat with (S (length s - S j)) by lia.
      simpl. replace (j + S n)%nat with (S (j + n)) by lia. reflexivity.
Qed.

(** [At] on a set positioned on an element of the list. *)
Lemma At_positioned (s : list (option Series)) (k : nat) (p : option Series) :
  s !! k = Some p ->
  index (mkStoreSeriesSet Series s (Z.of_nat (S k) - 1)) = Ret p /\
  At PromLabels Chunks (mkStoreSeriesSet Series s (Z.of_nat (S k) - 1)) =
    match p with
    | Some x => Ret (PromLabels x, Chunks x)
    | None => Panic "invalid memory address or nil pointer dereference"
    end.
Proof.
  intros Hp. pose proof (lookup_lt_Some _ _ _ Hp) as Hlt.
  assert (Hix : index (mkStoreSeriesSet Series s (Z.of_nat (S k) - 1)) = Ret p).
  { unfold index, len. cbn [series i].
    destruct (Z.ltb_spec (Z.of_nat (S k) - 1) 0); [lia|].
    destruct (Z.geb_spec (Z.of_nat (S k) - 1) (Z.of_nat (length s))); [lia|].
    cbn [orb]. replace (Z.to_nat (Z.of_nat (S k) - 1)) with k by lia.
    rewrite Hp. reflexivity. }
  split; [exact Hix|]. unfold At. rewrite Hix. destruct p; reflexivity.
Qed.

(** C10, as the code has it: on [newStoreSeriesSet s], the first [length s]
    calls of [Next] return true and every later call returns false; after
    [n >= 1] calls the index is [min n (length s) - 1], so the indexing of
    [At] is in bounds.  [At] then returns the labels and chunks of that
    element when the pointer is non-nil, and panics on the nil pointer
    dereference when it is nil.  [Err] is nil; [At] before the first [Next]
    indexes at -1 and panics. *)
Theorem storeSeriesSet_iterates (s : list (option Series)) (n : nat) :
  let it := newStoreSeriesSet s in
  let after := snd (run_next n it) in
  fst (run_next n it) =
    replicate (n `min` length s) true ++ replicate (n - length s) false /\
  series after = s /\
  i after = Z.of_nat (n `min` length s) - 1 /\
  (forall p, (0 < n)%nat -> s !! (n `min` length s - 1)%nat = Some p ->
             index after = Ret p /\
             At PromLabels Chunks after =
               match p with
               | Some x => Ret (PromLabels x, Chunks x)
               | None => Panic "invalid memory address or nil pointer dereference"
               end) /\
  Err after = None /\
  At PromLabels Chunks it = Panic "index out of range".
Proof.
  intros it after. subst after it. unfold newStoreSeriesSet.
  change (-1) with (Z.of_nat 0 - 1).
  rewrite (run_next_from s n 0) by lia.
  rewrite Nat.sub_0_r. cbn [fst snd series i plus].
  split; [reflexivity|]. split; [reflexivity|]. split; [reflexivity|].
  split; [|split; reflexivity].
  intros p Hn Hp.
  pose proof (lookup_lt_Some _ _ _ Hp) as Hlt.
  replace (Z.of_nat (n `min` length s) - 1)
    with (Z.of_nat (S (n `min` length s - 1)) - 1) by lia.
  apply (At_positioned s _ p Hp).
Qed.

End QuerierSeriesSet.

(** C10, as stated, fails on a list that holds a nil pointer: the first
    [Next] returns true and [At] then panics instead of returning labels
    and chunks. *)
Lemma At_nil_series_counterexample :
  let s : list (option nat) := [None] in
  let after := snd (Querier.run_next 1 (Querier.newStoreSeriesSet s)) in
  fst (Querier.run_next 1 (Querier.newStoreSeriesSet s)) = [true] /\
  Querier.i after = 0 /\
  Querier.At (fun x => x) (fun x => [x]) after =
    Panic "invalid memory address or nil pointer dereference" /\
  ~ exists r, Querier.At (fun x => x) (fun x => [x]) after = Ret r.
Proof.
  intros s after. split; [reflexivity|]. split; [reflexivity|].
  split; [reflexivity|]. intros [r H]. discriminate H.
Qed.

Lemma storeSeriesSet_iterates_witness :
  let s := [Some 10%nat; Some 20%nat; None] in
  let after := snd (Querier.run_next 2 (Querier.newStoreSeriesSet s)) in
  (0 < 2)%nat /\ s !! (2 `min` length s - 1)%nat = Some (Some 20%nat) /\
  Querier.At (fun x => x) (fun x => [x; x]) after = Ret (20%nat, [20%nat; 20%nat]).
Proof.
  intros s after. split; [lia | split; [reflexivity|]].
  pose proof (storeSeriesSet_iterates (fun x => x) (fun x => [x; x]) s 2)
    as (_ & _ & _ & Hat & _).
  exact (proj2 (Hat (Some 20%nat) ltac:(lia) eq_refl)).
Defined.

(** ** The content-hash label *)

Section HashLabel.

Import Sha256.

Lemma length_be_bytes (n : nat) (x : Z) : length (be_bytes n x) = n.
Proof. induction n as [|n IH]; simpl; [reflexivity | by rewrite IH]. Qed.

Lemma Sum256_length (data : list byte) : length (Sum256 data) = 32%nat.
Proof.
  unfold Sum256, digest_bytes.
  rewrite length_fmap, !length_app, !length_be_bytes. reflexivity.
Qed.

Lemma hex_length (bs : list byte) : String.length (hex bs) = (2 * length bs)%nat.
Proof. induction bs as [|b bs IH]; simpl; [reflexivity | rewrite IH; lia]. Qed.

Lemma hex_byte_lower (b : byte) :
  is_lower_hex (hexdigit (byte_to_Z b / 16)) &&
  is_lower_hex (hexdigit (byte_to_Z b mod 16)) = true.
Proof. destruct b; vm_compute; reflexivity. Qed.

Lemma hex_lower (bs : list byte) : all_lower_hex (hex bs) = true.
Proof.
  induction bs as [|b bs IH]; [reflexivity|].
  cbn [hex all_lower_hex]. rewrite IH, andb_true_r.
  apply hex_byte_lower.
Qed.

(** The digests of the empty input, of "abc", and of inputs around the
    padding boundary agree with the published ones. *)
Example Sum256_empty :
  hex (Sum256 []) = "e3b0c44298fc1c149afbf4c8996fb92427ae41e4649b934ca495991b7852b855".
Proof. vm_compute. reflexivity. Qed.

Example Sum256_abc :
  hex (Sum256 [x61; x62; x63]) =
  "ba7816bf8f01cfea414140de5dae2223b00361a396177a9cb410ff61f20015ad".
Proof. vm_compute. reflexivity. Qed.

Example Sum256_a55 :
  hex (Sum256 (replicate 55 x61)) =
  "9f4390f8d30c2dd92ec9f095b65e2b9ae9b0a925a5258e241c9f1e910f734318".
Proof. vm_compute. reflexivity. Qed.

Example Sum256_a56 :
  hex (Sum256 (replicate 56 x61)) =
  "b35439a4ac6f0948b6d6f9e3c6af0f5f590ce20f1bde7090ef7970686ec6738a".
Proof. vm_compute. reflexivity. Qed.

Example Sum256_a64 :
  hex (Sum256 (replicate 64 x61)) =
  "ffe054fe7ae0cb6dc65c3af9b61d5209f439851db43d0ba5997337df154668eb".
Proof. vm_compute. reflexivity. Qed.

End HashLabel.

(** ** pkg/util/runtimeconfig *)

Section RuntimeConfigProofs.

Import RuntimeConfig.
Context {V : Type}.

Implicit Types (s : State V) (ch : chan_id) (t : list (event V)) (v : iface V).

Ltac run_go :=
  unfold bind, ret, emit, modify, gets, panic; cbn [final].

(** *** Histories *)

Lemma closes_app ch t1 t2 :
  closes ch (t1 ++ t2) = (closes ch t1 + closes ch t2)%nat.
Proof.
  induction t1 as [|e t1 IH]; [reflexivity|].
  destruct e; simpl; rewrite ?IH; lia.
Qed.

Lemma sends_app ch t1 t2 :
  sends ch (t1 ++ t2) = sends ch t1 ++ sends ch t2.
Proof.
  induction t1 as [|e t1 IH]; [reflexivity|].
  destruct e; simpl; rewrite ?IH; try reflexivity.
  destruct (decide (ch0 = ch)); simpl; congruence.
Qed.

Lemma closes_publish ch chs v cs : closes ch (publish_events chs v cs) = O.
Proof.
  induction chs as [|c chs IH]; [reflexivity|].
  unfold publish_events in *. rewrite fmap_cons.
  destruct (cs !! c) as [x|]; [destruct (ready x)|]; simpl; exact IH.
Qed.

Lemma sends_publish_notin ch chs v cs :
  ch ∉ chs -> sends ch (publish_events chs v cs) = [].
Proof.
  induction chs as [|c chs IH]; [reflexivity|].
  intros Hn. apply not_elem_of_cons in Hn as [Hne Hn].
  unfold publish_events in *. rewrite fmap_cons.
  destruct (cs !! c) as [x|]; [destruct (ready x)|]; simpl; auto.
  destruct (decide (c = ch)); [congruence | auto].
Qed.

Lemma sends_publish_in ch chs v cs c :
  NoDup chs -> ch ∈ chs -> cs !! ch = Some c ->
  sends ch (publish_events chs v cs) = if ready c then [v] else [].
Proof.
  induction chs as [|c0 chs IH]; intros Hnd Hin Hc.
  - apply elem_of_nil in Hin. contradiction.
  - apply NoDup_cons in Hnd as [Hfresh Hnd].
    unfold publish_events in *. rewrite fmap_cons.
    destruct (decide (c0 = ch)) as [->|Hne].
    + rewrite Hc.
      pose proof (sends_publish_notin ch chs v cs Hfresh) as Hrest.
      unfold publish_events in Hrest.
      destruct (ready c); simpl; rewrite ?Hrest; [|reflexivity].
      destruct (decide (ch = ch)); [reflexivity | congruence].
    + apply elem_of_cons in Hin as [->|Hin]; [congruence|].
      specialize (IH Hnd Hin Hc).
      destruct (cs !! c0) as [x|]; [destruct (ready x)|]; simpl; auto.
      destruct (decide (c0 = ch)); [congruence | auto].
Qed.

Lemma closes_fmap_close_notin ch (chs : list chan_id) :
  ch ∉ chs -> closes (V := V) ch (EvClose <$> chs) = O.
Proof.
  induction chs as [|c chs IH]; [reflexivity|].
  intros Hn. apply not_elem_of_cons in Hn as [Hne Hn].
  rewrite fmap_cons. simpl. destruct (decide (c = ch)); [congruence|].
  rewrite IH by assumption. reflexivity.
Qed.

Lemma closes_fmap_close_in ch (chs : list chan_id) :
  NoDup chs -> ch ∈ chs -> closes (V := V) ch (EvClose <$> chs) = 1%nat.
Proof.
  induction chs as [|c chs IH]; intros Hnd Hin.
  - apply elem_of_nil in Hin. contradiction.
  - apply NoDup_cons in Hnd as [Hfresh Hnd]. rewrite fmap_cons. simpl.
    destruct (decide (c = ch)) as [->|Hne].
    + rewrite closes_fmap_close_notin by assumption. reflexivity.
    + apply elem_of_cons in Hin as [->|Hin]; [congruence|].
      rewrite IH by assumption. reflexivity.
Qed.

Lemma sends_fmap_close ch (chs : list chan_id) :
  sends (V := V) ch (EvClose <$> chs) = [].
Proof. induction chs as [|c chs IH]; [reflexivity | rewrite fmap_cons; exact IH]. Qed.

(** *** The registry invariant only reads the registry, the closed flags
    and the closes of the log *)

Lemma wf_frame s s' :
  wf s ->
  listeners s' = listeners s ->
  closed <$> chans s' = closed <$> chans s ->
  (forall ch, closes ch (trace s') = closes ch (trace s)) ->
  wf s'.
Proof.
  intros [Hnd Hopen Hcl] Hl Hc Ht. constructor.
  - rewrite Hl. exact Hnd.
  - intros ch. rewrite Hl, Hc. apply Hopen.
  - intros ch. rewrite Ht, Hc. apply Hcl.
Qed.

Lemma quiet_refl ch s : quiet ch s s.
Proof. split; reflexivity. Qed.

Lemma quiet_trans ch s1 s2 s3 : quiet ch s1 s2 -> quiet ch s2 s3 -> quiet ch s1 s3.
Proof. intros [A B] [C D]. split; congruence. Qed.

Lemma wf_dead_not_listener s ch : wf s -> dead s ch -> ch ∉ listeners s.
Proof.
  intros Hwf Hd Hin. apply (wf_open Hwf) in Hin.
  unfold dead in Hd. congruence.
Qed.

(** *** Building blocks that keep the invariant *)

Lemma preserves_ret {A} (a : A) : preserves (V := V) (ret a).
Proof. intros s Hwf. split; [exact Hwf|]. intros ch Hd. split; [exact Hd | apply quiet_refl]. Qed.

Lemma preserves_panic {A} msg : preserves (V := V) (A := A) (panic msg).
Proof. intros s Hwf. split; [exact Hwf|]. intros ch Hd. split; [exact Hd | apply quiet_refl]. Qed.

Lemma preserves_bind {A B} (m : M V A) (k : A -> M V B) :
  preserves m -> (forall a, preserves (k a)) -> preserves (bind m k).
Proof.
  intros Hm Hk s Hwf. unfold bind.
  destruct (Hm s Hwf) as [Hwf1 Hd1].
  destruct (m s) as [a s1|msg s1]; cbn [final] in *.
  - destruct (Hk a s1 Hwf1) as [Hwf2 Hd2]. split; [exact Hwf2|].
    intros ch Hd. destruct (Hd1 ch Hd) as [Hd' Hq1].
    destruct (Hd2 ch Hd') as [Hd'' Hq2].
    split; [exact Hd'' | eapply quiet_trans; eassumption].
  - split; assumption.
Qed.

Lemma preserves_gets {A} (f : State V -> A) : preserves (gets f).
Proof. intros s Hwf. split; [exact Hwf|]. intros ch Hd. split; [exact Hd | apply quiet_refl]. Qed.

Lemma preserves_gets_bind {A B} (f : State V -> A) (k : A -> M V B) :
  (forall a, preserves (k a)) -> preserves (bind (gets f) k).
Proof. intros Hk. apply preserves_bind; [apply preserves_gets | exact Hk]. Qed.

(** A state change that keeps the registry, the heap and the log. *)
Lemma preserves_modify (f : State V -> State V) :
  (forall s, listeners (f s) = listeners s /\ chans (f s) = chans s /\ trace (f s) = trace s) ->
  preserves (modify f).
Proof.
  intros Hf s Hwf. destruct (Hf s) as (Hl & Hc & Ht). unfold modify; cbn [final].
  split.
  - apply (wf_frame s); [exact Hwf | exact Hl | by rewrite Hc | by intros; rewrite Ht].
  - intros ch Hd. split.
    + unfold dead. rewrite Hc. exact Hd.
    + split; rewrite Ht; reflexivity.
Qed.

Lemma preserves_emit (e : event V) : silent e = true -> preserves (emit e).
Proof.
  intros He s Hwf. unfold emit, modify; cbn [final].
  assert (Hc : forall ch, closes ch (trace s ++ [e]) = closes ch (trace s)).
  { intros ch. rewrite closes_app. destruct e; simpl in *; try lia; discriminate. }
  assert (Hs : forall ch, sends ch (trace s ++ [e]) = sends ch (trace s)).
  { intros ch. rewrite sends_app. destruct e; simpl in *;
      rewrite ?app_nil_r; try reflexivity; discriminate. }
  split.
  - apply (wf_frame s); [exact Hwf | reflexivity | reflexivity | exact Hc].
  - intros ch Hd. split; [exact Hd|]. split; [apply Hs | apply Hc].
Qed.

Lemma fmap_insert_same {A B} (f : A -> B) (l : list A) (n : nat) (x y : A) :
  l !! n = Some x -> f y = f x -> f <$> <[n := y]> l = f <$> l.
Proof.
  intros Hx Hf. rewrite list_fmap_insert, Hf.
  apply list_insert_id. rewrite list_lookup_fmap, Hx. reflexivity.
Qed.

Lemma closed_deliver v (c : Chan V) : closed (deliver v c) = closed c.
Proof. unfold deliver. destruct (0 <? recvq c)%nat; reflexivity. Qed.

Lemma preserves_try_send ch v : preserves (try_send ch v).
Proof.
  intros s Hwf. unfold try_send.
  destruct (chans s !! ch) as [c|] eqn:Hc.
  - destruct (closed c) eqn:Hcl.
    { cbn [final]. split; [exact Hwf|]. intros ch' Hd. split; [exact Hd | apply quiet_refl]. }
    destruct (ready c).
    + run_go. split.
      * apply (wf_frame s); [exact Hwf | reflexivity | |].
        -- cbn. apply (fmap_insert_same closed _ _ c); [exact Hc | apply closed_deliver].
        -- intros ch'. cbn. rewrite closes_app. simpl. lia.
      * intros ch' Hd.
        assert (ch <> ch') as Hne.
        { intros ->. unfold dead in Hd. rewrite list_lookup_fmap, Hc in Hd.
          simpl in Hd. congruence. }
        split.
        -- unfold dead. cbn.
           rewrite (fmap_insert_same closed _ _ c); [exact Hd | exact Hc | apply closed_deliver].
        -- split; cbn.
           ++ rewrite sends_app. simpl. destruct (decide (ch = ch')); [congruence|].
              apply app_nil_r.
           ++ rewrite closes_app. simpl. lia.
    + apply (preserves_bind _ _ (preserves_emit (EvDrop ch v) eq_refl)
               (fun _ => preserves_ret false) s Hwf).
  - apply (preserves_bind _ _ (preserves_emit (EvDrop ch v) eq_refl)
             (fun _ => preserves_ret false) s Hwf).
Qed.

Lemma preserves_recv ch : preserves (V := V) (recv ch).
Proof.
  intros s Hwf. unfold recv.
  assert (Hsame : forall c', chans s !! ch = Some c' ->
            forall c'' : Chan V, closed c'' = closed c' ->
            let s' := set_chans (<[ch := c'']> (chans s)) s in
            wf s' /\ forall ch', dead s ch' -> dead s' ch' /\ quiet ch' s s').
  { intros c' Hc c'' Heq s'. subst s'. split.
    - apply (wf_frame s); [exact Hwf | reflexivity | | reflexivity].
      cbn. apply (fmap_insert_same closed _ _ c'); assumption.
    - intros ch' Hd. split; [|split; reflexivity].
      unfold dead. cbn. rewrite (fmap_insert_same closed _ _ c'); assumption. }
  destruct (chans s !! ch) as [c|] eqn:Hc.
  - destruct (buf c) as [|x rest].
    + destruct (closed c) eqn:Hcl; cbn [final].
      * split; [exact Hwf|]. intros ch' Hd. split; [exact Hd | apply quiet_refl].
      * apply (Hsame c eq_refl). cbn. congruence.
    + cbn [final]. apply (Hsame c eq_refl). reflexivity.
  - cbn [final]. split; [exact Hwf|]. intros ch' Hd. split; [exact Hd | apply quiet_refl].
Qed.

Lemma preserves_send_each chs v : preserves (send_each chs v).
Proof.
  induction chs as [|ch chs IH]; cbn [send_each].
  - apply preserves_ret.
  - apply preserves_bind; [apply preserves_try_send | intros _; exact IH].
Qed.

Lemma preserves_callListeners v : preserves (callListeners v).
Proof.
  unfold callListeners. apply preserves_gets_bind. intros chs. apply preserves_send_each.
Qed.

Ltac preserves_step :=
  first
    [ apply preserves_ret
    | apply preserves_panic
    | apply preserves_callListeners
    | apply preserves_emit; reflexivity
    | apply preserves_modify; intros; repeat split; reflexivity
    | apply preserves_gets_bind; intros
    | apply preserves_bind; [|intros] ].

Lemma preserves_set_success g : preserves (V := V) (set_success g).
Proof. unfold set_success. repeat preserves_step. Qed.

Lemma preserves_setConfig (c : iface V) : preserves (setConfig c).
Proof. unfold setConfig. repeat preserves_step. Qed.

Lemma preserves_hash_Reset : preserves (V := V) hash_Reset.
Proof. unfold hash_Reset. repeat preserves_step. Qed.

Lemma preserves_hash_Set label g : preserves (V := V) (hash_Set label g).
Proof. unfold hash_Set. repeat preserves_step. Qed.

Lemma preserves_loadConfigFromBucket io : preserves (V := V) (loadConfigFromBucket io).
Proof.
  unfold loadConfigFromBucket. apply preserves_gets_bind. intros [b|]; [|apply preserves_panic].
  apply preserves_gets_bind. intros path.
  apply preserves_bind; [apply preserves_emit; reflexivity|]. intros _.
  destruct (get_err io); [apply preserves_ret|].
  destruct (read_err io); apply preserves_ret.
Qed.

Lemma preserves_loadConfig io : preserves (V := V) (loadConfig io).
Proof.
  unfold loadConfig. apply preserves_bind; [apply preserves_loadConfigFromBucket|].
  intros [data err]. cbn [fst snd]. destruct err as [e|].
  - apply preserves_bind; [apply preserves_set_success | intros; apply preserves_ret].
  - apply preserves_gets_bind. intros load.
    apply preserves_bind; [apply preserves_emit; reflexivity|]. intros _.
    cbv zeta. destruct (snd (load data)).
    + apply preserves_bind; [apply preserves_set_success | intros; apply preserves_ret].
    + apply preserves_bind; [apply preserves_set_success|]. intros _.
      apply preserves_bind; [apply preserves_setConfig|]. intros _.
      apply preserves_bind; [apply preserves_callListeners|]. intros _.
      apply preserves_bind; [apply preserves_hash_Reset|]. intros _.
      apply preserves_bind; [apply preserves_hash_Set|]. intros _.
      apply preserves_ret.
Qed.

Lemma preserves_starting io : preserves (V := V) (starting io).
Proof.
  unfold starting. apply preserves_gets_bind. intros path.
  destruct (decide (path = "")); [apply preserves_ret|].
  apply preserves_gets_bind. intros factory.
  apply preserves_bind; [apply preserves_emit; reflexivity|]. intros _.
  apply preserves_bind; [apply preserves_modify; intros; repeat split; reflexivity|]. intros _.
  destruct (snd (factory ())); [apply preserves_ret|].
  apply preserves_bind; [apply preserves_loadConfig | intros; apply preserves_ret].
Qed.

Lemma preserves_loop_from evs : preserves (V := V) (loop_from evs).
Proof.
  induction evs as [|[io|] evs IH]; cbn [loop_from]; try apply preserves_ret.
  apply preserves_bind; [apply preserves_loadConfig|]. intros err.
  apply preserves_bind; [|intros _; exact IH].
  destruct err as [e|]; [|apply preserves_ret].
  unfold log_error. apply preserves_emit. reflexivity.
Qed.

Lemma preserves_loop evs : preserves (V := V) (loop evs).
Proof.
  unfold loop. apply preserves_gets_bind. intros c.
  destruct (decide (LoadPath c = "")).
  - apply preserves_bind; [apply preserves_emit; reflexivity | intros; apply preserves_ret].
  - destruct (ReloadPeriod c <=? 0); [apply preserves_panic | apply preserves_loop_from].
Qed.

Lemma preserves_GetConfig : preserves (V := V) GetConfig.
Proof. apply preserves_gets. Qed.

(** *** Subscribe *)

Lemma wf_listener_lt s ch : wf s -> ch ∈ listeners s -> (ch < length (chans s))%nat.
Proof.
  intros Hwf Hin. apply (wf_open Hwf) in Hin.
  apply lookup_lt_Some in Hin. rewrite length_fmap in Hin. exact Hin.
Qed.

Lemma wf_closes_fresh s ch : wf s -> (length (chans s) <= ch)%nat -> closes ch (trace s) = O.
Proof.
  intros Hwf Hge. rewrite (wf_closes Hwf).
  rewrite lookup_ge_None_2; [reflexivity | by rewrite length_fmap].
Qed.

Lemma size_out_of_range_spec (size : Z) :
  size_out_of_range size = false <-> 0 <= size <= max_buffer.
Proof.
  unfold size_out_of_range, maxAlloc, hchanSize, elem_size, max_buffer.
  rewrite orb_false_iff, !Z.ltb_ge. lia.
Qed.

Lemma CreateListenerChannel_panics s buffer :
  size_out_of_range buffer = true ->
  CreateListenerChannel buffer s = Crashed "makechan: size out of range" s.
Proof.
  intros Hb. unfold CreateListenerChannel, make_chan, bind. rewrite Hb. reflexivity.
Qed.

Lemma CreateListenerChannel_spec s buffer :
  size_out_of_range buffer = false ->
  CreateListenerChannel buffer s =
  Done (length (chans s))
       (set_listeners (listeners s ++ [length (chans s)])
          (set_chans (chans s ++ [mkChan (Z.to_nat buffer) [] false 0 []]) s)).
Proof.
  intros Hb. unfold CreateListenerChannel, make_chan, bind. rewrite Hb. reflexivity.
Qed.

Lemma preserves_CreateListenerChannel buffer : preserves (V := V) (CreateListenerChannel buffer).
Proof.
  intros s Hwf.
  destruct (size_out_of_range buffer) eqn:Hsz.
  - rewrite (CreateListenerChannel_panics s buffer Hsz). cbn [final].
    split; [exact Hwf|]. intros ch Hd. split; [exact Hd | apply quiet_refl].
  - rewrite CreateListenerChannel_spec by assumption. cbn [final].
    set (n := length (chans s)).
    assert (Hlen : length (closed <$> chans s) = n) by apply length_fmap.
    split.
    + constructor; cbn.
      * apply NoDup_app. split; [apply (wf_nodup Hwf)|]. split; [|apply NoDup_singleton].
        intros ch Hin Hn. apply list_elem_of_singleton in Hn. subst ch.
        pose proof (wf_listener_lt s n Hwf Hin). lia.
      * intros ch. rewrite elem_of_app, list_elem_of_singleton, fmap_app. cbn.
        destruct (decide (ch < n)%nat) as [Hlt|Hge].
        -- rewrite lookup_app_l by lia. rewrite <- (wf_open Hwf ch).
           split; [intros [H|H]; [exact H | lia] | auto].
        -- rewrite lookup_app_r by lia. rewrite Hlen. split.
           ++ intros [Hin| ->].
              ** pose proof (wf_listener_lt s ch Hwf Hin). lia.
              ** rewrite Nat.sub_diag. reflexivity.
           ++ intros Hl. right.
              destruct (ch - n)%nat as [|k] eqn:Hk; [lia | discriminate].
      * intros ch. rewrite fmap_app. cbn.
        destruct (decide (ch < n)%nat) as [Hlt|Hge].
        -- rewrite lookup_app_l by lia. apply (wf_closes Hwf).
        -- rewrite lookup_app_r by lia. rewrite Hlen.
           rewrite (wf_closes_fresh s ch Hwf) by (fold n; lia).
           destruct (ch - n)%nat as [|k]; reflexivity.
    + intros ch Hd. split; [|split; reflexivity].
      unfold dead in *. cbn. rewrite fmap_app.
      rewrite lookup_app_l; [exact Hd|]. apply lookup_lt_Some in Hd. exact Hd.
Qed.

(** *** Unsubscribe *)

Lemma index_of_None (l : chan_id) (chs : list chan_id) :
  index_of l chs = None <-> l ∉ chs.
Proof.
  induction chs as [|c chs IH]; simpl.
  - split; [intros _; apply not_elem_of_nil | reflexivity].
  - destruct (decide (c = l)) as [->|Hne].
    + split; [discriminate | intros H; exfalso; apply H; left].
    + rewrite not_elem_of_cons. destruct (index_of l chs); simpl.
      * split; [discriminate | intros [_ H]; apply IH in H; discriminate].
      * split; [intros _; split; [congruence | by apply IH] | reflexivity].
Qed.

Lemma index_of_Some (l : chan_id) (chs : list chan_id) (ix : nat) :
  index_of l chs = Some ix -> chs !! ix = Some l.
Proof.
  revert ix. induction chs as [|c chs IH]; simpl; intros ix H; [discriminate|].
  destruct (decide (c = l)) as [->|Hne].
  - injection H as <-. reflexivity.
  - destruct (index_of l chs) as [k|]; simpl in H; [|discriminate].
    injection H as <-. simpl. apply IH. reflexivity.
Qed.

Lemma NoDup_remove_middle (A B : list chan_id) (l : chan_id) :
  NoDup (A ++ l :: B) ->
  NoDup (A ++ B) /\ forall ch, ch ∈ A ++ B <-> ch ∈ A ++ l :: B /\ ch <> l.
Proof.
  rewrite NoDup_app, NoDup_cons. intros (HA & Hdisj & HlB & HB). split.
  - apply NoDup_app. split; [exact HA|]. split; [|exact HB].
    intros x Hx HxB. apply (Hdisj x Hx). right. exact HxB.
  - intros ch. rewrite !elem_of_app, elem_of_cons. split.
    + intros [Hin|Hin].
      * split; [left; exact Hin|]. intros ->. apply (Hdisj l Hin). left.
      * split; [right; right; exact Hin|]. intros ->. contradiction.
    + intros [[Hin|[->|Hin]] Hne]; [left; exact Hin | congruence | right; exact Hin].
Qed.

Lemma remove_at_spec (chs : list chan_id) (ix : nat) (l : chan_id) :
  NoDup chs -> chs !! ix = Some l ->
  NoDup (take ix chs ++ drop (S ix) chs) /\
  forall ch, ch ∈ take ix chs ++ drop (S ix) chs <-> ch ∈ chs /\ ch <> l.
Proof.
  intros Hnd Hl. pose proof (take_drop_middle chs ix l Hl) as Heq.
  rewrite <- Heq in Hnd. apply NoDup_remove_middle in Hnd as [Hnd Hmem].
  split; [exact Hnd|]. intros ch. rewrite (Hmem ch), Heq. reflexivity.
Qed.

Lemma wf_listener_chan s ch :
  wf s -> ch ∈ listeners s -> exists c, chans s !! ch = Some c /\ closed c = false.
Proof.
  intros Hwf Hin. apply (wf_open Hwf) in Hin.
  rewrite list_lookup_fmap in Hin.
  destruct (chans s !! ch) as [c|]; [|discriminate].
  exists c. split; [reflexivity|]. simpl in Hin. congruence.
Qed.

Lemma CloseListenerChannel_absent s (l : chan_id) :
  l ∉ listeners s -> CloseListenerChannel l s = Done () s.
Proof.
  intros Hn. apply index_of_None in Hn.
  unfold CloseListenerChannel, bind, gets. rewrite Hn. reflexivity.
Qed.

Lemma CloseListenerChannel_present s (l : chan_id) :
  wf s -> l ∈ listeners s ->
  exists ix c,
    listeners s !! ix = Some l /\ chans s !! l = Some c /\ closed c = false /\
    CloseListenerChannel l s =
    Done () (set_trace (trace s ++ [EvClose l])
              (set_chans (<[l := shut c]> (chans s))
                (set_listeners (take ix (listeners s) ++ drop (S ix) (listeners s)) s))).
Proof.
  intros Hwf Hin.
  destruct (wf_listener_chan s l Hwf Hin) as (c & Hc & Hcl).
  destruct (index_of l (listeners s)) as [ix|] eqn:Hix.
  2:{ apply index_of_None in Hix. contradiction. }
  exists ix, c. repeat split; [by apply index_of_Some | exact Hc | exact Hcl |].
  unfold CloseListenerChannel, bind, gets. rewrite Hix.
  unfold modify, close_chan. cbn [chans set_listeners]. rewrite Hc, Hcl.
  reflexivity.
Qed.

Lemma preserves_CloseListenerChannel (l : chan_id) :
  preserves (V := V) (CloseListenerChannel l).
Proof.
  intros s Hwf. destruct (decide (l ∈ listeners s)) as [Hin|Hn].
  2:{ rewrite CloseListenerChannel_absent by assumption. cbn [final].
      split; [exact Hwf|]. intros ch Hd. split; [exact Hd | apply quiet_refl]. }
  destruct (CloseListenerChannel_present s l Hwf Hin) as (ix & c & Hix & Hc & Hcl & ->).
  cbn [final].
  destruct (remove_at_spec _ ix l (wf_nodup Hwf) Hix) as [Hnd Hmem].
  pose proof (lookup_lt_Some _ _ _ Hc) as Hlt.
  split.
  - constructor; cbn.
    + exact Hnd.
    + intros ch. rewrite Hmem, list_fmap_insert. cbn.
      destruct (decide (ch = l)) as [->|Hne].
      * rewrite list_lookup_insert_eq by (by rewrite length_fmap).
        split; [intros [_ H]; congruence | discriminate].
      * rewrite list_lookup_insert_ne by congruence.
        rewrite <- (wf_open Hwf ch). tauto.
    + intros ch. rewrite closes_app, list_fmap_insert. cbn.
      destruct (decide (l = ch)) as [<-|Hne].
      * rewrite list_lookup_insert_eq by (by rewrite length_fmap).
        rewrite (wf_closes Hwf l), list_lookup_fmap, Hc. cbn. rewrite Hcl. reflexivity.
      * rewrite list_lookup_insert_ne by congruence.
        rewrite (wf_closes Hwf ch). lia.
  - intros ch Hd.
    assert (l <> ch) as Hne.
    { intros ->. unfold dead in Hd. rewrite list_lookup_fmap, Hc in Hd.
      simpl in Hd. congruence. }
    split.
    + unfold dead in *. cbn. rewrite list_fmap_insert.
      rewrite list_lookup_insert_ne by congruence. exact Hd.
    + split; cbn.
      * rewrite sends_app. apply app_nil_r.
      * rewrite closes_app. simpl. destruct (decide (l = ch)); [congruence | lia].
Qed.

(** *** Shutdown *)

Lemma close_each_spec (chs : list chan_id) s :
  NoDup chs ->
  (forall ch, ch ∈ chs -> exists c, chans s !! ch = Some c /\ closed c = false) ->
  exists cs',
    close_each chs s =
      Done () (set_trace (trace s ++ (EvClose <$> chs)) (set_chans cs' s)) /\
    forall ch, cs' !! ch =
      if decide (ch ∈ chs) then shut <$> chans s !! ch else chans s !! ch.
Proof.
  revert s. induction chs as [|ch chs IH]; intros s Hnd Hopen.
  - exists (chans s). split.
    + cbn. rewrite app_nil_r. destruct s; reflexivity.
    + intros ch. destruct (decide (ch ∈ [])) as [H|_]; [|reflexivity].
      apply elem_of_nil in H. contradiction.
  - apply NoDup_cons in Hnd as [Hfresh Hnd].
    destruct (Hopen ch) as (c & Hc & Hcl); [left|].
    set (s1 := set_trace (trace s ++ [EvClose ch])
                 (set_chans (<[ch := shut c]> (chans s)) s)).
    assert (Hstep : close_chan ch s = Done () s1).
    { unfold close_chan. rewrite Hc, Hcl. reflexivity. }
    assert (Hother : forall x, x <> ch -> chans s1 !! x = chans s !! x).
    { intros x Hx. cbn. apply list_lookup_insert_ne. congruence. }
    destruct (IH s1 Hnd) as (cs' & Hrun & Hlook).
    { intros x Hx. rewrite Hother; [apply Hopen; right; exact Hx|].
      intros ->. contradiction. }
    exists cs'. split.
    + cbn [close_each]. unfold bind at 1. rewrite Hstep, Hrun.
      unfold s1, set_trace, set_chans. cbn. rewrite <- app_assoc. reflexivity.
    + intros x. rewrite Hlook.
      destruct (decide (x = ch)) as [->|Hne].
      * destruct (decide (ch ∈ chs)); [contradiction|].
        destruct (decide (ch ∈ ch :: chs)) as [_|H]; [|exfalso; apply H; left].
        cbn. rewrite Hc. apply list_lookup_insert_eq. by eapply lookup_lt_Some.
      * rewrite Hother by assumption.
        destruct (decide (x ∈ chs)) as [Hin|Hn];
          destruct (decide (x ∈ ch :: chs)) as [Hin'|Hn']; try reflexivity.
        -- exfalso. apply Hn'. right. exact Hin.
        -- apply elem_of_cons in Hin' as [->|Hin']; [congruence | contradiction].
Qed.

Lemma stopping_spec s (err : error) :
  wf s ->
  exists cs',
    stopping err s =
      Done None (set_listeners []
        (set_trace (trace s ++ (EvClose <$> listeners s)) (set_chans cs' s))) /\
    forall ch, cs' !! ch =
      if decide (ch ∈ listeners s) then shut <$> chans s !! ch else chans s !! ch.
Proof.
  intros Hwf.
  destruct (close_each_spec (listeners s) s (wf_nodup Hwf)) as (cs' & Hrun & Hlook).
  { intros ch Hin. by apply wf_listener_chan. }
  exists cs'. split; [|exact Hlook].
  unfold stopping, bind, gets. rewrite Hrun. reflexivity.
Qed.

Lemma preserves_stopping (err : error) : preserves (V := V) (stopping err).
Proof.
  intros s Hwf. destruct (stopping_spec s err Hwf) as (cs' & -> & Hlook).
  cbn [final].
  assert (Hcl : forall ch, (closed <$> cs') !! ch =
            if decide (ch ∈ listeners s) then Some true else (closed <$> chans s) !! ch).
  { intros ch. rewrite list_lookup_fmap, Hlook.
    destruct (decide (ch ∈ listeners s)) as [Hin|Hn].
    - destruct (wf_listener_chan s ch Hwf Hin) as (c & -> & _). reflexivity.
    - by rewrite list_lookup_fmap. }
  split.
  - constructor; cbn.
    + apply NoDup_nil_2.
    + intros ch. rewrite Hcl. split; [intros H; apply elem_of_nil in H; contradiction|].
      destruct (decide (ch ∈ listeners s)) as [Hin|Hn]; [discriminate|].
      intros H. apply (wf_open Hwf) in H. contradiction.
    + intros ch. rewrite closes_app, Hcl, (wf_closes Hwf ch).
      destruct (decide (ch ∈ listeners s)) as [Hin|Hn].
      * rewrite closes_fmap_close_in by (apply (wf_nodup Hwf) || assumption).
        apply (wf_open Hwf) in Hin. rewrite Hin. reflexivity.
      * rewrite closes_fmap_close_notin by assumption. lia.
  - intros ch Hd. pose proof (wf_dead_not_listener s ch Hwf Hd) as Hn. split.
    + unfold dead. cbn. rewrite Hcl. destruct (decide (ch ∈ listeners s)); [contradiction|].
      exact Hd.
    + split; cbn.
      * rewrite sends_app, sends_fmap_close. apply app_nil_r.
      * rewrite closes_app, closes_fmap_close_notin by assumption. lia.
Qed.

(** *** Every history keeps the invariant *)

Lemma preserves_exec (o : op) : preserves (V := V) (exec o).
Proof.
  destruct o; cbn [exec].
  - apply preserves_bind; [apply preserves_starting | intros; apply preserves_ret].
  - apply preserves_bind; [apply preserves_loop | intros; apply preserves_ret].
  - apply preserves_bind; [apply preserves_loadConfig | intros; apply preserves_ret].
  - apply preserves_bind; [apply preserves_CreateListenerChannel | intros; apply preserves_ret].
  - apply preserves_CloseListenerChannel.
  - apply preserves_bind; [apply preserves_GetConfig | intros; apply preserves_ret].
  - apply preserves_recv.
  - apply preserves_bind; [apply preserves_stopping | intros; apply preserves_ret].
Qed.

Lemma preserves_run (ops : list op) : preserves (V := V) (run ops).
Proof.
  induction ops as [|o ops IH]; cbn [run].
  - apply preserves_ret.
  - apply preserves_bind; [apply preserves_exec | intros _; exact IH].
Qed.

Lemma wf_New (fs : string) (c : Config V) (factory : BucketClientFactory) s :
  New fs c factory = (Some s, None) -> wf s.
Proof.
  unfold New. destruct (decide (LoadPath c = "")); [discriminate|].
  intros H. injection H as <-. constructor; cbn.
  - apply NoDup_nil_2.
  - intros ch. split; [intros H; apply elem_of_nil in H; contradiction | discriminate].
  - reflexivity.
Qed.

Lemma wf_run (ops : list op) s : wf s -> wf (final (run ops s)).
Proof. intros Hwf. apply (preserves_run ops s Hwf). Qed.

(** Every state a manager built by [New] can reach satisfies the invariant. *)
Lemma wf_reachable (fs : string) (c : Config V) (factory : BucketClientFactory)
    (s0 : State V) (ops : list op) :
  New fs c factory = (Some s0, None) -> wf (final (run ops s0)).
Proof. intros H. apply wf_run, (wf_New fs c factory s0 H). Qed.

(** *** Publish *)

Lemma publish_events_ext (chs : list chan_id) v (cs cs' : list (Chan V)) :
  (forall x, x ∈ chs -> cs !! x = cs' !! x) ->
  publish_events chs v cs = publish_events chs v cs'.
Proof.
  induction chs as [|ch chs IH]; intros H; [reflexivity|].
  unfold publish_events in *. rewrite !fmap_cons.
  rewrite (H ch) by left. f_equal. apply IH. intros x Hx. apply H. right. exact Hx.
Qed.

Lemma closed_offer v (c : Chan V) : closed (offer v c) = closed c.
Proof. unfold offer. destruct (ready c); [apply closed_deliver | reflexivity]. Qed.

Lemma try_send_open ch v s (c : Chan V) :
  chans s !! ch = Some c -> closed c = false ->
  try_send ch v s =
  Done (ready c)
       (set_trace (trace s ++ [if ready c then EvSend ch v else EvDrop ch v])
          (set_chans (<[ch := offer v c]> (chans s)) s)).
Proof.
  intros Hc Hcl. unfold try_send, offer. rewrite Hc, Hcl.
  destruct (ready c); [reflexivity|].
  rewrite list_insert_id by exact Hc. destruct s; reflexivity.
Qed.

Lemma send_each_spec (chs : list chan_id) v s :
  NoDup chs ->
  (forall ch, ch ∈ chs -> exists c, chans s !! ch = Some c /\ closed c = false) ->
  exists cs',
    send_each chs v s =
      Done () (set_trace (trace s ++ publish_events chs v (chans s)) (set_chans cs' s)) /\
    forall ch, cs' !! ch =
      if decide (ch ∈ chs) then offer v <$> chans s !! ch else chans s !! ch.
Proof.
  revert s. induction chs as [|ch chs IH]; intros s Hnd Hopen.
  - exists (chans s). split.
    + cbn. rewrite app_nil_r. destruct s; reflexivity.
    + intros ch. destruct (decide (ch ∈ [])) as [H|_]; [|reflexivity].
      apply elem_of_nil in H. contradiction.
  - apply NoDup_cons in Hnd as [Hfresh Hnd].
    destruct (Hopen ch) as (c & Hc & Hcl); [left|].
    pose proof (try_send_open ch v s c Hc Hcl) as Hstep.
    set (s1 := set_trace _ _) in Hstep.
    assert (Hother : forall x, x <> ch -> chans s1 !! x = chans s !! x).
    { intros x Hx. cbn. apply list_lookup_insert_ne. congruence. }
    destruct (IH s1 Hnd) as (cs' & Hrun & Hlook).
    { intros x Hx. rewrite Hother; [apply Hopen; right; exact Hx|].
      intros ->. contradiction. }
    exists cs'. split.
    + cbn [send_each]. unfold bind at 1. rewrite Hstep, Hrun.
      rewrite (publish_events_ext chs v (chans s1) (chans s)).
      2:{ intros x Hx. apply Hother. intros ->. contradiction. }
      unfold publish_events at 2. rewrite fmap_cons, Hc.
      unfold s1, set_trace, set_chans. cbn. rewrite <- app_assoc. reflexivity.
    + intros x. rewrite Hlook.
      destruct (decide (x = ch)) as [->|Hne].
      * destruct (decide (ch ∈ chs)); [contradiction|].
        destruct (decide (ch ∈ ch :: chs)) as [_|H]; [|exfalso; apply H; left].
        cbn. rewrite Hc. apply list_lookup_insert_eq. by eapply lookup_lt_Some.
      * rewrite Hother by assumption.
        destruct (decide (x ∈ chs)) as [Hin|Hn];
          destruct (decide (x ∈ ch :: chs)) as [Hin'|Hn']; try reflexivity.
        -- exfalso. apply Hn'. right. exact Hin.
        -- apply elem_of_cons in Hin' as [->|Hin']; [congruence | contradiction].
Qed.

Lemma callListeners_spec v s :
  wf s ->
  exists cs',
    callListeners v s =
      Done () (set_trace (trace s ++ publish_events (listeners s) v (chans s))
                 (set_chans cs' s)) /\
    forall ch, cs' !! ch =
      if decide (ch ∈ listeners s) then offer v <$> chans s !! ch else chans s !! ch.
Proof.
  intros Hwf. unfold callListeners, bind, gets.
  apply send_each_spec; [apply (wf_nodup Hwf)|].
  intros ch Hin. by apply wf_listener_chan.
Qed.

(** *** One reload cycle *)

Lemma fetch_result_fails io :
  fetch_fails io = true <-> snd (fetch_result io) <> None.
Proof.
  unfold fetch_fails, fetch_result.
  destruct (get_err io) as [e1|]; [cbn; split; [discriminate | reflexivity]|].
  destruct (read_err io) as [e2|]; [cbn; split; [discriminate | reflexivity]|].
  destruct (close_err io) as [e3|]; cbn.
  - split; [discriminate | reflexivity].
  - split; [discriminate | congruence].
Qed.

Lemma fetch_result_ok io :
  fetch_fails io = false -> fetch_result io = (read_buf io, None).
Proof.
  unfold fetch_fails, fetch_result.
  destruct (get_err io); [discriminate|].
  destruct (read_err io); [discriminate|].
  destruct (close_err io); [discriminate | reflexivity].
Qed.

Lemma loadConfigFromBucket_spec s io (b : Bucket) :
  bucketClient s = Some b ->
  loadConfigFromBucket io s =
  Done (fetch_result io) (set_trace (trace s ++ [EvGet (LoadPath (cfg s))]) s).
Proof.
  intros Hb. unfold loadConfigFromBucket, fetch_result, bind, gets. rewrite Hb.
  cbn. destruct (get_err io); [reflexivity|]. destruct (read_err io); reflexivity.
Qed.

Lemma loadConfig_nil_client s io :
  bucketClient s = None ->
  loadConfig io s = Crashed "invalid memory address or nil pointer dereference" s.
Proof.
  intros Hb. unfold loadConfig, loadConfigFromBucket, bind, gets. rewrite Hb. reflexivity.
Qed.

Lemma loadConfig_fetch_error s io (b : Bucket) e :
  bucketClient s = Some b ->
  snd (fetch_result io) = Some e ->
  loadConfig io s =
  Done (Wrap (Some e) "read file")
       (set_trace (trace s ++ [EvGet (LoadPath (cfg s)); EvSuccessGauge 0])
          (set_configLoadSuccess 0 s)).
Proof.
  intros Hb He. unfold loadConfig. unfold bind at 1.
  rewrite (loadConfigFromBucket_spec s io b Hb). cbv zeta. rewrite He.
  unfold set_success, bind, modify, emit, ret, modify. cbn.
  rewrite <- app_assoc. reflexivity.
Qed.

Lemma loadConfig_decode_error s io (b : Bucket) e :
  bucketClient s = Some b ->
  fetch_fails io = false ->
  snd (Loader (cfg s) (read_buf io)) = Some e ->
  loadConfig io s =
  Done (Wrap (Some e) "load file")
       (set_trace (trace s ++ [EvGet (LoadPath (cfg s)); EvLoader (read_buf io);
                               EvSuccessGauge 0])
          (set_configLoadSuccess 0 s)).
Proof.
  intros Hb Hf He. unfold loadConfig. unfold bind at 1.
  rewrite (loadConfigFromBucket_spec s io b Hb). cbv zeta.
  rewrite (fetch_result_ok io Hf). cbn [fst snd].
  unfold set_success, bind, gets, modify, emit, ret, modify. cbn. rewrite He.
  cbn. rewrite <- !app_assoc. reflexivity.
Qed.

Lemma loadConfig_success s io (b : Bucket) v :
  wf s ->
  bucketClient s = Some b ->
  fetch_fails io = false ->
  Loader (cfg s) (read_buf io) = (v, None) ->
  exists cs',
    loadConfig io s =
      Done None
        (mkState (cfg s) (listeners s) v 1
           {[ Sha256.hex (Sha256.Sum256 (read_buf io)) := 1 ]}
           (bucketClient s) (bucketClientFactory s) cs'
           (trace s ++
              [EvGet (LoadPath (cfg s)); EvLoader (read_buf io);
               EvSuccessGauge 1; EvSetConfig v] ++
              publish_events (listeners s) v (chans s) ++
              [EvHashReset; EvHashSet (Sha256.hex (Sha256.Sum256 (read_buf io))) 1])) /\
    forall ch, cs' !! ch =
      if decide (ch ∈ listeners s) then offer v <$> chans s !! ch else chans s !! ch.
Proof.
  intros Hwf Hb Hf Hv.
  set (s2 := set_trace (trace s ++ [EvGet (LoadPath (cfg s)); EvLoader (read_buf io);
                                    EvSuccessGauge 1; EvSetConfig v])
               (set_config v (set_configLoadSuccess 1 s))).
  assert (Hwf2 : wf s2).
  { apply (wf_frame s); [exact Hwf | reflexivity | reflexivity |].
    intros ch. cbn. rewrite closes_app. simpl. lia. }
  destruct (callListeners_spec v s2 Hwf2) as (cs' & Hcall & Hlook).
  exists cs'. split; [|exact Hlook].
  unfold loadConfig. unfold bind at 1.
  rewrite (loadConfigFromBucket_spec s io b Hb). cbv zeta.
  rewrite (fetch_result_ok io Hf). cbn [fst snd].
  unfold bind at 1. unfold gets at 1. cbn [cfg set_trace]. 
  unfold bind at 1. unfold emit at 1, modify at 1. rewrite Hv. cbn [fst snd].
  unfold bind at 1. unfold set_success at 1, bind at 1, modify at 1, emit at 1, modify at 1.
  unfold bind at 1. unfold setConfig at 1, bind at 1, modify at 1, emit at 1, modify at 1.
  cbn [trace set_trace set_config set_configLoadSuccess cfg listeners config configLoadSuccess
       configHash bucketClient bucketClientFactory chans].
  rewrite <- !app_assoc. cbn [app].
  unfold bind at 1.
  match goal with |- context [callListeners v ?x] => change x with s2 end.
  rewrite Hcall.
  unfold hash_Reset, hash_Set, bind, modify, emit, ret, modify. cbn.
  rewrite insert_empty, <- !app_assoc. reflexivity.
Qed.

(** *** The disabled manager *)

Lemma wait_done_spec (evs : list wake) :
  (CtxDone ∈ evs -> wait_done evs = Returned None) /\
  (CtxDone ∉ evs -> wait_done evs = Blocked).
Proof.
  induction evs as [|[io|] evs [IH1 IH2]]; cbn [wait_done].
  - split; [intros H; apply elem_of_nil in H; contradiction | reflexivity].
  - split.
    + intros H. apply elem_of_cons in H as [H|H]; [discriminate | auto].
    + intros H. apply IH2. intros Hin. apply H. right. exact Hin.
  - split; [reflexivity | intros H; exfalso; apply H; left].
Qed.

(** C1, as the code has it: [New] refuses an empty [LoadPath] with the error
    "LoadPath is empty" and builds no manager.  The hooks keep their own
    guard: on a manager whose path is empty, [starting] returns nil without
    calling the bucket factory or fetching and changes nothing, [GetConfig]
    returns the stored value (absent if none), and [loop] only logs that
    the runtime config is disabled, reloads on no tick, stays blocked while
    the context is live and returns nil once it is cancelled. *)
Theorem empty_LoadPath_rejected_by_New
    (fs : string) (c : Config V) (factory : BucketClientFactory)
    s (io : fetch_io) (evs : list wake) :
  LoadPath c = "" ->
  LoadPath (cfg s) = "" ->
  New fs c factory = (None, Some "LoadPath is empty") /\
  starting io s = Done None s /\
  GetConfig s = Done (config s) s /\
  loop evs s =
    Done (wait_done evs)
         (set_trace (trace s ++
            [EvLog "info" "runtime config disabled: file not specified" None]) s) /\
  config (final (loop evs s)) = config s /\
  (CtxDone ∈ evs -> wait_done evs = Returned None) /\
  (CtxDone ∉ evs -> wait_done evs = Blocked).
Proof.
  intros Hc Hs.
  assert (Hloop : loop evs s =
    Done (wait_done evs)
         (set_trace (trace s ++
            [EvLog "info" "runtime config disabled: file not specified" None]) s)).
  { unfold loop, bind, gets. destruct (decide (LoadPath (cfg s) = "")); [reflexivity | contradiction]. }
  repeat split.
  - unfold New. destruct (decide (LoadPath c = "")); [reflexivity | contradiction].
  - unfold starting, bind, gets.
    destruct (decide (LoadPath (cfg s) = "")); [reflexivity | contradiction].
  - exact Hloop.
  - rewrite Hloop. reflexivity.
  - apply wait_done_spec.
  - apply wait_done_spec.
Qed.

(** *** Failed cycles *)

Lemma loadConfig_failure s (io : fetch_io) (b : Bucket) :
  bucketClient s = Some b ->
  cycle_fails (Loader (cfg s)) io = true ->
  exists e : string,
    loadConfig io s =
    Done (Some e)
      (set_trace (trace s ++
         EvGet (LoadPath (cfg s)) ::
         (if fetch_fails io then [] else [EvLoader (read_buf io)]) ++
         [EvSuccessGauge 0])
        (set_configLoadSuccess 0 s)).
Proof.
  intros Hb Hfail. destruct (fetch_fails io) eqn:Hf.
  - destruct (snd (fetch_result io)) as [e|] eqn:He.
    + exists ("read file: " ++ e)%string.
      rewrite (loadConfig_fetch_error s io b e Hb He). reflexivity.
    + apply fetch_result_fails in Hf. contradiction.
  - unfold cycle_fails in Hfail. rewrite Hf in Hfail. cbn [orb] in Hfail.
    apply bool_decide_eq_true in Hfail.
    destruct (snd (Loader (cfg s) (read_buf io))) as [e|] eqn:He; [|contradiction].
    exists ("load file: " ++ e)%string.
    rewrite (loadConfig_decode_error s io b e Hb Hf He). reflexivity.
Qed.

(** C2: when the fetch fails or the decoder returns an error, [loadConfig]
    returns an error and only sets the success gauge to 0: the config cell,
    the registry, every channel and the hash gauge are as before, nothing is
    sent to any listener, and the run loop logs the error and goes on with
    the next wake-up. *)
Theorem failed_cycle_is_contained s (io : fetch_io) (b : Bucket) (rest : list wake) :
  bucketClient s = Some b ->
  cycle_fails (Loader (cfg s)) io = true ->
  let t := EvGet (LoadPath (cfg s)) ::
           (if fetch_fails io then [] else [EvLoader (read_buf io)]) ++
           [EvSuccessGauge 0] in
  let s' := set_trace (trace s ++ t) (set_configLoadSuccess 0 s) in
  exists e : string,
    loadConfig io s = Done (Some e) s' /\
    configLoadSuccess s' = 0 /\
    GetConfig s' = Done (config s) s' /\
    listeners s' = listeners s /\
    chans s' = chans s /\
    configHash s' = configHash s /\
    (forall ch, sends ch (trace s') = sends ch (trace s)) /\
    loop_from (Tick io :: rest) s =
      loop_from rest
        (set_trace (trace s' ++ [EvLog "error" "failed to load config" (Some e)]) s') /\
    (LoadPath (cfg s) <> "" -> 0 < ReloadPeriod (cfg s) ->
     loop (Tick io :: rest) s = loop_from (Tick io :: rest) s).
Proof.
  intros Hb Hfail t s'.
  destruct (loadConfig_failure s io b Hb Hfail) as [e Hload]. exists e.
  repeat split.
  - exact Hload.
  - intros ch. subst s' t. cbn. rewrite sends_app.
    destruct (fetch_fails io); cbn; apply app_nil_r.
  - cbn [loop_from]. unfold bind at 1. unfold bind at 1. rewrite Hload.
    unfold log_error, emit, modify, bind. reflexivity.
  - intros Hp Hr. unfold loop, bind, gets.
    destruct (decide (LoadPath (cfg s) = "")); [contradiction|].
    destruct (Z.leb_spec (ReloadPeriod (cfg s)) 0); [lia | reflexivity].
Qed.

(** *** Successful cycles *)

(** C3: when fetch and decode succeed, the cycle sets the success gauge to
    1, then stores the decoded value in the config cell, then publishes it
    to the registry, then resets the hash gauge and sets the label of the
    new content hash to 1.  The publish starts from a state whose
    [GetConfig] already returns the value, [GetConfig] still returns it
    after any number of the publish's sends, and every send of the cycle
    carries that value. *)
Theorem successful_cycle_order s (io : fetch_io) (b : Bucket) v :
  wf s ->
  bucketClient s = Some b ->
  fetch_fails io = false ->
  Loader (cfg s) (read_buf io) = (v, None) ->
  let h := Sha256.hex (Sha256.Sum256 (read_buf io)) in
  let s2 := set_trace (trace s ++ [EvGet (LoadPath (cfg s)); EvLoader (read_buf io);
                                   EvSuccessGauge 1; EvSetConfig v])
              (set_config v (set_configLoadSuccess 1 s)) in
  exists s3 s',
    GetConfig s2 = Done v s2 /\
    callListeners v s2 = Done () s3 /\
    bind hash_Reset (fun _ => hash_Set h 1) s3 = Done () s' /\
    loadConfig io s = Done None s' /\
    trace s' =
      trace s ++
      [EvGet (LoadPath (cfg s)); EvLoader (read_buf io);
       EvSuccessGauge 1; EvSetConfig v] ++
      publish_events (listeners s) v (chans s) ++
      [EvHashReset; EvHashSet h 1] /\
    Forall (fun e => exists ch, e = EvSend ch v \/ e = EvDrop ch v)
           (publish_events (listeners s) v (chans s)) /\
    (forall k : nat, exists sk,
       send_each (take k (listeners s)) v s2 = Done () sk /\
       GetConfig sk = Done v sk) /\
    configLoadSuccess s' = 1 /\
    GetConfig s' = Done v s'.
Proof.
  intros Hwf Hb Hf Hv h s2.
  assert (Hwf2 : wf s2).
  { apply (wf_frame s); [exact Hwf | reflexivity | reflexivity |].
    intros ch. cbn. rewrite closes_app. simpl. lia. }
  destruct (callListeners_spec v s2 Hwf2) as (cs2 & Hcall & Hlook2).
  destruct (loadConfig_success s io b v Hwf Hb Hf Hv) as (cs' & Hload & Hlook).
  assert (Hcs : cs2 = cs').
  { apply list_eq. intros ch. rewrite Hlook2, Hlook. reflexivity. }
  subst cs2.
  eexists _, _. split; [reflexivity|]. split; [exact Hcall|].
  split; [|split; [exact Hload|]].
  - unfold hash_Reset, hash_Set, bind, modify, emit, modify, ret. cbn.
    rewrite insert_empty, <- !app_assoc. reflexivity.
  - split; [reflexivity|]. split; [|split; [|split; reflexivity]].
    + apply Forall_forall. intros e He. unfold publish_events in He.
      apply list_elem_of_fmap in He as (ch & -> & _). exists ch.
      destruct (chans s !! ch) as [c|]; [destruct (ready c)|]; auto.
    + intros k.
      destruct (send_each_spec (take k (listeners s)) v s2) as (csk & Hk & _).
      * apply (sublist_NoDup _ (listeners s)); [apply (wf_nodup Hwf) | apply sublist_take].
      * intros ch Hin. apply elem_of_take in Hin as (n & Hn & _).
        apply (wf_listener_chan s ch Hwf). apply list_elem_of_lookup. exists n. exact Hn.
      * eexists. split; [exact Hk | reflexivity].
Qed.

(** C4: [callListeners] always returns.  A registered channel with a parked
    receiver or with room in its buffer takes the value (handed to the
    receiver, or queued); a registered channel with neither is left as it
    was and the value is dropped for it; channels outside the registry are
    not touched. *)
Theorem callListeners_never_blocks s v :
  wf s ->
  exists s',
    callListeners v s = Done () s' /\
    listeners s' = listeners s /\
    (forall ch c, ch ∈ listeners s -> chans s !! ch = Some c ->
       chans s' !! ch = Some (if ready c then deliver v c else c) /\
       sends ch (trace s') = sends ch (trace s) ++ (if ready c then [v] else [])) /\
    (forall ch, ch ∉ listeners s ->
       chans s' !! ch = chans s !! ch /\
       sends ch (trace s') = sends ch (trace s)).
Proof.
  intros Hwf. destruct (callListeners_spec v s Hwf) as (cs' & Hcall & Hlook).
  eexists. split; [exact Hcall|]. split; [reflexivity|]. split.
  - intros ch c Hin Hc. cbn. split.
    + rewrite Hlook. destruct (decide (ch ∈ listeners s)); [|contradiction].
      rewrite Hc. reflexivity.
    + rewrite sends_app. f_equal.
      apply sends_publish_in; [apply (wf_nodup Hwf) | exact Hin | exact Hc].
  - intros ch Hn. cbn. split.
    + rewrite Hlook. destruct (decide (ch ∈ listeners s)); [contradiction | reflexivity].
    + rewrite sends_app, sends_publish_notin by assumption. apply app_nil_r.
Qed.

(** C5: [stopping] returns nil with an empty registry.  Every channel that
    was registered (created by [CreateListenerChannel] and not yet removed)
    is closed by it, [close] having run on it exactly once; and whatever
    happens to the manager afterwards, no value is sent on such a channel
    and [close] does not run on it again. *)
Theorem stopping_closes_all_listeners s (err : error) :
  wf s ->
  exists s',
    stopping err s = Done None s' /\
    listeners s' = [] /\
    forall ch, ch ∈ listeners s ->
      closes ch (trace s) = O /\
      dead s' ch /\
      closes ch (trace s') = 1%nat /\
      sends ch (trace s') = sends ch (trace s) /\
      forall ops : list op,
        let s'' := final (run ops s') in
        closes ch (trace s'') = 1%nat /\
        sends ch (trace s'') = sends ch (trace s') /\
        ch ∉ listeners s''.
Proof.
  intros Hwf.
  pose proof (preserves_stopping err s Hwf) as [Hwf' _].
  destruct (stopping_spec s err Hwf) as (cs' & Hstop & Hlook).
  rewrite Hstop in Hwf'. cbn [final] in Hwf'.
  eexists. split; [exact Hstop|]. split; [reflexivity|].
  intros ch Hin.
  destruct (wf_listener_chan s ch Hwf Hin) as (c & Hc & Hcl).
  assert (Hdead : dead (set_listeners []
            (set_trace (trace s ++ (EvClose <$> listeners s)) (set_chans cs' s))) ch).
  { unfold dead. cbn. rewrite list_lookup_fmap, Hlook.
    destruct (decide (ch ∈ listeners s)); [|contradiction]. rewrite Hc. reflexivity. }
  assert (H0 : closes ch (trace s) = O).
  { rewrite (wf_closes Hwf ch), list_lookup_fmap, Hc. cbn. rewrite Hcl. reflexivity. }
  assert (H1 : closes ch (trace s ++ (EvClose <$> listeners s)) = 1%nat).
  { rewrite closes_app, H0. apply closes_fmap_close_in; [apply (wf_nodup Hwf) | exact Hin]. }
  split; [exact H0|]. split; [exact Hdead|]. split; [exact H1|]. split.
  - cbn. rewrite sends_app, sends_fmap_close. apply app_nil_r.
  - intros ops s''. subst s''.
    destruct (preserves_run ops _ Hwf') as [Hwf'' Hkeep].
    destruct (Hkeep ch Hdead) as [Hdead'' [Hsends Hcloses]].
    split; [rewrite Hcloses; exact H1|]. split; [exact Hsends|].
    apply (wf_dead_not_listener _ ch Hwf'' Hdead'').
Qed.

(** C6: [CloseListenerChannel] on a channel that is not registered returns
    with the manager unchanged.  On any manager it returns without a panic,
    a second call with the same handle changes nothing more, the handle is
    no longer registered, and every other channel keeps its state and its
    place in or out of the registry; a registered handle ends up closed,
    [close] having run on it once. *)
Theorem CloseListenerChannel_idempotent s (l : chan_id) :
  (l ∉ listeners s -> CloseListenerChannel l s = Done () s) /\
  (wf s ->
   exists s',
     CloseListenerChannel l s = Done () s' /\
     CloseListenerChannel l s' = Done () s' /\
     wf s' /\
     (l ∉ listeners s') /\
     (forall ch, ch <> l ->
        (ch ∈ listeners s' <-> ch ∈ listeners s) /\
        chans s' !! ch = chans s !! ch /\
        quiet ch s s') /\
     (l ∈ listeners s -> dead s' l /\ closes l (trace s') = 1%nat)).
Proof.
  split; [apply CloseListenerChannel_absent|].
  intros Hwf.
  pose proof (preserves_CloseListenerChannel l s Hwf) as [Hwf' _].
  destruct (decide (l ∈ listeners s)) as [Hin|Hn].
  - destruct (CloseListenerChannel_present s l Hwf Hin)
      as (ix & c & Hix & Hc & Hcl & Hrun).
    rewrite Hrun in Hwf'. cbn [final] in Hwf'.
    destruct (remove_at_spec _ ix l (wf_nodup Hwf) Hix) as [_ Hmem].
    pose proof (lookup_lt_Some _ _ _ Hc) as Hlt.
    eexists. split; [exact Hrun|].
    assert (Hgone : l ∉ take ix (listeners s) ++ drop (S ix) (listeners s)).
    { rewrite Hmem. intros [_ H]. congruence. }
    split; [apply CloseListenerChannel_absent; exact Hgone|].
    split; [exact Hwf'|]. split; [exact Hgone|]. split.
    + intros ch Hne. cbn. split; [|split].
      * rewrite Hmem. tauto.
      * apply list_lookup_insert_ne. congruence.
      * split; cbn.
        -- rewrite sends_app. apply app_nil_r.
        -- rewrite closes_app. simpl. destruct (decide (l = ch)); [congruence | lia].
    + intros _. split.
      * unfold dead. cbn. rewrite list_fmap_insert.
        apply list_lookup_insert_eq. by rewrite length_fmap.
      * cbn. rewrite closes_app, (wf_closes Hwf l), list_lookup_fmap, Hc. cbn.
        rewrite Hcl. destruct (decide (l = l)); [reflexivity | congruence].
  - exists s. rewrite (CloseListenerChannel_absent s l Hn).
    split; [reflexivity|]. split; [reflexivity|]. split; [exact Hwf|].
    split; [exact Hn|]. split.
    + intros ch _. split; [reflexivity|]. split; [reflexivity | apply quiet_refl].
    + intros Hin. contradiction.
Qed.

(** *** Unchanged content and the hash gauge *)

Lemma cycle_succeeds (load : Loader_func V) (io : fetch_io) :
  cycle_fails load io = false ->
  fetch_fails io = false /\ exists v, load (read_buf io) = (v, None).
Proof.
  unfold cycle_fails. intros H. apply orb_false_iff in H as [Hf Hl].
  split; [exact Hf|]. apply bool_decide_eq_false in Hl.
  destruct (load (read_buf io)) as [v [e|]]; cbn in Hl.
  - exfalso. apply Hl. discriminate.
  - exists v. reflexivity.
Qed.

(** C7: a cycle whose fetch returns the same bytes as the cycle before it
    does all the work again: the decoder is called on the bytes, the config
    cell is set to the decoded value, the hash gauge is reset and set to the
    same label, and every registered channel that can take a value gets the
    value once more. *)
Theorem unchanged_content_is_reloaded s (io : fetch_io) (b : Bucket) v :
  wf s ->
  bucketClient s = Some b ->
  fetch_fails io = false ->
  Loader (cfg s) (read_buf io) = (v, None) ->
  let h := Sha256.hex (Sha256.Sum256 (read_buf io)) in
  exists s1 s2,
    loadConfig io s = Done None s1 /\
    configHash s1 = {[ h := 1 ]} /\
    loadConfig io s1 = Done None s2 /\
    trace s2 =
      trace s1 ++
      [EvGet (LoadPath (cfg s)); EvLoader (read_buf io);
       EvSuccessGauge 1; EvSetConfig v] ++
      publish_events (listeners s1) v (chans s1) ++
      [EvHashReset; EvHashSet h 1] /\
    config s2 = v /\
    configHash s2 = {[ h := 1 ]} /\
    forall ch c, ch ∈ listeners s1 -> chans s1 !! ch = Some c -> ready c = true ->
      chans s2 !! ch = Some (deliver v c) /\
      sends ch (trace s2) = sends ch (trace s1) ++ [v].
Proof.
  intros Hwf Hb Hf Hv h.
  pose proof (preserves_loadConfig io s Hwf) as [Hwf1 _].
  destruct (loadConfig_success s io b v Hwf Hb Hf Hv) as (cs1 & Hload1 & Hlook1).
  rewrite Hload1 in Hwf1. cbn [final] in Hwf1.
  match type of Hload1 with _ = Done None ?x => set (s1 := x) in * end.
  destruct (loadConfig_success s1 io b v Hwf1 Hb Hf Hv) as (cs2 & Hload2 & Hlook2).
  eexists s1, _. split; [exact Hload1|]. split; [reflexivity|].
  split; [exact Hload2|]. split; [reflexivity|]. split; [reflexivity|].
  split; [reflexivity|].
  intros ch c Hin Hc Hready. split.
  - cbn [chans]. rewrite Hlook2.
    destruct (decide (ch ∈ listeners s1)); [|contradiction].
    rewrite Hc. cbn. unfold offer. rewrite Hready. reflexivity.
  - cbn [trace]. rewrite !sends_app. cbn [sends app].
    rewrite (sends_publish_in ch (listeners s1) v (chans s1) c
               (wf_nodup Hwf1) Hin Hc), Hready.
    rewrite app_nil_r. reflexivity.
Qed.

(** C8: after a successful cycle on the bytes [B] the hash gauge holds
    exactly one label, the lowercase hexadecimal SHA-256 digest of [B] (64
    characters), with value 1, whatever labels it held before; a failed
    cycle leaves the hash gauge as it was. *)
Theorem hash_gauge_follows_content s (io : fetch_io) (b : Bucket) :
  wf s ->
  bucketClient s = Some b ->
  let h := Sha256.hex (Sha256.Sum256 (read_buf io)) in
  (cycle_fails (Loader (cfg s)) io = false ->
   exists s', loadConfig io s = Done None s' /\
              configHash s' = {[ h := 1 ]} /\
              forall label, configHash s' !! label =
                            if decide (label = h) then Some 1 else None) /\
  (cycle_fails (Loader (cfg s)) io = true ->
   configHash (final (loadConfig io s)) = configHash s) /\
  String.length h = 64%nat /\
  Sha256.all_lower_hex h = true.
Proof.
  intros Hwf Hb h. split; [|split; [|split]].
  - intros Hok. destruct (cycle_succeeds _ _ Hok) as [Hf [v Hv]].
    destruct (loadConfig_success s io b v Hwf Hb Hf Hv) as (cs' & Hload & _).
    eexists. split; [exact Hload|]. split; [reflexivity|].
    intros label. cbn [configHash].
    destruct (decide (label = h)) as [->|Hne].
    + apply lookup_singleton_eq.
    + apply lookup_singleton_ne. intros Heq. apply Hne. symmetry. exact Heq.
  - intros Hfail. destruct (loadConfig_failure s io b Hb Hfail) as [e ->]. reflexivity.
  - subst h. rewrite hex_length, Sum256_length. reflexivity.
  - apply hex_lower.
Qed.

End RuntimeConfigProofs.

(** ** The properties on the small deployment *)

Section Deployment.

Import RuntimeConfig Scenario.

Lemma New_fresh : New "filesystem" cfg_yaml factory = (Some fresh, None).
Proof. reflexivity. Qed.

Lemma wf_serving : wf serving.
Proof. apply (wf_reachable "filesystem" cfg_yaml factory), New_fresh. Qed.

Lemma serving_registry : listeners serving = [0; 1; 2]%nat.
Proof. vm_compute. reflexivity. Qed.

End Deployment.

(** C1, as stated, fails: with an empty [LoadPath] the constructor returns no
    manager and the error "LoadPath is empty". *)
Lemma New_empty_LoadPath_counterexample :
  RuntimeConfig.LoadPath Scenario.cfg_disabled = "" /\
  RuntimeConfig.New "filesystem" Scenario.cfg_disabled Scenario.factory
    = (None, Some "LoadPath is empty") /\
  ~ exists s, RuntimeConfig.New "filesystem" Scenario.cfg_disabled Scenario.factory
              = (Some s, None).
Proof.
  split; [reflexivity|]. split; [reflexivity|].
  intros [s H]. vm_compute in H. discriminate H.
Qed.

Lemma empty_LoadPath_rejected_by_New_witness :
  RuntimeConfig.LoadPath Scenario.cfg_disabled = "" /\
  RuntimeConfig.LoadPath (RuntimeConfig.cfg Scenario.disabled) = "" /\
  RuntimeConfig.New "filesystem" Scenario.cfg_disabled Scenario.factory
    = (None, Some "LoadPath is empty") /\
  RuntimeConfig.starting (Scenario.serves Scenario.B1) Scenario.disabled
    = RuntimeConfig.Done None Scenario.disabled /\
  RuntimeConfig.wait_done
    [RuntimeConfig.Tick (Scenario.serves Scenario.B1); RuntimeConfig.CtxDone]
    = RuntimeConfig.Returned None.
Proof.
  pose proof (empty_LoadPath_rejected_by_New "filesystem" Scenario.cfg_disabled
                Scenario.factory Scenario.disabled (Scenario.serves Scenario.B1)
                [RuntimeConfig.Tick (Scenario.serves Scenario.B1); RuntimeConfig.CtxDone]
                eq_refl eq_refl) as (HNew & Hstart & _ & _ & _ & Hdone & _).
  split; [reflexivity|]. split; [reflexivity|]. split; [exact HNew|].
  split; [exact Hstart|]. reflexivity.
Defined.

Lemma failed_cycle_is_contained_witness :
  RuntimeConfig.bucketClient Scenario.serving = Some "fs-bucket" /\
  RuntimeConfig.cycle_fails (RuntimeConfig.Loader (RuntimeConfig.cfg Scenario.serving))
                            Scenario.not_found = true /\
  exists e s',
    RuntimeConfig.loadConfig Scenario.not_found Scenario.serving
      = RuntimeConfig.Done (Some e) s' /\
    RuntimeConfig.config s' = Some 3%nat /\
    RuntimeConfig.configLoadSuccess s' = 0.
Proof.
  assert (Hb : RuntimeConfig.bucketClient Scenario.serving = Some "fs-bucket")
    by (vm_compute; reflexivity).
  assert (Hf : RuntimeConfig.cycle_fails
                 (RuntimeConfig.Loader (RuntimeConfig.cfg Scenario.serving))
                 Scenario.not_found = true) by (vm_compute; reflexivity).
  split; [exact Hb|]. split; [exact Hf|].
  destruct (failed_cycle_is_contained Scenario.serving Scenario.not_found "fs-bucket" [] Hb Hf)
    as (e & Hload & Hg & _).
  exists e. eexists. split; [exact Hload|]. split; [vm_compute; reflexivity | exact Hg].
Defined.

Lemma successful_cycle_order_witness :
  RuntimeConfig.wf Scenario.serving /\
  RuntimeConfig.bucketClient Scenario.serving = Some "fs-bucket" /\
  RuntimeConfig.fetch_fails (Scenario.serves Scenario.B2) = false /\
  RuntimeConfig.Loader (RuntimeConfig.cfg Scenario.serving)
    (RuntimeConfig.read_buf (Scenario.serves Scenario.B2)) = (Some 4%nat, None) /\
  exists s',
    RuntimeConfig.loadConfig (Scenario.serves Scenario.B2) Scenario.serving
      = RuntimeConfig.Done None s' /\
    RuntimeConfig.GetConfig s' = RuntimeConfig.Done (Some 4%nat) s'.
Proof.
  assert (Hb : RuntimeConfig.bucketClient Scenario.serving = Some "fs-bucket")
    by (vm_compute; reflexivity).
  assert (Hf : RuntimeConfig.fetch_fails (Scenario.serves Scenario.B2) = false)
    by (vm_compute; reflexivity).
  assert (Hv : RuntimeConfig.Loader (RuntimeConfig.cfg Scenario.serving)
                 (RuntimeConfig.read_buf (Scenario.serves Scenario.B2)) = (Some 4%nat, None))
    by (vm_compute; reflexivity).
  split; [exact wf_serving|]. split; [exact Hb|]. split; [exact Hf|]. split; [exact Hv|].
  destruct (successful_cycle_order Scenario.serving (Scenario.serves Scenario.B2)
              "fs-bucket" (Some 4%nat) wf_serving Hb Hf Hv)
    as (s3 & s' & _ & _ & _ & Hload & _ & _ & _ & _ & Hget).
  exists s'. split; [exact Hload | exact Hget].
Defined.

Lemma callListeners_never_blocks_witness :
  RuntimeConfig.wf Scenario.serving /\
  exists s',
    RuntimeConfig.callListeners (Some 7%nat) Scenario.serving = RuntimeConfig.Done () s' /\
    RuntimeConfig.listeners s' = RuntimeConfig.listeners Scenario.serving.
Proof.
  split; [exact wf_serving|].
  destruct (callListeners_never_blocks Scenario.serving (Some 7%nat) wf_serving)
    as (s' & Hcall & Hl & _).
  exists s'. split; [exact Hcall | exact Hl].
Defined.

Lemma stopping_closes_all_listeners_witness :
  RuntimeConfig.wf Scenario.serving /\
  exists s',
    RuntimeConfig.stopping None Scenario.serving = RuntimeConfig.Done None s' /\
    RuntimeConfig.listeners s' = [].
Proof.
  split; [exact wf_serving|].
  destruct (stopping_closes_all_listeners Scenario.serving None wf_serving)
    as (s' & Hstop & Hl & _).
  exists s'. split; [exact Hstop | exact Hl].
Defined.

Lemma CloseListenerChannel_idempotent_witness :
  (7%nat ∉ RuntimeConfig.listeners Scenario.serving) /\
  RuntimeConfig.CloseListenerChannel 7 Scenario.serving
    = RuntimeConfig.Done () Scenario.serving /\
  RuntimeConfig.wf Scenario.serving /\
  exists s',
    RuntimeConfig.CloseListenerChannel 1 Scenario.serving = RuntimeConfig.Done () s' /\
    RuntimeConfig.CloseListenerChannel 1 s' = RuntimeConfig.Done () s'.
Proof.
  assert (Hn : 7%nat ∉ RuntimeConfig.listeners Scenario.serving).
  { rewrite serving_registry. apply (bool_decide_unpack _). vm_compute. exact I. }
  split; [exact Hn|].
  split; [apply (proj1 (CloseListenerChannel_idempotent Scenario.serving 7%nat) Hn)|].
  split; [exact wf_serving|].
  destruct (proj2 (CloseListenerChannel_idempotent Scenario.serving 1%nat) wf_serving)
    as (s' & H1 & H2 & _).
  exists s'. split; [exact H1 | exact H2].
Defined.

Lemma unchanged_content_is_reloaded_witness :
  RuntimeConfig.wf Scenario.serving /\
  RuntimeConfig.bucketClient Scenario.serving = Some "fs-bucket" /\
  RuntimeConfig.fetch_fails (Scenario.serves Scenario.B1) = false /\
  RuntimeConfig.Loader (RuntimeConfig.cfg Scenario.serving)
    (RuntimeConfig.read_buf (Scenario.serves Scenario.B1)) = (Some 3%nat, None) /\
  exists s1 s2,
    RuntimeConfig.loadConfig (Scenario.serves Scenario.B1) Scenario.serving
      = RuntimeConfig.Done None s1 /\
    RuntimeConfig.loadConfig (Scenario.serves Scenario.B1) s1
      = RuntimeConfig.Done None s2 /\
    RuntimeConfig.config s2 = Some 3%nat.
Proof.
  assert (Hb : RuntimeConfig.bucketClient Scenario.serving = Some "fs-bucket")
    by (vm_compute; reflexivity).
  assert (Hf : RuntimeConfig.fetch_fails (Scenario.serves Scenario.B1) = false)
    by (vm_compute; reflexivity).
  assert (Hv : RuntimeConfig.Loader (RuntimeConfig.cfg Scenario.serving)
                 (RuntimeConfig.read_buf (Scenario.serves Scenario.B1)) = (Some 3%nat, None))
    by (vm_compute; reflexivity).
  split; [exact wf_serving|]. split; [exact Hb|]. split; [exact Hf|]. split; [exact Hv|].
  destruct (unchanged_content_is_reloaded Scenario.serving (Scenario.serves Scenario.B1)
              "fs-bucket" (Some 3%nat) wf_serving Hb Hf Hv)
    as (s1 & s2 & H1 & _ & H2 & _ & Hc & _).
  exists s1, s2. split; [exact H1|]. split; [exact H2 | exact Hc].
Defined.

Lemma hash_gauge_follows_content_witness :
  RuntimeConfig.wf Scenario.serving /\
  RuntimeConfig.bucketClient Scenario.serving = Some "fs-bucket" /\
  RuntimeConfig.cycle_fails (RuntimeConfig.Loader (RuntimeConfig.cfg Scenario.serving))
                            (Scenario.serves Scenario.B2) = false /\
  RuntimeConfig.cycle_fails (RuntimeConfig.Loader (RuntimeConfig.cfg Scenario.serving))
                            Scenario.close_fails = true /\
  (exists s',
     RuntimeConfig.loadConfig (Scenario.serves Scenario.B2) Scenario.serving
       = RuntimeConfig.Done None s' /\
     RuntimeConfig.configHash s' =
       {[ Sha256.hex (Sha256.Sum256 Scenario.B2) := 1 ]}) /\
  RuntimeConfig.configHash
    (RuntimeConfig.final (RuntimeConfig.loadConfig Scenario.close_fails Scenario.serving))
  = RuntimeConfig.configHash Scenario.serving.
Proof.
  assert (Hb : RuntimeConfig.bucketClient Scenario.serving = Some "fs-bucket")
    by (vm_compute; reflexivity).
  assert (Hok : RuntimeConfig.cycle_fails
                  (RuntimeConfig.Loader (RuntimeConfig.cfg Scenario.serving))
                  (Scenario.serves Scenario.B2) = false) by (vm_compute; reflexivity).
  assert (Hko : RuntimeConfig.cycle_fails
                  (RuntimeConfig.Loader (RuntimeConfig.cfg Scenario.serving))
                  Scenario.close_fails = true) by (vm_compute; reflexivity).
  split; [exact wf_serving|]. split; [exact Hb|]. split; [exact Hok|]. split; [exact Hko|].
  split.
  - destruct (proj1 (hash_gauge_follows_content Scenario.serving (Scenario.serves Scenario.B2)
                       "fs-bucket" wf_serving Hb) Hok) as (s' & Hload & Hh & _).
    exists s'. split; [exact Hload | exact Hh].
  - exact (proj1 (proj2 (hash_gauge_follows_content Scenario.serving Scenario.close_fails
                           "fs-bucket" wf_serving Hb)) Hko).
Defined.

(** * Further properties of the code *)

(** ** pkg/querier: label matchers *)

Section MatcherProofs.

Import Querier QuerierMore.

Lemma convert_loop_closed (acc : slice LabelMatcher) (ms : list Matcher) :
  convert_loop acc (Some <$> ms) =
  Ret (match ms with
       | [] => acc
       | _ => mk_slice (elems acc ++ (convert_one <$> ms))
       end).
Proof.
  revert acc. induction ms as [|m ms IH]; intros acc; [reflexivity|].
  rewrite fmap_cons. cbn [convert_loop]. rewrite IH. unfold append. cbn [elems].
  destruct ms as [|m' ms]; cbn; rewrite <- ?app_assoc; reflexivity.
Qed.

Lemma convert_loop_nil_pointer (acc : slice LabelMatcher) (ms : list (option Matcher)) :
  None ∈ ms ->
  convert_loop acc ms = Panic "invalid memory address or nil pointer dereference".
Proof.
  revert acc. induction ms as [|[m|] ms IH]; intros acc Hin.
  - apply elem_of_nil in Hin. contradiction.
  - apply elem_of_cons in Hin as [Hin|Hin]; [discriminate|]. cbn. apply IH. exact Hin.
  - reflexivity.
Qed.

Lemma all_some_or_none {A} (l : list (option A)) :
  (exists l', l = Some <$> l') \/ None ∈ l.
Proof.
  induction l as [|[a|] l [[l' ->]|Hin]].
  - left. exists []. reflexivity.
  - left. exists (a :: l'). reflexivity.
  - right. right. exact Hin.
  - right. left.
  - right. left.
Qed.

Lemma convertMatchers_elems (ms : list Matcher) :
  exists r,
    convertMatchersToLabelMatcher (Some <$> ms) = Ret r /\
    elems r = convert_one <$> ms.
Proof.
  unfold convertMatchersToLabelMatcher. rewrite convert_loop_closed.
  eexists. split; [reflexivity|]. destruct ms; reflexivity.
Qed.

(** X1: on matchers that are all non-nil the conversion is a map: the result
    has one label matcher per matcher, in the same order, each with the
    matcher's name and value and the converted type; the result of an empty
    input is the nil slice, any other result is non-nil. *)
Theorem convertMatchers_is_map (ms : list Matcher) :
  exists r,
    convertMatchersToLabelMatcher (Some <$> ms) = Ret r /\
    elems r = convert_one <$> ms /\
    length (elems r) = length ms /\
    (r = nil_slice <-> ms = []) /\
    forall (n : nat) m, ms !! n = Some m ->
      exists lm, elems r !! n = Some lm /\
                 LMName lm = MName m /\ LMValue lm = MValue m /\
                 LMType lm = convert_type (MType m).
Proof.
  unfold convertMatchersToLabelMatcher. rewrite convert_loop_closed.
  eexists. split; [reflexivity|].
  assert (Hel : elems (match ms with
                       | [] => nil_slice
                       | _ => mk_slice (elems nil_slice ++ (convert_one <$> ms))
                       end) = convert_one <$> ms).
  { destruct ms; reflexivity. }
  split; [exact Hel|]. split; [by rewrite Hel, length_fmap|]. split.
  - destruct ms; split; intros H; try reflexivity; discriminate.
  - intros n m Hm. exists (convert_one m). rewrite Hel, list_lookup_fmap, Hm.
    repeat split.
Qed.

(** X2: the conversion panics exactly when one of the matcher pointers is
    nil; otherwise it returns. *)
Theorem convertMatchers_panics_iff_nil_pointer (ms : list (option Matcher)) :
  (None ∈ ms <->
   convertMatchersToLabelMatcher ms =
     Panic "invalid memory address or nil pointer dereference") /\
  (None ∉ ms <-> exists r, convertMatchersToLabelMatcher ms = Ret r).
Proof.
  unfold convertMatchersToLabelMatcher.
  destruct (all_some_or_none ms) as [[ms' ->]|Hin].
  - assert (Hn : None ∉ (Some <$> ms')).
    { intros H. apply list_elem_of_fmap in H as (x & Hx & _). discriminate. }
    rewrite convert_loop_closed. split; split.
    + intros H. contradiction.
    + discriminate.
    + intros _. eexists. reflexivity.
    + intros _. exact Hn.
  - rewrite (convert_loop_nil_pointer _ ms Hin). split; split.
    + reflexivity.
    + intros _. exact Hin.
    + intros H. contradiction.
    + intros [r H]. discriminate.
Qed.

Lemma convert_type_known (ty : Z) : known_type ty = true -> convert_type ty = ty.
Proof.
  unfold known_type, convert_type, MatchEqual, MatchNotEqual, MatchRegexp,
    MatchNotRegexp, LabelMatcher_EQ, LabelMatcher_NEQ, LabelMatcher_RE, LabelMatcher_NRE.
  intros H. apply andb_true_iff in H as [H0 H3].
  apply Z.leb_le in H0. apply Z.leb_le in H3.
  destruct (Z.eqb_spec ty 0); [lia|]. destruct (Z.eqb_spec ty 1); [lia|].
  destruct (Z.eqb_spec ty 2); [lia|]. destruct (Z.eqb_spec ty 3); lia.
Qed.

Lemma convert_one_inj (m m' : Matcher) :
  known_type (MType m) = true -> known_type (MType m') = true ->
  convert_one m = convert_one m' -> m = m'.
Proof.
  intros Hk Hk' H. unfold convert_one in H. cbv zeta in H.
  rewrite (convert_type_known _ Hk), (convert_type_known _ Hk') in H.
  destruct m, m'. cbn in *. congruence.
Qed.

(** X3: on matchers of the four known kinds the conversion loses nothing:
    two lists of such matchers with the same conversion are the same list. *)
Theorem convertMatchers_injective_on_known (ms ms' : list Matcher) :
  Forall (fun m => known_type (MType m) = true) ms ->
  Forall (fun m => known_type (MType m) = true) ms' ->
  convertMatchersToLabelMatcher (Some <$> ms) =
    convertMatchersToLabelMatcher (Some <$> ms') ->
  ms = ms'.
Proof.
  intros Hk Hk' H.
  destruct (convertMatchers_elems ms) as (r & Hr & Hel).
  destruct (convertMatchers_elems ms') as (r' & Hr' & Hel').
  rewrite Hr, Hr' in H. injection H as H. subst r'. rewrite Hel in Hel'.
  clear Hr Hr' Hel r. rename Hel' into H.
  revert ms' Hk' H. induction Hk as [|m ms Hm Hk IH]; intros ms' Hk' H.
  - destruct ms'; [reflexivity | cbn in H; discriminate H].
  - destruct Hk' as [|m' ms' Hm' Hk']; [cbn in H; discriminate H|].
    rewrite !fmap_cons in H.
    assert (H1 : convert_one m = convert_one m') by congruence.
    assert (H2 : convert_one <$> ms = convert_one <$> ms') by congruence.
    f_equal; [by apply convert_one_inj | by apply IH].
Qed.

(** X4: a matcher whose type is none of the four known kinds is converted as
    if it were an equality matcher. *)
Theorem convertMatchers_unknown_type_becomes_EQ (m : Matcher) (ms1 ms2 : list Matcher) :
  known_type (MType m) = false ->
  convertMatchersToLabelMatcher (Some <$> (ms1 ++ m :: ms2)) =
  convertMatchersToLabelMatcher
    (Some <$> (ms1 ++ mkMatcher MatchEqual (MName m) (MValue m) :: ms2)).
Proof.
  intros Hk. unfold convertMatchersToLabelMatcher. rewrite !convert_loop_closed.
  assert (Hone : convert_one m = convert_one (mkMatcher MatchEqual (MName m) (MValue m))).
  { unfold convert_one, convert_type, known_type, MatchEqual, MatchNotEqual,
      MatchRegexp, MatchNotRegexp, LabelMatcher_EQ in *. cbn.
    apply andb_false_iff in Hk.
    destruct (Z.eqb_spec (MType m) 0) as [E|_]; [rewrite E in Hk; destruct Hk; discriminate|].
    destruct (Z.eqb_spec (MType m) 1) as [E|_]; [rewrite E in Hk; destruct Hk; discriminate|].
    destruct (Z.eqb_spec (MType m) 2) as [E|_]; [rewrite E in Hk; destruct Hk; discriminate|].
    destruct (Z.eqb_spec (MType m) 3) as [E|_]; [rewrite E in Hk; destruct Hk; discriminate|].
    reflexivity. }
  destruct ms1; cbn; rewrite ?fmap_app, ?fmap_cons, Hone; reflexivity.
Qed.

End MatcherProofs.

Lemma convertMatchers_injective_on_known_witness :
  let ms := [QuerierMore.mkMatcher 2 "job" "api.*"; QuerierMore.mkMatcher 1 "env" "dev"] in
  Forall (fun m => QuerierMore.known_type (QuerierMore.MType m) = true) ms /\
  ms = ms.
Proof.
  intros ms.
  assert (H : Forall (fun m => QuerierMore.known_type (QuerierMore.MType m) = true) ms)
    by (repeat constructor).
  split; [exact H|].
  apply (convertMatchers_injective_on_known ms ms H H). reflexivity.
Defined.

Lemma convertMatchers_unknown_type_becomes_EQ_witness :
  let m := QuerierMore.mkMatcher 7 "job" "api" in
  QuerierMore.known_type (QuerierMore.MType m) = false /\
  QuerierMore.convertMatchersToLabelMatcher [Some m] =
  Ret (Querier.mk_slice [QuerierMore.mkLabelMatcher QuerierMore.LabelMatcher_EQ "job" "api"]).
Proof.
  intros m. split; [reflexivity|].
  etransitivity; [exact (convertMatchers_unknown_type_becomes_EQ m [] [] eq_refl)|].
  reflexivity.
Defined.

Lemma convertMatchers_is_map_witness :
  let ms := [QuerierMore.mkMatcher 2 "job" "api.*"; QuerierMore.mkMatcher 1 "env" "dev"] in
  ms !! 1%nat = Some (QuerierMore.mkMatcher 1 "env" "dev") /\
  exists r lm,
    QuerierMore.convertMatchersToLabelMatcher (Some <$> ms) = Ret r /\
    QuerierMore.elems r !! 1%nat = Some lm /\
    QuerierMore.LMName lm = "env" /\ QuerierMore.LMType lm = QuerierMore.LabelMatcher_NEQ.
Proof.
  intros ms. split; [reflexivity|].
  destruct (convertMatchers_is_map ms) as (r & Hr & _ & _ & _ & Hat).
  destruct (Hat 1%nat _ eq_refl) as (lm & Hlm & Hn & _ & Ht).
  exists r, lm. split; [exact Hr|]. split; [exact Hlm|]. split; [exact Hn | exact Ht].
Defined.

Lemma convertMatchers_panics_iff_nil_pointer_witness :
  let ms := [Some (QuerierMore.mkMatcher 0 "job" "api"); None] in
  None ∈ ms /\
  QuerierMore.convertMatchersToLabelMatcher ms =
    Panic "invalid memory address or nil pointer dereference".
Proof.
  intros ms.
  assert (Hin : None ∈ ms) by (right; left).
  split; [exact Hin|].
  apply (proj1 (proj1 (convertMatchers_panics_iff_nil_pointer ms)) Hin).
Defined.

(** ** pkg/querier: blocks among other context values *)

Section ContextProofs.

Import Querier QuerierMore.
Context {Block : Type}.

Lemma Value_typed (ctx : context Block) :
  blocks_typed ctx = true ->
  Value ctx blockCtxKey = any_nil /\ never_injected ctx = true \/
  exists s, Value ctx blockCtxKey = any_blocks s /\ never_injected ctx = false.
Proof.
  induction ctx as [|parent IH|parent IH k v]; cbn; intros H.
  - left. split; reflexivity.
  - apply IH, H.
  - apply andb_true_iff in H as [Hv Hp].
    destruct (decide (k = blockCtxKey)) as [->|Hne].
    + right. rewrite bool_decide_eq_true_2 by reflexivity.
      destruct v as [|s|ty]; try discriminate. exists s. split; reflexivity.
    + rewrite bool_decide_eq_false_2 by assumption. cbn. apply IH, Hp.
Qed.

(** X5: injecting blocks leaves the value under every other key as it was,
    and the blocks in a context are not affected by deriving a cancellable
    context from it or by adding a value under another key. *)
Theorem blocks_do_not_interfere (ctx : context Block) (bs : slice Block) (k : key) (v : any Block) :
  k <> blockCtxKey ->
  Value (InjectBlocksIntoContext ctx bs) k = Value ctx k /\
  ExtractBlocksFromContext (WithValue ctx k v) = ExtractBlocksFromContext ctx /\
  ExtractBlocksFromContext (WithCancel ctx) = ExtractBlocksFromContext ctx /\
  ExtractBlocksFromContext (WithValue (WithCancel (InjectBlocksIntoContext ctx bs)) k v)
    = Ret (bs, true).
Proof.
  intros Hne. unfold ExtractBlocksFromContext, InjectBlocksIntoContext. cbn.
  destruct (decide (blockCtxKey = k)) as [E|_]; [congruence|].
  destruct (decide (k = blockCtxKey)) as [E|_]; [congruence|].
  destruct (decide (blockCtxKey = blockCtxKey)); [|congruence].
  repeat split.
Qed.

(** X6: on a context whose layers under the blocks key all hold blocks (as
    every context built with [InjectBlocksIntoContext] does), extraction
    never panics, its flag tells whether some layer carries blocks, and
    without such a layer the slice is nil. *)
Theorem Extract_on_typed_context (ctx : context Block) :
  blocks_typed ctx = true ->
  exists s,
    ExtractBlocksFromContext ctx = Ret (s, negb (never_injected ctx)) /\
    (never_injected ctx = true -> s = nil_slice).
Proof.
  intros H. unfold ExtractBlocksFromContext.
  destruct (Value_typed ctx H) as [[-> ->]|(s & -> & ->)].
  - exists nil_slice. split; reflexivity.
  - exists s. split; [reflexivity | discriminate].
Qed.

End ContextProofs.

Lemma blocks_do_not_interfere_witness :
  let ctx : Querier.context nat :=
    Querier.WithValue Querier.Background (Querier.foreign_key "string" "user")
                      (Querier.any_other "string") in
  let k := Querier.foreign_key "string" "user" in
  k <> Querier.blockCtxKey /\
  Querier.Value (Querier.InjectBlocksIntoContext ctx (Querier.mk_slice [7%nat])) k
    = Querier.any_other "string".
Proof.
  intros ctx k.
  assert (Hne : k <> Querier.blockCtxKey) by discriminate.
  split; [exact Hne|].
  etransitivity;
    [exact (proj1 (blocks_do_not_interfere ctx (Querier.mk_slice [7%nat]) k
                     Querier.any_nil Hne))|].
  reflexivity.
Defined.

Lemma Extract_on_typed_context_witness :
  let ctx : Querier.context nat :=
    Querier.WithCancel
      (Querier.InjectBlocksIntoContext
         (Querier.InjectBlocksIntoContext Querier.Background (Querier.mk_slice [1%nat]))
         (Querier.mk_slice [2%nat; 3%nat])) in
  QuerierMore.blocks_typed ctx = true /\
  exists s, Querier.ExtractBlocksFromContext ctx = Ret (s, true).
Proof.
  intros ctx. split; [reflexivity|].
  destruct (Extract_on_typed_context ctx eq_refl) as (s & Hs & _).
  exists s. exact Hs.
Defined.

(** ** pkg/util/runtimeconfig: construction, startup and the run loop *)

Section ReloadProofs.

Import RuntimeConfig Reloads.
Context {V : Type}.

Implicit Types (s : State V) (io : fetch_io) (b : Bucket).

Lemma keeps_ret {A} (I : State V -> Prop) (a : A) : keeps I (ret a).
Proof. intros s H. exact H. Qed.

Lemma keeps_panic {A} (I : State V -> Prop) msg : keeps (A := A) I (panic msg).
Proof. intros s H. exact H. Qed.

Lemma keeps_bind {A B} (I : State V -> Prop) (m : M V A) (k : A -> M V B) :
  keeps I m -> (forall a, keeps I (k a)) -> keeps I (bind m k).
Proof.
  intros Hm Hk s H. unfold bind. specialize (Hm s H).
  destruct (m s) as [a s1|msg s1]; cbn [final] in *; [apply Hk, Hm | exact Hm].
Qed.

Lemma keeps_gets_bind {A B} (I : State V -> Prop) (f : State V -> A) (k : A -> M V B) :
  (forall a, keeps I (k a)) -> keeps I (bind (gets f) k).
Proof. intros Hk. apply keeps_bind; [intros s H; exact H | exact Hk]. Qed.

(** One reload cycle on a started manager: what it returns and what it
    leaves in the manager. *)
Lemma loadConfig_step s io b :
  wf s -> bucketClient s = Some b ->
  exists err s',
    loadConfig io s = Done err s' /\
    (err = None <-> cycle_fails (Loader (cfg s)) io = false) /\
    wf s' /\ cfg s' = cfg s /\ bucketClient s' = Some b /\
    listeners s' = listeners s /\
    config s' = cell_after (Loader (cfg s)) (config s) io /\
    configLoadSuccess s' = gauge_after (Loader (cfg s)) (configLoadSuccess s) io /\
    configHash s' = hash_after (Loader (cfg s)) (configHash s) io.
Proof.
  intros Hwf Hb. pose proof (preserves_loadConfig io s Hwf) as [Hwf' _].
  unfold cell_after, gauge_after, hash_after.
  destruct (cycle_fails (Loader (cfg s)) io) eqn:Hc.
  - destruct (loadConfig_failure s io b Hb Hc) as [e He].
    rewrite He in Hwf'. cbn [final] in Hwf'.
    eexists _, _. split; [exact He|]. split; [split; discriminate|].
    split; [exact Hwf'|]. repeat split. exact Hb.
  - destruct (cycle_succeeds _ _ Hc) as [Hf [v Hv]].
    destruct (loadConfig_success s io b v Hwf Hb Hf Hv) as (cs' & Hl & _).
    rewrite Hl in Hwf'. cbn [final] in Hwf'.
    eexists _, _. split; [exact Hl|]. split; [split; reflexivity|].
    split; [exact Hwf'|]. cbn. rewrite Hv. repeat split. exact Hb.
Qed.

Lemma wf_logged err s : wf s -> wf (logged err s).
Proof.
  intros Hwf. destruct err as [e|]; [|exact Hwf].
  apply (wf_frame s); [exact Hwf | reflexivity | reflexivity |].
  intros ch. cbn. rewrite closes_app. simpl. lia.
Qed.

Lemma loop_from_tick io (rest : list wake) s err s' :
  loadConfig io s = Done err s' ->
  loop_from (Tick io :: rest) s = loop_from rest (logged err s').
Proof.
  intros H. cbn [loop_from]. unfold bind at 1. unfold bind at 1. rewrite H.
  destruct err; reflexivity.
Qed.

Lemma loop_from_ticks (ios : list fetch_io) s b :
  wf s -> bucketClient s = Some b ->
  exists s',
    loop_from (Tick <$> ios) s = Done Blocked s' /\
    wf s' /\ cfg s' = cfg s /\ bucketClient s' = Some b /\
    listeners s' = listeners s /\
    config s' = foldl (cell_after (Loader (cfg s))) (config s) ios /\
    configLoadSuccess s' =
      foldl (gauge_after (Loader (cfg s))) (configLoadSuccess s) ios /\
    configHash s' = foldl (hash_after (Loader (cfg s))) (configHash s) ios.
Proof.
  revert s. induction ios as [|io ios IH]; intros s Hwf Hb.
  - exists s. split; [reflexivity|]. split; [exact Hwf|]. split; [reflexivity|].
    split; [exact Hb|]. repeat split.
  - destruct (loadConfig_step s io b Hwf Hb)
      as (err & s1 & Hl & _ & Hwf1 & Hcfg & Hb1 & Hls & Hc & Hg & Hh).
    destruct (IH (logged err s1)) as (s' & Hrun & Hwf' & Hcfg' & Hb' & Hls' & Hc' & Hg' & Hh').
    { apply wf_logged, Hwf1. }
    { destruct err; exact Hb1. }
    assert (Hsame : cfg (logged err s1) = cfg s /\ listeners (logged err s1) = listeners s /\
                    config (logged err s1) = config s1 /\
                    configLoadSuccess (logged err s1) = configLoadSuccess s1 /\
                    configHash (logged err s1) = configHash s1).
    { destruct err; cbn; repeat split; assumption. }
    destruct Hsame as (E1 & E2 & E3 & E4 & E5).
    exists s'. rewrite fmap_cons, (loop_from_tick io _ s err s1 Hl).
    split; [exact Hrun|]. split; [exact Hwf'|].
    split; [congruence|]. split; [exact Hb'|]. split; [congruence|].
    cbn [foldl]. rewrite E1 in *. rewrite Hc', Hg', Hh', E3, E4, E5, Hc, Hg, Hh.
    repeat split.
Qed.

(** X7: on a started manager the run loop works through any number of ticks
    without returning, and afterwards the config cell holds the value
    decoded in the last cycle that succeeded (the earlier value if none
    did), the success gauge tells whether the last cycle succeeded, the hash
    gauge holds only the label of the last successfully loaded bytes, and
    the registry is as before. *)
Theorem loop_keeps_last_good_config (ios : list fetch_io) s b :
  wf s -> bucketClient s = Some b ->
  let load := Loader (cfg s) in
  exists s',
    loop_from (Tick <$> ios) s = Done Blocked s' /\
    GetConfig s' = Done (foldl (cell_after load) (config s) ios) s' /\
    configLoadSuccess s' = foldl (gauge_after load) (configLoadSuccess s) ios /\
    configHash s' = foldl (hash_after load) (configHash s) ios /\
    listeners s' = listeners s.
Proof.
  intros Hwf Hb load.
  destruct (loop_from_ticks ios s b Hwf Hb) as (s' & Hrun & _ & _ & _ & Hls & Hc & Hg & Hh).
  exists s'. split; [exact Hrun|]. split; [unfold GetConfig, gets; by rewrite Hc|].
  split; [exact Hg|]. split; [exact Hh | exact Hls].
Qed.

Lemma loop_from_cut (pre post : list wake) s :
  loop_from (pre ++ CtxDone :: post) s = loop_from (pre ++ [CtxDone]) s.
Proof.
  revert s. induction pre as [|[io|] pre IH]; intros s; cbn [app loop_from]; try reflexivity.
  unfold bind. destruct (loadConfig io s) as [err s1|msg s1]; [|reflexivity].
  destruct err as [e|].
  - destruct (log_error e s1) as [u s2|msg s2]; [apply IH | reflexivity].
  - cbn. apply IH.
Qed.

Lemma wait_done_cut (pre post : list wake) :
  wait_done (pre ++ CtxDone :: post) = wait_done (pre ++ [CtxDone]).
Proof. induction pre as [|[io|] pre IH]; cbn; auto. Qed.

Lemma wait_done_result (evs : list wake) :
  (wait_done evs = Returned None /\ CtxDone ∈ evs) \/
  (wait_done evs = Blocked /\ CtxDone ∉ evs).
Proof.
  induction evs as [|[io|] evs IH]; cbn [wait_done].
  - right. split; [reflexivity | apply not_elem_of_nil].
  - destruct IH as [[-> Hin]|[-> Hn]].
    + left. split; [reflexivity | right; exact Hin].
    + right. split; [reflexivity|]. intros Hin.
      apply elem_of_cons in Hin as [Hin|Hin]; [discriminate | contradiction].
  - left. split; [reflexivity | left].
Qed.

Lemma loop_from_result (evs : list wake) s r s' :
  loop_from evs s = Done r s' ->
  (r = Returned None /\ CtxDone ∈ evs) \/ (r = Blocked /\ CtxDone ∉ evs).
Proof.
  revert s. induction evs as [|[io|] evs IH]; intros s; cbn [loop_from].
  - intros H. injection H as <- _. right. split; [reflexivity | apply not_elem_of_nil].
  - unfold bind. destruct (loadConfig io s) as [err s1|msg s1]; [|discriminate].
    destruct (match err with Some e => log_error e | None => ret () end s1)
      as [u s2|msg s2]; [|discriminate].
    intros H. destruct (IH s2 H) as [[-> Hin]|[-> Hn]].
    + left. split; [reflexivity | right; exact Hin].
    + right. split; [reflexivity|]. intros Hin.
      apply elem_of_cons in Hin as [Hin|Hin]; [discriminate | contradiction].
  - intros H. injection H as <- _. left. split; [reflexivity | left].
Qed.

(** X8: the run loop never returns an error.  When it returns, it returns
    nil and the context was cancelled; while the context is live it stays
    blocked.  What is offered after the cancellation it consumed is never
    looked at: no reload runs after it. *)
Theorem loop_stops_at_cancellation (pre post : list wake) s :
  loop (pre ++ CtxDone :: post) s = loop (pre ++ [CtxDone]) s /\
  forall (evs : list wake) r s',
    loop evs s = Done r s' ->
    (r = Returned None /\ CtxDone ∈ evs) \/ (r = Blocked /\ CtxDone ∉ evs).
Proof.
  split.
  - unfold loop, bind, gets. destruct (decide (LoadPath (cfg s) = "")).
    + cbn. rewrite wait_done_cut. reflexivity.
    + destruct (ReloadPeriod (cfg s) <=? 0); [reflexivity | apply loop_from_cut].
  - intros evs r s'. unfold loop, bind, gets.
    destruct (decide (LoadPath (cfg s) = "")).
    + cbn. intros H. injection H as <- _.
      apply wait_done_result.
    + destruct (ReloadPeriod (cfg s) <=? 0); [discriminate | apply loop_from_result].
Qed.

End ReloadProofs.

Section StartupProofs.

Import RuntimeConfig Reloads.
Context {V : Type}.

Implicit Types (s : State V) (io : fetch_io) (b : Bucket).

Lemma starting_unfold s io :
  LoadPath (cfg s) <> "" ->
  starting io s =
  let started := set_bucketClient (fst (bucketClientFactory s ()))
                   (set_trace (trace s ++ [EvFactory]) s) in
  match snd (bucketClientFactory s ()) with
  | Some e => Done (Some e) started
  | None =>
      bind (loadConfig io)
           (fun err => ret (Wrap err "failed to load runtime config")) started
  end.
Proof.
  intros Hp. unfold starting. unfold bind at 1. unfold gets at 1.
  destruct (decide (LoadPath (cfg s) = "")); [contradiction|].
  unfold bind at 1. unfold gets at 1. unfold bind at 1.
  unfold emit at 1, modify at 1. unfold bind at 1. unfold modify at 1.
  cbv zeta. destruct (snd (bucketClientFactory s ())); reflexivity.
Qed.

(** X9: startup with a non-empty path.  An error of the bucket client
    factory is returned as it is, before any fetch.  A factory that returns
    a nil client with a nil error makes startup panic on the first fetch.
    With a client, startup returns nil exactly when the first cycle
    succeeds, and then [GetConfig] returns the decoded value; when the first
    cycle fails, startup returns the cycle's error under the prefix "failed
    to load runtime config", the config cell is as before and nothing was
    sent to any listener. *)
Theorem starting_outcomes s io :
  LoadPath (cfg s) <> "" ->
  let started := set_bucketClient (fst (bucketClientFactory s ()))
                   (set_trace (trace s ++ [EvFactory]) s) in
  (forall e, snd (bucketClientFactory s ()) = Some e ->
     starting io s = Done (Some e) started) /\
  (bucketClientFactory s () = (None, None) ->
     starting io s =
       Crashed "invalid memory address or nil pointer dereference" started) /\
  (forall b, wf s -> bucketClientFactory s () = (Some b, None) ->
     exists err s',
       starting io s = Done err s' /\
       bucketClient s' = Some b /\
       (err = None <-> cycle_fails (Loader (cfg s)) io = false) /\
       (cycle_fails (Loader (cfg s)) io = false ->
          GetConfig s' = Done (fst (Loader (cfg s) (read_buf io))) s' /\
          configLoadSuccess s' = 1) /\
       (cycle_fails (Loader (cfg s)) io = true ->
          (exists e, err = Some ("failed to load runtime config: " ++ e)%string) /\
          config s' = config s /\ configLoadSuccess s' = 0 /\
          forall ch, sends ch (trace s') = sends ch (trace s))).
Proof.
  intros Hp started. rewrite (starting_unfold s io Hp). fold started.
  split; [|split].
  - intros e He. cbv zeta. rewrite He. reflexivity.
  - intros Hf. cbv zeta. rewrite Hf. cbn [snd]. unfold bind.
    rewrite loadConfig_nil_client; [reflexivity|].
    subst started. cbn. rewrite Hf. reflexivity.
  - intros b Hwf Hf. cbv zeta. rewrite Hf. cbn [snd].
    assert (Hwf1 : wf started).
    { apply (wf_frame s); [exact Hwf | reflexivity | reflexivity |].
      intros ch. cbn. rewrite closes_app. simpl. lia. }
    assert (Hb1 : bucketClient started = Some b).
    { subst started. cbn. rewrite Hf. reflexivity. }
    unfold bind.
    destruct (cycle_fails (Loader (cfg s)) io) eqn:Hc.
    + destruct (loadConfig_failure started io b Hb1 Hc) as [e He]. rewrite He.
      eexists _, _. split; [reflexivity|]. split; [exact Hb1|].
      split; [split; discriminate|]. split; [discriminate|]. intros _.
      split; [exists e; reflexivity|]. split; [reflexivity|]. split; [reflexivity|].
      intros ch. cbn. rewrite !sends_app.
      destruct (fetch_fails io); cbn; rewrite !app_nil_r; reflexivity.
    + destruct (cycle_succeeds _ _ Hc) as [Hfe [v Hv]].
      destruct (loadConfig_success started io b v Hwf1 Hb1 Hfe Hv) as (cs' & Hl & _).
      rewrite Hl. eexists _, _. split; [reflexivity|]. split; [exact Hb1|].
      split; [split; reflexivity|]. split; [|discriminate]. intros _.
      cbn in Hv. rewrite Hv. split; reflexivity.
Qed.

(** X10: the error a reload cycle returns names the stage that failed: "read
    file: open file: e" when the object cannot be opened, "read file: read
    entire file: e" when reading it fails, "read file: e" when closing it
    fails, "load file: e" when the decoder fails.  The decoder is called
    only after a complete fetch. *)
Theorem loadConfig_error_texts s io b :
  bucketClient s = Some b ->
  let path := LoadPath (cfg s) in
  let failed t := set_trace (trace s ++ t) (set_configLoadSuccess 0 s) in
  (forall e, get_err io = Some e ->
     loadConfig io s =
       Done (Some ("read file: open file: " ++ e)%string)
            (failed [EvGet path; EvSuccessGauge 0])) /\
  (forall e, get_err io = None -> read_err io = Some e ->
     loadConfig io s =
       Done (Some ("read file: read entire file: " ++ e)%string)
            (failed [EvGet path; EvSuccessGauge 0])) /\
  (forall e, get_err io = None -> read_err io = None -> close_err io = Some e ->
     loadConfig io s =
       Done (Some ("read file: " ++ e)%string)
            (failed [EvGet path; EvSuccessGauge 0])) /\
  (forall e, fetch_fails io = false ->
     snd (Loader (cfg s) (read_buf io)) = Some e ->
     loadConfig io s =
       Done (Some ("load file: " ++ e)%string)
            (failed [EvGet path; EvLoader (read_buf io); EvSuccessGauge 0])).
Proof.
  intros Hb path failed. split; [|split; [|split]].
  - intros e He.
    rewrite (loadConfig_fetch_error s io b ("open file: " ++ e)%string Hb).
    + reflexivity.
    + unfold fetch_result. rewrite He. reflexivity.
  - intros e Hg He.
    rewrite (loadConfig_fetch_error s io b ("read entire file: " ++ e)%string Hb).
    + reflexivity.
    + unfold fetch_result. rewrite Hg, He. reflexivity.
  - intros e Hg Hr He.
    rewrite (loadConfig_fetch_error s io b e Hb).
    + reflexivity.
    + unfold fetch_result. rewrite Hg, Hr, He. reflexivity.
  - intros e Hf He. rewrite (loadConfig_decode_error s io b e Hb Hf He). reflexivity.
Qed.

(** [New] with a registerer that takes both gauges builds the manager that
    [New] builds with the nil registerer. *)
Lemma New_with_accepted (fs : string) (R : Type) (Register : Collector -> R -> R * error)
    (r r' : Registerer R) (c : Config V) (factory : BucketClientFactory) :
  LoadPath c <> "" ->
  accepts Register r r' ->
  exists s0,
    New_with fs Register r c factory = Ret (Some s0, None, r') /\
    New fs c factory = (Some s0, None).
Proof.
  intros Hp Hacc. unfold New_with, New.
  destruct (decide (LoadPath c = "")); [contradiction|]. cbv zeta.
  destruct r as [st|]; cbn in Hacc.
  - destruct Hacc as (H1 & H2 & ->). unfold MustRegister.
    destruct (Register configLoadSuccess_gauge st) as [st1 e1]. cbn in H1, H2 |- *.
    subst e1. destruct (Register configHash_gauge st1) as [st2 e2]. cbn in H2 |- *.
    subst e2. eexists. split; reflexivity.
  - subst r'. cbn. eexists. split; reflexivity.
Qed.

(** X11: [New] with a non-empty path hands its two gauges to the registerer,
    the success gauge first, and panics with the registerer's error when
    either is refused.  With the nil registerer, or one that takes both, it
    builds an idle manager, keeping path, period and decoder and defaulting
    an empty storage backend to the filesystem; [GetConfig] on it returns
    nil.  Started with a working factory that manager ends up serving the
    first decoded value with success gauge 1 and the content hash as its
    only hash label when the first cycle succeeds, and reports an error,
    still serving nil, when it fails. *)
Theorem New_then_starting (fs : string) (R : Type) (Register : Collector -> R -> R * error)
    (r : Registerer R) (c : Config V) (factory : BucketClientFactory) io b :
  LoadPath c <> "" ->
  factory () = (Some b, None) ->
  (forall st msg,
     r = Some st ->
     snd (Register configLoadSuccess_gauge st) = Some msg ->
     New_with fs Register r c factory = Panic msg) /\
  (forall st msg,
     r = Some st ->
     snd (Register configLoadSuccess_gauge st) = None ->
     snd (Register configHash_gauge (fst (Register configLoadSuccess_gauge st))) = Some msg ->
     New_with fs Register r c factory = Panic msg) /\
  (forall r',
   accepts Register r r' ->
   exists s0,
    New_with fs Register r c factory = Ret (Some s0, None, r') /\
    GetConfig s0 = Done None s0 /\
    listeners s0 = [] /\
    LoadPath (cfg s0) = LoadPath c /\ ReloadPeriod (cfg s0) = ReloadPeriod c /\
    Loader (cfg s0) = Loader c /\
    Backend (StorageConfig (cfg s0)) =
      (if decide (Backend (StorageConfig c) = "") then fs
       else Backend (StorageConfig c)) /\
    exists err s',
      starting io s0 = Done err s' /\
      listeners s' = [] /\
      (cycle_fails (Loader c) io = false ->
         err = None /\
         GetConfig s' = Done (fst (Loader c (read_buf io))) s' /\
         configLoadSuccess s' = 1 /\
         configHash s' = {[ Sha256.hex (Sha256.Sum256 (read_buf io)) := 1 ]}) /\
      (cycle_fails (Loader c) io = true ->
         err <> None /\ GetConfig s' = Done None s' /\ configLoadSuccess s' = 0 /\
         configHash s' = ∅)).
Proof.
  intros Hp Hf. split; [|split].
  { intros st msg -> H. unfold New_with, MustRegister.
    destruct (decide (LoadPath c = "")); [contradiction|]. cbv zeta.
    destruct (Register configLoadSuccess_gauge st) as [st1 [e1|]]; cbn in H |- *;
      [injection H as ->; reflexivity | discriminate]. }
  { intros st msg -> H1 H2. unfold New_with, MustRegister.
    destruct (decide (LoadPath c = "")); [contradiction|]. cbv zeta.
    destruct (Register configLoadSuccess_gauge st) as [st1 e1]. cbn in H1, H2 |- *.
    subst e1. destruct (Register configHash_gauge st1) as [st2 [e2|]]; cbn in H2 |- *;
      [injection H2 as ->; reflexivity | discriminate]. }
  intros r' Hacc.
  destruct (New_with_accepted fs R Register r r' c factory Hp Hacc) as (s0' & HNw & HN).
  exists s0'. split; [exact HNw|]. clear HNw.
  unfold New in HN. destruct (decide (LoadPath c = "")); [contradiction|].
  injection HN as HN. symmetry in HN. revert HN.
  match goal with |- s0' = ?x -> _ => set (s0 := x) end. intros ->.
  split; [reflexivity|]. split; [reflexivity|].
  assert (Hcfg : LoadPath (cfg s0) = LoadPath c /\ ReloadPeriod (cfg s0) = ReloadPeriod c /\
                 Loader (cfg s0) = Loader c /\
                 Backend (StorageConfig (cfg s0)) =
                   (if decide (Backend (StorageConfig c) = "") then fs
                    else Backend (StorageConfig c))).
  { subst s0. cbn. destruct (decide (Backend (StorageConfig c) = "")); repeat split. }
  destruct Hcfg as (E1 & E2 & E3 & E4).
  split; [exact E1|]. split; [exact E2|]. split; [exact E3|]. split; [exact E4|].
  assert (Hwf : wf s0).
  { constructor; cbn.
    - apply NoDup_nil_2.
    - intros ch. split; [intros H; apply elem_of_nil in H; contradiction | discriminate].
    - reflexivity. }
  assert (Hp0 : LoadPath (cfg s0) <> "") by (rewrite E1; exact Hp).
  rewrite (starting_unfold s0 io Hp0). cbv zeta.
  change (bucketClientFactory s0 ()) with (factory ()). rewrite Hf. cbn [fst snd].
  set (started := set_bucketClient _ _).
  assert (Hwf1 : wf started).
  { apply (wf_frame s0); [exact Hwf | reflexivity | reflexivity |].
    intros ch. cbn. reflexivity. }
  assert (Hb1 : bucketClient started = Some b) by reflexivity.
  assert (Hl : Loader (cfg started) = Loader c) by exact E3.
  unfold bind. destruct (cycle_fails (Loader c) io) eqn:Hc.
  - rewrite <- Hl in Hc.
    destruct (loadConfig_failure started io b Hb1 Hc) as [e He]. rewrite He.
    eexists _, _. split; [reflexivity|]. split; [reflexivity|].
    split; [discriminate|]. intros _. split; [discriminate|]. repeat split.
  - rewrite <- Hl in Hc. destruct (cycle_succeeds _ _ Hc) as [Hfe [v Hv]].
    destruct (loadConfig_success started io b v Hwf1 Hb1 Hfe Hv) as (cs' & Hld & _).
    rewrite Hld. eexists _, _. split; [reflexivity|]. split; [reflexivity|].
    split; [|discriminate]. intros _. rewrite Hl in Hv. rewrite Hv. repeat split.
Qed.

End StartupProofs.

(** ** pkg/util/runtimeconfig: the listener registry *)

Section RegistryProofs.

Import RuntimeConfig Reloads.
Context {V : Type}.

Implicit Types (s : State V) (ch : chan_id).

(** X12: [CreateListenerChannel] with a buffer that is negative or above
    the largest size [makechan] accepts panics and leaves the manager
    untouched.  With a buffer in range it returns a handle that was neither
    registered nor in use before, registers it last, and the new channel is
    open and empty with the requested capacity; the other channels, the
    config cell and the log are as before. *)
Theorem CreateListenerChannel_fresh s (buffer : Z) :
  wf s ->
  (buffer < 0 \/ max_buffer < buffer ->
   CreateListenerChannel buffer s = Crashed "makechan: size out of range" s) /\
  (0 <= buffer <= max_buffer ->
   exists ch s',
     CreateListenerChannel buffer s = Done ch s' /\
     (ch ∉ listeners s) /\ chans s !! ch = None /\
     listeners s' = listeners s ++ [ch] /\
     chans s' !! ch = Some (mkChan (Z.to_nat buffer) [] false 0 []) /\
     (forall ch', ch' <> ch -> chans s' !! ch' = chans s !! ch') /\
     wf s' /\ config s' = config s /\ trace s' = trace s).
Proof.
  intros Hwf. split.
  - intros Hout. apply CreateListenerChannel_panics.
    destruct (size_out_of_range buffer) eqn:Hsz; [reflexivity|].
    apply size_out_of_range_spec in Hsz. lia.
  - intros Hpos. apply size_out_of_range_spec in Hpos.
    pose proof (preserves_CreateListenerChannel buffer s Hwf) as [Hwf' _].
    rewrite (CreateListenerChannel_spec s buffer Hpos) in *. cbn [final] in Hwf'.
    eexists _, _. split; [reflexivity|]. split; [|split; [|split; [reflexivity|]]].
    + intros Hin. exact (Nat.lt_irrefl _ (wf_listener_lt s _ Hwf Hin)).
    + apply lookup_ge_None_2. exact (Nat.le_refl _).
    + split; [|split; [|split; [exact Hwf'|split; reflexivity]]].
      * cbn. apply list_lookup_middle. reflexivity.
      * intros ch' Hne. cbn.
        destruct (decide (ch' < length (chans s))%nat) as [Hlt|Hge].
        -- apply lookup_app_l. exact Hlt.
        -- transitivity (@None (Chan V)).
           ++ apply lookup_ge_None_2. rewrite length_app. cbn. lia.
           ++ symmetry. apply lookup_ge_None_2. lia.
Qed.

Lemma listeners_snoc_index (l : list chan_id) (ch : chan_id) (ix : nat) :
  NoDup (l ++ [ch]) -> (l ++ [ch]) !! ix = Some ch -> ix = length l.
Proof.
  intros Hnd Hix. apply (NoDup_lookup _ _ _ ch Hnd Hix).
  apply list_lookup_middle. reflexivity.
Qed.

(** X13: subscribing with a buffer size [makechan] accepts and then
    unsubscribing with the returned handle puts the registry back exactly
    as it was; the channel made in between ends up closed without ever
    having been sent a value. *)
Theorem subscribe_unsubscribe_roundtrip s (buffer : Z) :
  wf s -> 0 <= buffer <= max_buffer ->
  exists ch s1 s2,
    CreateListenerChannel buffer s = Done ch s1 /\
    CloseListenerChannel ch s1 = Done () s2 /\
    listeners s2 = listeners s /\
    chans s2 = chans s ++ [mkChan (Z.to_nat buffer) [] true 0 []] /\
    trace s2 = trace s ++ [EvClose ch] /\
    sends ch (trace s2) = sends ch (trace s) /\
    wf s2.
Proof.
  intros Hwf Hpos. apply size_out_of_range_spec in Hpos.
  pose proof (preserves_CreateListenerChannel buffer s Hwf) as [Hwf1 _].
  rewrite (CreateListenerChannel_spec s buffer Hpos) in Hwf1. cbn [final] in Hwf1.
  set (ch := length (chans s)) in *.
  set (s1 := set_listeners _ _) in Hwf1.
  assert (Hin : ch ∈ listeners s1).
  { cbn. apply elem_of_app. right. left. }
  pose proof (preserves_CloseListenerChannel ch s1 Hwf1) as [Hwf2 _].
  destruct (CloseListenerChannel_present s1 ch Hwf1 Hin) as (ix & c & Hix & Hc & Hcl & Hrun).
  rewrite Hrun in Hwf2. cbn [final] in Hwf2.
  assert (Eix : ix = length (listeners s)).
  { apply (listeners_snoc_index _ ch); [apply (wf_nodup Hwf1) | exact Hix]. }
  assert (Ec : c = mkChan (Z.to_nat buffer) [] false 0 []).
  { cbn in Hc. rewrite list_lookup_middle in Hc by reflexivity. congruence. }
  exists ch, s1. eexists. split; [apply CreateListenerChannel_spec, Hpos|].
  split; [exact Hrun|]. subst ix c. cbn. split; [|split; [|split; [reflexivity|split]]].
  - rewrite take_app_length, drop_ge; [apply app_nil_r|].
    rewrite length_app. cbn. lia.
  - rewrite insert_app_r_alt by (unfold ch; lia).
    unfold ch. rewrite Nat.sub_diag. reflexivity.
  - rewrite sends_app. apply app_nil_r.
  - exact Hwf2.
Qed.

(** X14: once a listener was unsubscribed, no history of the manager sends
    on its channel or closes it again, and it never comes back into the
    registry. *)
Theorem unsubscribed_listener_stays_quiet s (l : chan_id) (ops : list op) :
  wf s -> l ∈ listeners s ->
  exists s1,
    CloseListenerChannel l s = Done () s1 /\
    let s2 := final (run ops s1) in
    sends l (trace s2) = sends l (trace s) /\
    closes l (trace s2) = 1%nat /\
    (l ∉ listeners s2) /\
    dead s2 l.
Proof.
  intros Hwf Hin.
  pose proof (preserves_CloseListenerChannel l s Hwf) as [Hwf1 _].
  destruct (CloseListenerChannel_present s l Hwf Hin) as (ix & c & Hix & Hc & Hcl & Hrun).
  rewrite Hrun in Hwf1. cbn [final] in Hwf1.
  eexists. split; [exact Hrun|]. intros s2. subst s2.
  match goal with |- context [run ops ?x] => set (s1 := x) in * end.
  assert (Hdead : dead s1 l).
  { unfold dead. cbn. rewrite list_fmap_insert.
    apply list_lookup_insert_eq. rewrite length_fmap. by eapply lookup_lt_Some. }
  destruct (preserves_run ops s1 Hwf1) as [Hwf2 Hkeep].
  destruct (Hkeep l Hdead) as [Hdead2 [Hs Hcl2]].
  split; [|split; [|split; [apply (wf_dead_not_listener _ l Hwf2 Hdead2) | exact Hdead2]]].
  - rewrite Hs. cbn. rewrite sends_app. apply app_nil_r.
  - rewrite Hcl2. cbn. rewrite closes_app, (wf_closes Hwf l), list_lookup_fmap, Hc.
    cbn. rewrite Hcl. destruct (decide (l = l)); [reflexivity | congruence].
Qed.

(** X15: [stopping] can run twice: the second run returns nil and changes
    nothing.  Stopping touches neither the config cell nor the gauges, so
    [GetConfig] keeps returning the last loaded value after shutdown. *)
Theorem stopping_twice s (err err' : error) :
  wf s ->
  exists s',
    stopping err s = Done None s' /\
    stopping err' s' = Done None s' /\
    GetConfig s' = Done (config s) s' /\
    configLoadSuccess s' = configLoadSuccess s /\
    configHash s' = configHash s.
Proof.
  intros Hwf. destruct (stopping_spec s err Hwf) as (cs' & Hstop & _).
  eexists. split; [exact Hstop|]. split; [|repeat split].
  unfold stopping, bind, gets, modify, ret. cbn. reflexivity.
Qed.

End RegistryProofs.

(** ** pkg/util/runtimeconfig: what travels through the channels *)

Section ChannelProofs.

Import RuntimeConfig Reloads.
Context {V : Type}.

Implicit Types (s : State V) (ch : chan_id) (v : iface V).

Lemma chan_ok_same_chans s s' :
  chan_ok s -> chans s' = chans s ->
  (forall ch, sends ch (trace s') = sends ch (trace s)) ->
  chan_ok s'.
Proof.
  intros H Hc Ht ch. specialize (H ch). rewrite Hc, Ht. exact H.
Qed.

Lemma keeps_chan_emit (e : event V) :
  (forall ch, sends ch [e] = []) -> keeps chan_ok (emit e).
Proof.
  intros He s H. apply (chan_ok_same_chans s); [exact H | reflexivity|].
  intros ch. cbn. rewrite sends_app, He. apply app_nil_r.
Qed.

Lemma keeps_chan_modify (f : State V -> State V) :
  (forall s, chans (f s) = chans s /\ trace (f s) = trace s) ->
  keeps chan_ok (modify f).
Proof.
  intros Hf s H. destruct (Hf s) as [Hc Ht].
  apply (chan_ok_same_chans s); [exact H | exact Hc|].
  intros ch. cbn. rewrite Ht. reflexivity.
Qed.

(** Replacing the cell of [ch] and logging [e]. *)
Lemma chan_ok_update s ch (c c' : Chan V) (e : event V) :
  chan_ok s -> chans s !! ch = Some c ->
  (forall ch', ch' <> ch -> sends ch' [e] = []) ->
  ((length (buf c') <= cap c')%nat /\
   ((0 < recvq c')%nat -> buf c' = []) /\
   taken c' ++ buf c' = sends ch (trace s) ++ sends ch [e]) ->
  chan_ok (set_trace (trace s ++ [e]) (set_chans (<[ch := c']> (chans s)) s)).
Proof.
  intros H Hc He Hnew ch'. cbn. rewrite sends_app.
  destruct (decide (ch' = ch)) as [->|Hne].
  - rewrite list_lookup_insert_eq by (by eapply lookup_lt_Some). exact Hnew.
  - rewrite list_lookup_insert_ne by congruence. rewrite (He ch' Hne), app_nil_r.
    apply H.
Qed.

Lemma keeps_chan_try_send ch v : keeps chan_ok (try_send ch v).
Proof.
  intros s H. unfold try_send. destruct (chans s !! ch) as [c|] eqn:Hc.
  - destruct (closed c); [exact H|].
    pose proof (H ch) as Hch. rewrite Hc in Hch. destruct Hch as (Hlen & Hpark & Hlog).
    unfold ready, deliver. destruct (0 <? recvq c)%nat eqn:Hq; cbn [orb].
    + unfold bind, modify, emit, modify, ret. cbn [final].
      apply (chan_ok_update s ch c); [exact H | exact Hc | |].
      * intros ch' Hne. cbn. destruct (decide (ch = ch')); [congruence | reflexivity].
      * apply Nat.ltb_lt in Hq. rewrite (Hpark Hq) in *. cbn.
        destruct (decide (ch = ch)); [|congruence].
        split; [lia|]. split; [reflexivity|]. rewrite !app_nil_r in *. by rewrite Hlog.
    + destruct (length (buf c) <? cap c)%nat eqn:Hroom.
      * unfold bind, modify, emit, modify, ret. cbn [final].
        apply (chan_ok_update s ch c); [exact H | exact Hc | |].
        -- intros ch' Hne. cbn. destruct (decide (ch = ch')); [congruence | reflexivity].
        -- apply Nat.ltb_lt in Hroom. apply Nat.ltb_ge in Hq. cbn.
           destruct (decide (ch = ch)); [|congruence].
           split; [rewrite length_app; cbn; lia|]. split; [lia|].
           rewrite app_assoc, Hlog. reflexivity.
      * refine (keeps_bind chan_ok _ _ (keeps_chan_emit (EvDrop ch v) _) _ s H).
        -- intros ch'. reflexivity.
        -- intros _. apply keeps_ret.
  - refine (keeps_bind chan_ok _ _ (keeps_chan_emit (EvDrop ch v) _) _ s H).
    + intros ch'. reflexivity.
    + intros _. apply keeps_ret.
Qed.

Lemma keeps_chan_close_chan ch : keeps (V := V) chan_ok (close_chan ch).
Proof.
  intros s H. unfold close_chan. destruct (chans s !! ch) as [c|] eqn:Hc; [|exact H].
  destruct (closed c); [exact H|].
  pose proof (H ch) as Hch. rewrite Hc in Hch. destruct Hch as (Hlen & Hpark & Hlog).
  unfold bind, modify, emit, modify. cbn [final].
  apply (chan_ok_update s ch c); [exact H | exact Hc | |].
  - intros ch' Hne. reflexivity.
  - cbn. rewrite app_nil_r. split; [exact Hlen|]. split; [lia | exact Hlog].
Qed.

Lemma chan_ok_replace s ch (c c' : Chan V) :
  chan_ok s -> chans s !! ch = Some c ->
  ((length (buf c') <= cap c')%nat /\
   ((0 < recvq c')%nat -> buf c' = []) /\
   taken c' ++ buf c' = taken c ++ buf c) ->
  chan_ok (set_chans (<[ch := c']> (chans s)) s).
Proof.
  intros H Hc (H1 & H2 & H3) ch'. cbn.
  destruct (decide (ch' = ch)) as [->|Hne].
  - rewrite list_lookup_insert_eq by (by eapply lookup_lt_Some).
    pose proof (H ch) as Hch. rewrite Hc in Hch. destruct Hch as (_ & _ & Hlog).
    split; [exact H1|]. split; [exact H2 | congruence].
  - rewrite list_lookup_insert_ne by congruence. apply H.
Qed.

Lemma keeps_chan_recv ch : keeps (V := V) chan_ok (recv ch).
Proof.
  intros s H. unfold recv. destruct (chans s !! ch) as [c|] eqn:Hc; [|exact H].
  pose proof (H ch) as Hch. rewrite Hc in Hch. destruct Hch as (Hlen & Hpark & Hlog).
  destruct (buf c) as [|x rest] eqn:Hbuf.
  - destruct (closed c); [exact H|]. cbn [final].
    apply (chan_ok_replace s ch c); [exact H | exact Hc|]. cbn. rewrite Hbuf.
    split; [lia|]. split; reflexivity.
  - cbn [final]. apply (chan_ok_replace s ch c); [exact H | exact Hc|]. cbn.
    rewrite Hbuf. cbn in Hlen. split; [lia|]. split.
    + intros Hq. specialize (Hpark Hq). discriminate.
    + rewrite <- app_assoc. reflexivity.
Qed.

Lemma keeps_chan_CreateListenerChannel (buffer : Z) :
  keeps (V := V) chan_ok (CreateListenerChannel buffer).
Proof.
  intros s H. destruct (size_out_of_range buffer) eqn:Hpos.
  - rewrite (CreateListenerChannel_panics s buffer Hpos). exact H.
  - rewrite (CreateListenerChannel_spec s buffer Hpos). cbn [final]. intros ch. cbn.
    pose proof (H ch) as Hch.
    destruct (decide (ch < length (chans s))%nat) as [Hlt|Hge].
    + rewrite lookup_app_l by exact Hlt. exact Hch.
    + rewrite lookup_ge_None_2 in Hch by lia.
      rewrite lookup_app_r by lia.
      destruct (ch - length (chans s))%nat as [|k]; cbn.
      * split; [lia|]. split; [reflexivity|]. symmetry. exact Hch.
      * destruct k; exact Hch.
Qed.

Ltac keeps_chan_step :=
  lazymatch goal with
  | |- keeps _ (ret _) => apply keeps_ret
  | |- keeps _ (panic _) => apply keeps_panic
  | |- keeps _ (try_send _ _) => apply keeps_chan_try_send
  | |- keeps _ (close_chan _) => apply keeps_chan_close_chan
  | |- keeps _ (recv _) => apply keeps_chan_recv
  | |- keeps _ (CreateListenerChannel _) => apply keeps_chan_CreateListenerChannel
  | |- keeps _ (emit _) => apply keeps_chan_emit; intros; reflexivity
  | |- keeps _ (modify _) => apply keeps_chan_modify; intros; split; reflexivity
  | |- keeps _ (bind (gets _) _) => apply keeps_gets_bind; intros
  | |- keeps _ (bind _ _) => apply keeps_bind; [|intros]
  end.

Lemma keeps_chan_send_each (chs : list chan_id) v : keeps chan_ok (send_each chs v).
Proof. induction chs as [|ch chs IH]; cbn [send_each]; repeat keeps_chan_step. exact IH. Qed.

Lemma keeps_chan_close_each (chs : list chan_id) : keeps (V := V) chan_ok (close_each chs).
Proof. induction chs as [|ch chs IH]; cbn [close_each]; repeat keeps_chan_step. exact IH. Qed.

Lemma keeps_chan_loadConfig io : keeps (V := V) chan_ok (loadConfig io).
Proof.
  unfold loadConfig, loadConfigFromBucket. apply keeps_bind.
  - apply keeps_gets_bind. intros [b|]; [|apply keeps_panic].
    repeat keeps_chan_step.
    destruct (get_err io); [apply keeps_ret|]. destruct (read_err io); apply keeps_ret.
  - intros [data err]. cbn [fst snd]. destruct err as [e|].
    + unfold set_success. repeat keeps_chan_step.
    + apply keeps_gets_bind. intros load. apply keeps_bind; [keeps_chan_step|]. intros _.
      cbv zeta. destruct (snd (load data)).
      * unfold set_success. repeat keeps_chan_step.
      * unfold set_success, setConfig, callListeners, hash_Reset, hash_Set.
        repeat keeps_chan_step. apply keeps_chan_send_each.
Qed.

Lemma keeps_chan_loop_from (evs : list wake) : keeps (V := V) chan_ok (loop_from evs).
Proof.
  induction evs as [|[io|] evs IH]; cbn [loop_from]; try apply keeps_ret.
  apply keeps_bind; [apply keeps_chan_loadConfig|]. intros err.
  apply keeps_bind; [|intros _; exact IH].
  destruct err; [unfold log_error|]; keeps_chan_step.
Qed.

Lemma keeps_chan_exec (o : op) : keeps (V := V) chan_ok (exec o).
Proof.
  destruct o; cbn [exec].
  - unfold starting. apply keeps_bind; [|intros; apply keeps_ret].
    apply keeps_gets_bind. intros path. destruct (decide (path = "")); [apply keeps_ret|].
    apply keeps_gets_bind. intros factory. repeat keeps_chan_step.
    destruct (snd (factory ())); [apply keeps_ret|].
    apply keeps_bind; [apply keeps_chan_loadConfig | intros; apply keeps_ret].
  - unfold loop. apply keeps_bind; [|intros; apply keeps_ret].
    apply keeps_gets_bind. intros c. destruct (decide (LoadPath c = "")).
    + repeat keeps_chan_step.
    + destruct (ReloadPeriod c <=? 0); [apply keeps_panic | apply keeps_chan_loop_from].
  - apply keeps_bind; [apply keeps_chan_loadConfig | intros; apply keeps_ret].
  - repeat keeps_chan_step.
  - unfold CloseListenerChannel. apply keeps_gets_bind. intros chs.
    destruct (index_of listener chs); repeat keeps_chan_step.
  - unfold GetConfig. apply keeps_gets_bind. intros. apply keeps_ret.
  - apply keeps_chan_recv.
  - unfold stopping. apply keeps_bind; [|intros; apply keeps_ret].
    apply keeps_gets_bind. intros chs.
    apply keeps_bind; [apply keeps_chan_close_each|]. intros _. repeat keeps_chan_step.
Qed.

Lemma keeps_chan_run (ops : list op) : keeps (V := V) chan_ok (run ops).
Proof.
  induction ops as [|o ops IH]; cbn [run]; [apply keeps_ret|].
  apply keeps_bind; [apply keeps_chan_exec | intros _; exact IH].
Qed.

Lemma chan_ok_New (fs : string) (c : Config V) (factory : BucketClientFactory) s0 :
  New fs c factory = (Some s0, None) -> chan_ok s0.
Proof.
  unfold New. destruct (decide (LoadPath c = "")); [discriminate|].
  intros H. injection H as <-. intros ch. reflexivity.
Qed.

(** X16: in every state a manager built by [New] can reach, every listener
    channel is a bounded queue that loses and reorders nothing it accepted:
    its buffer holds at most its capacity, a receiver is parked on it only
    while the buffer is empty, and the values its subscriber has taken
    followed by the values still buffered are exactly the values sent on it,
    in the order they were sent. *)
Theorem channels_are_bounded_queues
    (fs : string) (c : Config V) (factory : BucketClientFactory) s0 (ops : list op) :
  New fs c factory = (Some s0, None) ->
  let s := final (run ops s0) in
  forall ch (q : Chan V), chans s !! ch = Some q ->
    (length (buf q) <= cap q)%nat /\
    ((0 < recvq q)%nat -> buf q = []) /\
    taken q ++ buf q = sends ch (trace s).
Proof.
  intros H s ch q Hq.
  pose proof (keeps_chan_run ops s0 (chan_ok_New fs c factory s0 H) ch) as Hch.
  fold s in Hch. rewrite Hq in Hch. exact Hch.
Qed.

End ChannelProofs.

Section OrderProofs.

Import RuntimeConfig Reloads.
Context {V : Type}.

Implicit Types (s : State V) (ch : chan_id) (v : iface V).

Lemma configs_app (t1 t2 : list (event V)) : configs (t1 ++ t2) = configs t1 ++ configs t2.
Proof.
  induction t1 as [|e t1 IH]; [reflexivity|].
  destruct e; cbn; rewrite ?IH; reflexivity.
Qed.

Lemma configs_publish (chs : list chan_id) v (cs : list (Chan V)) :
  configs (publish_events chs v cs) = [].
Proof.
  induction chs as [|c chs IH]; [reflexivity|].
  unfold publish_events in *. rewrite fmap_cons.
  destruct (cs !! c) as [x|]; [destruct (ready x)|]; cbn; exact IH.
Qed.

Lemma configs_fmap_close (chs : list chan_id) : configs (V := V) (EvClose <$> chs) = [].
Proof. induction chs as [|c chs IH]; [reflexivity | rewrite fmap_cons; exact IH]. Qed.

Lemma steady_same s s' :
  steady s -> wf s' ->
  (forall ch, sends ch (trace s') = sends ch (trace s)) ->
  configs (trace s') = configs (trace s) ->
  steady s'.
Proof.
  intros [_ Ho] Hwf Hs Hc. split; [exact Hwf|]. intros ch. rewrite Hs, Hc. apply Ho.
Qed.

Lemma steady_muted s (t : list (event V)) s' :
  steady s -> wf s' -> trace s' = trace s ++ t ->
  (forall ch, sends ch t = []) -> configs t = [] ->
  steady s'.
Proof.
  intros Hst Hwf Ht Hs Hc. apply (steady_same s); [exact Hst | exact Hwf | |].
  - intros ch. rewrite Ht, sends_app, Hs. apply app_nil_r.
  - rewrite Ht, configs_app, Hc. apply app_nil_r.
Qed.

Lemma keeps_steady_loadConfig io : keeps (V := V) steady (loadConfig io).
Proof.
  intros s Hst. pose proof Hst as [Hwf Ho].
  pose proof (preserves_loadConfig io s Hwf) as [Hwf' _].
  destruct (bucketClient s) as [b|] eqn:Hb.
  2:{ rewrite (loadConfig_nil_client s io Hb). exact Hst. }
  destruct (cycle_fails (Loader (cfg s)) io) eqn:Hc.
  - destruct (loadConfig_failure s io b Hb Hc) as [e He]. rewrite He in *.
    cbn [final] in *. eapply (steady_muted s); [exact Hst | exact Hwf' | reflexivity | |].
    + intros ch. destruct (fetch_fails io); reflexivity.
    + destruct (fetch_fails io); reflexivity.
  - destruct (cycle_succeeds _ _ Hc) as [Hf [v Hv]].
    destruct (loadConfig_success s io b v Hwf Hb Hf Hv) as (cs' & Hl & _).
    rewrite Hl in *. cbn [final] in *. split; [exact Hwf'|].
    intros ch. cbn [trace].
    rewrite !sends_app, !configs_app, configs_publish. cbn [sends configs app].
    rewrite app_nil_r. apply sublist_app; [apply Ho|].
    destruct (decide (ch ∈ listeners s)) as [Hin|Hn].
    + destruct (wf_listener_chan s ch Hwf Hin) as (c & Hch & _).
      rewrite (sends_publish_in ch _ v _ c (wf_nodup Hwf) Hin Hch).
      destruct (ready c); [reflexivity | apply sublist_nil_l].
    + rewrite sends_publish_notin by exact Hn. apply sublist_nil_l.
Qed.

Lemma keeps_steady_logged err s : steady s -> steady (logged err s).
Proof.
  intros Hst. destruct err as [e|]; [|exact Hst].
  eapply (steady_muted s); [exact Hst | apply (wf_logged (Some e)), Hst | reflexivity | |].
  - intros ch. reflexivity.
  - reflexivity.
Qed.

Lemma keeps_steady_loop_from (evs : list wake) : keeps (V := V) steady (loop_from evs).
Proof.
  induction evs as [|[io|] evs IH]; intros s Hst; [exact Hst | | exact Hst].
  pose proof (keeps_steady_loadConfig io s Hst) as H1.
  destruct (loadConfig io s) as [err s1|msg s1] eqn:Hl.
  - rewrite (loop_from_tick io evs s err s1 Hl). apply IH, keeps_steady_logged, H1.
  - cbn [loop_from]. unfold bind. rewrite Hl. exact H1.
Qed.

Lemma keeps_steady_exec (o : op) : keeps (V := V) steady (exec o).
Proof.
  intros s Hst. pose proof Hst as [Hwf Ho].
  pose proof (preserves_exec o s Hwf) as [Hwf' _].
  destruct o; cbn [exec] in *.
  - (* starting *)
    unfold bind at 1. destruct (decide (LoadPath (cfg s) = "")) as [Hp|Hp].
    + unfold starting, bind, gets. destruct (decide (LoadPath (cfg s) = "")); [|contradiction].
      exact Hst.
    + rewrite (starting_unfold s io Hp). cbv zeta.
      set (started := set_bucketClient _ _).
      assert (Hst1 : steady started).
      { eapply (steady_muted s); [exact Hst | | reflexivity | |].
        - apply (wf_frame s); [exact Hwf | reflexivity | reflexivity |].
          intros ch. cbn. rewrite closes_app. simpl. lia.
        - intros ch. reflexivity.
        - reflexivity. }
      destruct (snd (bucketClientFactory s ())); [exact Hst1|].
      pose proof (keeps_steady_loadConfig io started Hst1) as H1. unfold bind.
      destruct (loadConfig io started); exact H1.
  - (* loop *)
    unfold bind at 1. unfold loop, bind, gets.
    destruct (decide (LoadPath (cfg s) = "")).
    + cbn. eapply (steady_muted s); [exact Hst | | reflexivity | |].
      * apply (wf_frame s); [exact Hwf | reflexivity | reflexivity |].
        intros ch. cbn. rewrite closes_app. simpl. lia.
      * intros ch. reflexivity.
      * reflexivity.
    + destruct (ReloadPeriod (cfg s) <=? 0); [exact Hst|].
      pose proof (keeps_steady_loop_from evs s Hst) as H1.
      destruct (loop_from evs s); exact H1.
  - (* loadConfig *)
    pose proof (keeps_steady_loadConfig io s Hst) as H1. unfold bind.
    destruct (loadConfig io s); exact H1.
  - (* CreateListenerChannel *)
    unfold bind in *. destruct (size_out_of_range buffer) eqn:Hpos.
    + rewrite (CreateListenerChannel_panics s buffer Hpos). exact Hst.
    + rewrite (CreateListenerChannel_spec s buffer Hpos) in *. cbn [final] in *.
      apply (steady_same s); [exact Hst | exact Hwf' | reflexivity | reflexivity].
  - (* CloseListenerChannel *)
    destruct (decide (listener ∈ listeners s)) as [Hin|Hn].
    + destruct (CloseListenerChannel_present s listener Hwf Hin) as (ix & c & _ & _ & _ & Hr).
      rewrite Hr in *. cbn [final] in *.
      eapply (steady_muted s); [exact Hst | exact Hwf' | reflexivity | |].
      * intros ch. reflexivity.
      * reflexivity.
    + rewrite (CloseListenerChannel_absent s listener Hn). exact Hst.
  - (* GetConfig *)
    exact Hst.
  - (* recv *)
    unfold recv in *. destruct (chans s !! ch) as [c|]; [|exact Hst].
    destruct (buf c); [destruct (closed c)|]; cbn [final] in *;
      try exact Hst;
      (apply (steady_same s); [exact Hst | exact Hwf' | reflexivity | reflexivity]).
  - (* stopping *)
    unfold bind in *. destruct (stopping_spec s err Hwf) as (cs' & Hr & _).
    rewrite Hr in *. cbn [final] in *.
    eapply (steady_muted s); [exact Hst | exact Hwf' | reflexivity | |].
    + intros ch. apply sends_fmap_close.
    + apply configs_fmap_close.
Qed.

Lemma keeps_steady_run (ops : list op) : keeps (V := V) steady (run ops).
Proof.
  induction ops as [|o ops IH]; cbn [run]; [apply keeps_ret|].
  apply keeps_bind; [apply keeps_steady_exec | intros _; exact IH].
Qed.

Lemma steady_New (fs : string) (c : Config V) (factory : BucketClientFactory) s0 :
  New fs c factory = (Some s0, None) -> steady s0.
Proof.
  intros H. split; [apply (wf_New fs c factory s0 H)|].
  unfold New in H. destruct (decide (LoadPath c = "")); [discriminate|].
  injection H as <-. intros ch. cbn. apply sublist_nil_l.
Qed.

(** X17: in every state a manager built by [New] can reach, what a
    subscriber has taken from its channel followed by what is still
    buffered there is a subsequence, in order, of the values that were
    stored in the config cell: a listener may miss values, but it never
    sees a value that was not loaded, nor two values out of order. *)
Theorem listeners_see_a_subsequence_of_configs
    (fs : string) (c : Config V) (factory : BucketClientFactory) s0 (ops : list op) :
  New fs c factory = (Some s0, None) ->
  let s := final (run ops s0) in
  forall ch (q : Chan V), chans s !! ch = Some q ->
    (taken q ++ buf q) `sublist_of` configs (trace s).
Proof.
  intros H s ch q Hq.
  pose proof (keeps_chan_run ops s0 (chan_ok_New fs c factory s0 H) ch) as Hch.
  pose proof (keeps_steady_run ops s0 (steady_New fs c factory s0 H)) as [_ Ho].
  fold s in Hch, Ho. rewrite Hq in Hch. destruct Hch as (_ & _ & ->). apply Ho.
Qed.

Lemma take_take_app {A} (n : nat) (l k : list A) :
  take n (take n l ++ k) = take n (l ++ k).
Proof.
  destruct (decide (n <= length l)%nat) as [Hle|Hgt].
  - rewrite (take_app_le l k n) by exact Hle.
    rewrite take_app_le by (rewrite length_take; lia). apply take_idemp.
  - rewrite (take_ge l n) by lia. reflexivity.
Qed.

Lemma publish_each_slow (vs : list (iface V)) s ch (q : Chan V) :
  wf s -> ch ∈ listeners s -> chans s !! ch = Some q ->
  recvq q = O -> (length (buf q) <= cap q)%nat ->
  exists s',
    publish_each vs s = Done () s' /\
    wf s' /\ listeners s' = listeners s /\
    chans s' !! ch =
      Some (mkChan (cap q) (take (cap q) (buf q ++ vs)) (closed q) O (taken q)).
Proof.
  revert s q. induction vs as [|v vs IH]; intros s q Hwf Hin Hq Hr Hlen.
  - exists s. split; [reflexivity|]. split; [exact Hwf|]. split; [reflexivity|].
    rewrite Hq, app_nil_r, take_ge by exact Hlen. destruct q; cbn in *. by subst.
  - pose proof (preserves_callListeners v s Hwf) as [Hwf1 _].
    destruct (callListeners_spec v s Hwf) as (cs1 & Hcall & Hlook).
    rewrite Hcall in Hwf1. cbn [final] in Hwf1.
    set (s1 := set_trace _ _) in *.
    assert (Hq1 : chans s1 !! ch = Some (offer v q)).
    { cbn. rewrite Hlook. destruct (decide (ch ∈ listeners s)); [|contradiction].
      rewrite Hq. reflexivity. }
    assert (Hoff : offer v q =
              mkChan (cap q) (take (cap q) (buf q ++ [v])) (closed q) O (taken q)).
    { unfold offer, ready, deliver. rewrite Hr.
      change (0 <? 0)%nat with false. cbn [orb].
      destruct (Nat.ltb_spec (length (buf q)) (cap q)) as [Hlt|Hge].
      - rewrite take_ge by (rewrite length_app; cbn; lia). reflexivity.
      - rewrite take_app_le by lia. rewrite take_ge by lia. destruct q; cbn in *. by subst. }
    rewrite Hoff in Hq1.
    destruct (IH s1 _ Hwf1 Hin Hq1 eq_refl) as (s' & Hrun & Hwf' & Hls & Hch).
    { cbn. rewrite length_take. lia. }
    exists s'. split; [|split; [exact Hwf'|split; [exact Hls|]]].
    + cbn [publish_each]. unfold bind. rewrite Hcall. exact Hrun.
    + rewrite Hch. cbn. rewrite take_take_app, <- app_assoc. reflexivity.
Qed.

(** X18: a registered channel that nobody receives from keeps the oldest
    values: after publishing the values [vs] one after the other, its buffer
    holds what it held followed by [vs], cut at its capacity; every later
    value was dropped for it, and none of the publishes blocked. *)
Theorem slow_listener_keeps_oldest (vs : list (iface V)) s ch (q : Chan V) :
  wf s -> ch ∈ listeners s -> chans s !! ch = Some q ->
  recvq q = O -> (length (buf q) <= cap q)%nat ->
  exists s' q',
    publish_each vs s = Done () s' /\
    chans s' !! ch = Some q' /\
    buf q' = take (cap q) (buf q ++ vs) /\
    taken q' = taken q /\ cap q' = cap q /\ closed q' = closed q /\
    listeners s' = listeners s.
Proof.
  intros Hwf Hin Hq Hr Hlen.
  destruct (publish_each_slow vs s ch q Hwf Hin Hq Hr Hlen) as (s' & Hrun & _ & Hls & Hch).
  eexists s', _. split; [exact Hrun|]. split; [exact Hch|]. repeat split. exact Hls.
Qed.

End OrderProofs.

(** ** pkg/querier: when [At] may be called *)

Section SeriesSetMore.

Import Querier.
Context {Series Labels AggrChunk : Type}.
Variable PromLabels : Series -> Labels.
Variable Chunks : Series -> list AggrChunk.

(** X19: after any number of calls of [Next] on a fresh set, [At] returns
    exactly when the set is positioned on a non-nil pointer, that is when
    at least one call of [Next] was made and the element at the index
    [min n (length s) - 1] is a non-nil pointer.  With no call or on an
    empty set it panics on the index; on an empty set it never returns; and
    after the set is exhausted it keeps returning the last series when that
    pointer is non-nil. *)
Theorem At_returns_iff_positioned (s : list (option Series)) (n : nat) :
  let after := snd (run_next n (newStoreSeriesSet s)) in
  ((exists r, At PromLabels Chunks after = Ret r) <->
   (0 < n)%nat /\ exists x, s !! (n `min` length s - 1)%nat = Some (Some x)) /\
  (n = O \/ s = [] -> At PromLabels Chunks after = Panic "index out of range") /\
  ((0 < n)%nat -> s !! (n `min` length s - 1)%nat = Some None ->
   At PromLabels Chunks after =
     Panic "invalid memory address or nil pointer dereference") /\
  (forall x, (length s <= n)%nat -> last s = Some (Some x) ->
             At PromLabels Chunks after = Ret (PromLabels x, Chunks x)).
Proof.
  intros after. subst after. unfold newStoreSeriesSet.
  change (-1) with (Z.of_nat 0 - 1).
  rewrite (run_next_from s n 0) by lia. cbn [snd plus].
  assert (Hbad : n = O \/ s = [] ->
            At PromLabels Chunks
              (mkStoreSeriesSet Series s (Z.of_nat (n `min` length s) - 1))
            = Panic "index out of range").
  { intros H. unfold At, index, len. cbn [series i].
    assert (n `min` length s = 0)%nat as ->.
    { destruct H as [->| ->]; [reflexivity | cbn; lia]. }
    reflexivity. }
  assert (Hgood : (0 < n)%nat -> forall p, s !! (n `min` length s - 1)%nat = Some p ->
            At PromLabels Chunks
              (mkStoreSeriesSet Series s (Z.of_nat (n `min` length s) - 1))
            = match p with
              | Some x => Ret (PromLabels x, Chunks x)
              | None => Panic "invalid memory address or nil pointer dereference"
              end).
  { intros Hn p Hp. pose proof (lookup_lt_Some _ _ _ Hp) as Hlt.
    replace (Z.of_nat (n `min` length s) - 1)
      with (Z.of_nat (S (n `min` length s - 1)) - 1) by lia.
    apply (At_positioned PromLabels Chunks s _ p Hp). }
  split; [|split; [|split]].
  - split.
    + intros [r Hr]. destruct n as [|n]; [rewrite Hbad in Hr by (left; reflexivity); discriminate|].
      destruct s as [|y s]; [rewrite Hbad in Hr by (right; reflexivity); discriminate|].
      split; [lia|].
      destruct ((y :: s) !! (S n `min` length (y :: s) - 1)%nat) as [p|] eqn:Hp.
      * rewrite (Hgood ltac:(lia) p eq_refl) in Hr. destruct p as [x|]; [|discriminate].
        exists x. reflexivity.
      * apply lookup_ge_None in Hp. cbn in Hp. lia.
    + intros [Hn [x Hx]]. eexists. apply (Hgood Hn (Some x) Hx).
  - exact Hbad.
  - intros Hn Hp. apply (Hgood Hn None Hp).
  - intros x Hlen Hlast. rewrite last_lookup in Hlast.
    destruct s as [|y s]; [discriminate|].
    apply (Hgood ltac:(cbn in Hlen; lia) (Some x)).
    rewrite Nat.min_r by exact Hlen.
    replace (length (y :: s) - 1)%nat with (pred (length (y :: s))) by lia. exact Hlast.
Qed.

End SeriesSetMore.

Lemma At_returns_iff_positioned_witness :
  let s := [Some 10%nat; None; Some 20%nat] in
  let after := snd (Querier.run_next 5 (Querier.newStoreSeriesSet s)) in
  let second := snd (Querier.run_next 2 (Querier.newStoreSeriesSet s)) in
  (length s <= 5)%nat /\ last s = Some (Some 20%nat) /\
  (0 < 2)%nat /\ s !! (2 `min` length s - 1)%nat = Some None /\
  Querier.At (fun x => x) (fun x => [x]) after = Ret (20%nat, [20%nat]) /\
  Querier.At (fun x => x) (fun x => [x]) second =
    Panic "invalid memory address or nil pointer dereference".
Proof.
  intros s after second. split; [cbn; lia|]. split; [reflexivity|].
  split; [lia|]. split; [reflexivity|]. split.
  - apply (At_returns_iff_positioned (fun x => x) (fun x => [x]) s 5);
      [cbn; lia | reflexivity].
  - apply (At_returns_iff_positioned (fun x => x) (fun x => [x]) s 2);
      [lia | reflexivity].
Defined.

(** ** The further properties on the small deployment *)

Lemma loop_keeps_last_good_config_witness :
  let ios := [Scenario.not_found; Scenario.serves Scenario.B2; Scenario.close_fails] in
  RuntimeConfig.wf Scenario.serving /\
  RuntimeConfig.bucketClient Scenario.serving = Some "fs-bucket" /\
  exists s',
    RuntimeConfig.loop_from (RuntimeConfig.Tick <$> ios) Scenario.serving
      = RuntimeConfig.Done RuntimeConfig.Blocked s' /\
    RuntimeConfig.GetConfig s' = RuntimeConfig.Done (Some 4%nat) s' /\
    RuntimeConfig.configLoadSuccess s' = 0.
Proof.
  intros ios.
  assert (Hb : RuntimeConfig.bucketClient Scenario.serving = Some "fs-bucket")
    by (vm_compute; reflexivity).
  split; [exact wf_serving|]. split; [exact Hb|].
  destruct (loop_keeps_last_good_config ios Scenario.serving "fs-bucket" wf_serving Hb)
    as (s' & Hrun & Hget & Hg & _).
  exists s'. split; [exact Hrun|]. split.
  - rewrite Hget. f_equal.
  - rewrite Hg. vm_compute. reflexivity.
Defined.

Lemma loop_stops_at_cancellation_witness :
  let evs := [RuntimeConfig.Tick (Scenario.serves Scenario.B1); RuntimeConfig.CtxDone] in
  exists r s',
    RuntimeConfig.loop evs Scenario.disabled = RuntimeConfig.Done r s' /\
    r = RuntimeConfig.Returned None.
Proof.
  intros evs.
  assert (Hrun : RuntimeConfig.loop evs Scenario.disabled =
                 RuntimeConfig.Done (RuntimeConfig.Returned None)
                   (RuntimeConfig.final (RuntimeConfig.loop evs Scenario.disabled)))
    by reflexivity.
  destruct (proj2 (loop_stops_at_cancellation [] [] Scenario.disabled) evs _ _ Hrun)
    as [[Hr _]|[Hr _]]; [|discriminate Hr].
  eexists _, _. split; [exact Hrun | exact Hr].
Defined.

Lemma starting_outcomes_witness :
  RuntimeConfig.LoadPath (RuntimeConfig.cfg Scenario.fresh) <> "" /\
  RuntimeConfig.wf Scenario.fresh /\
  RuntimeConfig.bucketClientFactory Scenario.fresh () = (Some "fs-bucket", None) /\
  exists s',
    RuntimeConfig.starting (Scenario.serves Scenario.B1) Scenario.fresh
      = RuntimeConfig.Done None s' /\
    RuntimeConfig.bucketClient s' = Some "fs-bucket".
Proof.
  assert (Hp : RuntimeConfig.LoadPath (RuntimeConfig.cfg Scenario.fresh) <> "")
    by discriminate.
  assert (Hwf : RuntimeConfig.wf Scenario.fresh)
    by exact (wf_New "filesystem" Scenario.cfg_yaml Scenario.factory _ New_fresh).
  split; [exact Hp|]. split; [exact Hwf|]. split; [reflexivity|].
  destruct (proj2 (proj2 (starting_outcomes Scenario.fresh (Scenario.serves Scenario.B1) Hp))
              "fs-bucket" Hwf eq_refl) as (err & s' & Hrun & Hb & Herr & _).
  assert (E : err = None) by (apply Herr; vm_compute; reflexivity).
  subst err. exists s'. split; [exact Hrun | exact Hb].
Defined.

Lemma loadConfig_error_texts_witness :
  RuntimeConfig.bucketClient Scenario.serving = Some "fs-bucket" /\
  RuntimeConfig.get_err Scenario.not_found = Some "object not found" /\
  exists s',
    RuntimeConfig.loadConfig Scenario.not_found Scenario.serving
      = RuntimeConfig.Done (Some "read file: open file: object not found") s'.
Proof.
  assert (Hb : RuntimeConfig.bucketClient Scenario.serving = Some "fs-bucket")
    by (vm_compute; reflexivity).
  split; [exact Hb|]. split; [reflexivity|].
  eexists.
  exact (proj1 (loadConfig_error_texts Scenario.serving Scenario.not_found "fs-bucket" Hb)
           "object not found" eq_refl).
Defined.

Lemma New_then_starting_witness :
  let r : RuntimeConfig.Registerer (list string) := Some ["cortex_build_info"] in
  let r' : RuntimeConfig.Registerer (list string) :=
    Some ["runtime_config_hash"; "runtime_config_last_reload_successful";
          "cortex_build_info"] in
  RuntimeConfig.LoadPath Scenario.cfg_yaml <> "" /\
  Scenario.factory () = (Some "fs-bucket", None) /\
  RuntimeConfig.accepts Scenario.held_Register r r' /\
  snd (Scenario.held_Register RuntimeConfig.configLoadSuccess_gauge
         ["runtime_config_hash"; "runtime_config_last_reload_successful";
          "cortex_build_info"])
    = Some "duplicate metrics collector registration attempted" /\
  (exists s0,
    RuntimeConfig.New_with "filesystem" Scenario.held_Register r
        Scenario.cfg_yaml Scenario.factory
      = Ret (Some s0, None, r') /\
    RuntimeConfig.Backend (RuntimeConfig.StorageConfig (RuntimeConfig.cfg s0)) = "filesystem" /\
    exists err s', RuntimeConfig.starting (Scenario.serves Scenario.B1) s0
                   = RuntimeConfig.Done err s') /\
  RuntimeConfig.New_with "filesystem" Scenario.held_Register r'
      Scenario.cfg_yaml Scenario.factory
    = Panic "duplicate metrics collector registration attempted".
Proof.
  intros r r'.
  assert (Hp : RuntimeConfig.LoadPath Scenario.cfg_yaml <> "") by discriminate.
  assert (Hacc : RuntimeConfig.accepts Scenario.held_Register r r')
    by (vm_compute; repeat split).
  assert (Hdup : snd (Scenario.held_Register RuntimeConfig.configLoadSuccess_gauge
                        ["runtime_config_hash"; "runtime_config_last_reload_successful";
                         "cortex_build_info"])
                 = Some "duplicate metrics collector registration attempted")
    by (vm_compute; reflexivity).
  split; [exact Hp|]. split; [reflexivity|]. split; [exact Hacc|]. split; [exact Hdup|].
  split.
  - destruct (proj2 (proj2 (New_then_starting "filesystem" (list string)
                       Scenario.held_Register r Scenario.cfg_yaml Scenario.factory
                       (Scenario.serves Scenario.B1) "fs-bucket" Hp eq_refl)) r' Hacc)
      as (s0 & HNew & _ & _ & _ & _ & _ & Hback & err & s' & Hrun & _).
    exists s0. split; [exact HNew|]. split; [exact Hback|]. exists err, s'. exact Hrun.
  - exact (proj1 (New_then_starting "filesystem" (list string)
                    Scenario.held_Register r' Scenario.cfg_yaml Scenario.factory
                    (Scenario.serves Scenario.B1) "fs-bucket" Hp eq_refl)
             _ _ eq_refl Hdup).
Defined.

Lemma CreateListenerChannel_fresh_witness :
  RuntimeConfig.wf Scenario.serving /\ 0 <= 2 <= RuntimeConfig.max_buffer /\
  RuntimeConfig.max_buffer < Z.shiftl 1 60 /\
  RuntimeConfig.CreateListenerChannel (Z.shiftl 1 60) Scenario.serving
    = RuntimeConfig.Crashed "makechan: size out of range" Scenario.serving /\
  RuntimeConfig.CreateListenerChannel (-1) Scenario.serving
    = RuntimeConfig.Crashed "makechan: size out of range" Scenario.serving /\
  exists ch s',
    RuntimeConfig.CreateListenerChannel 2 Scenario.serving = RuntimeConfig.Done ch s' /\
    RuntimeConfig.listeners s' = RuntimeConfig.listeners Scenario.serving ++ [ch].
Proof.
  assert (Hb : 0 <= 2 <= RuntimeConfig.max_buffer)
    by (unfold RuntimeConfig.max_buffer; lia).
  assert (Hbig : RuntimeConfig.max_buffer < Z.shiftl 1 60)
    by (vm_compute; reflexivity).
  assert (Hneg : -1 < 0) by lia.
  split; [exact wf_serving|]. split; [exact Hb|]. split; [exact Hbig|].
  split; [|split].
  - exact (proj1 (CreateListenerChannel_fresh Scenario.serving (Z.shiftl 1 60) wf_serving)
             (or_intror Hbig)).
  - exact (proj1 (CreateListenerChannel_fresh Scenario.serving (-1) wf_serving)
             (or_introl Hneg)).
  - destruct (proj2 (CreateListenerChannel_fresh Scenario.serving 2 wf_serving) Hb)
      as (ch & s' & Hrun & _ & _ & Hl & _).
    exists ch, s'. split; [exact Hrun | exact Hl].
Defined.

Lemma subscribe_unsubscribe_roundtrip_witness :
  RuntimeConfig.wf Scenario.serving /\ 0 <= 1 <= RuntimeConfig.max_buffer /\
  exists ch s1 s2,
    RuntimeConfig.CreateListenerChannel 1 Scenario.serving = RuntimeConfig.Done ch s1 /\
    RuntimeConfig.CloseListenerChannel ch s1 = RuntimeConfig.Done () s2 /\
    RuntimeConfig.listeners s2 = RuntimeConfig.listeners Scenario.serving.
Proof.
  assert (Hb : 0 <= 1 <= RuntimeConfig.max_buffer)
    by (unfold RuntimeConfig.max_buffer; lia).
  split; [exact wf_serving|]. split; [exact Hb|].
  destruct (subscribe_unsubscribe_roundtrip Scenario.serving 1 wf_serving Hb)
    as (ch & s1 & s2 & H1 & H2 & Hl & _).
  exists ch, s1, s2. split; [exact H1|]. split; [exact H2 | exact Hl].
Defined.

Lemma unsubscribed_listener_stays_quiet_witness :
  let ops := [RuntimeConfig.OpLoadConfig (Scenario.serves Scenario.B2)] in
  RuntimeConfig.wf Scenario.serving /\
  (1%nat ∈ RuntimeConfig.listeners Scenario.serving) /\
  exists s1,
    RuntimeConfig.CloseListenerChannel 1 Scenario.serving = RuntimeConfig.Done () s1 /\
    RuntimeConfig.sends 1 (RuntimeConfig.trace (RuntimeConfig.final (RuntimeConfig.run ops s1)))
      = RuntimeConfig.sends 1 (RuntimeConfig.trace Scenario.serving).
Proof.
  intros ops.
  assert (Hin : 1%nat ∈ RuntimeConfig.listeners Scenario.serving).
  { rewrite serving_registry. right. left. }
  split; [exact wf_serving|]. split; [exact Hin|].
  destruct (unsubscribed_listener_stays_quiet Scenario.serving 1 ops wf_serving Hin)
    as (s1 & Hrun & Hs & _).
  exists s1. split; [exact Hrun | exact Hs].
Defined.

Lemma stopping_twice_witness :
  RuntimeConfig.wf Scenario.serving /\
  exists s',
    RuntimeConfig.stopping None Scenario.serving = RuntimeConfig.Done None s' /\
    RuntimeConfig.stopping None s' = RuntimeConfig.Done None s' /\
    RuntimeConfig.GetConfig s' = RuntimeConfig.Done (Some 3%nat) s'.
Proof.
  split; [exact wf_serving|].
  destruct (stopping_twice Scenario.serving None None wf_serving)
    as (s' & H1 & H2 & Hget & _).
  exists s'. split; [exact H1|]. split; [exact H2|].
  rewrite Hget. f_equal.
Defined.

Lemma channels_are_bounded_queues_witness :
  let ops := [RuntimeConfig.OpStarting (Scenario.serves Scenario.B1);
              RuntimeConfig.OpCreateListenerChannel 1;
              RuntimeConfig.OpLoadConfig (Scenario.serves Scenario.B2);
              RuntimeConfig.OpLoadConfig (Scenario.serves Scenario.B1)] in
  let s := RuntimeConfig.final (RuntimeConfig.run ops Scenario.fresh) in
  let q := RuntimeConfig.mkChan 1 [Some 4%nat] false 0 [] in
  RuntimeConfig.New "filesystem" Scenario.cfg_yaml Scenario.factory
    = (Some Scenario.fresh, None) /\
  RuntimeConfig.chans s !! 0%nat = Some q /\
  RuntimeConfig.taken q ++ RuntimeConfig.buf q
    = RuntimeConfig.sends 0 (RuntimeConfig.trace s).
Proof.
  intros ops s q.
  assert (Hq : RuntimeConfig.chans s !! 0%nat = Some q) by (vm_compute; reflexivity).
  split; [exact New_fresh|]. split; [exact Hq|].
  exact (proj2 (proj2 (channels_are_bounded_queues "filesystem" Scenario.cfg_yaml
                         Scenario.factory Scenario.fresh ops New_fresh 0%nat q Hq))).
Defined.

Lemma listeners_see_a_subsequence_of_configs_witness :
  let ops := [RuntimeConfig.OpStarting (Scenario.serves Scenario.B1);
              RuntimeConfig.OpCreateListenerChannel 1;
              RuntimeConfig.OpLoadConfig (Scenario.serves Scenario.B2);
              RuntimeConfig.OpLoadConfig (Scenario.serves Scenario.B1)] in
  let s := RuntimeConfig.final (RuntimeConfig.run ops Scenario.fresh) in
  let q := RuntimeConfig.mkChan 1 [Some 4%nat] false 0 [] in
  RuntimeConfig.New "filesystem" Scenario.cfg_yaml Scenario.factory
    = (Some Scenario.fresh, None) /\
  RuntimeConfig.chans s !! 0%nat = Some q /\
  (RuntimeConfig.taken q ++ RuntimeConfig.buf q)
    `sublist_of` Reloads.configs (RuntimeConfig.trace s).
Proof.
  intros ops s q.
  assert (Hq : RuntimeConfig.chans s !! 0%nat = Some q) by (vm_compute; reflexivity).
  split; [exact New_fresh|]. split; [exact Hq|].
  exact (listeners_see_a_subsequence_of_configs "filesystem" Scenario.cfg_yaml
           Scenario.factory Scenario.fresh ops New_fresh 0%nat q Hq).
Defined.

Lemma slow_listener_keeps_oldest_witness :
  let q := RuntimeConfig.mkChan 1 ([] : list (RuntimeConfig.iface nat)) false 0 [] in
  let vs := [Some 1%nat; Some 2%nat; Some 3%nat] in
  RuntimeConfig.wf Scenario.serving /\
  (0%nat ∈ RuntimeConfig.listeners Scenario.serving) /\
  RuntimeConfig.chans Scenario.serving !! 0%nat = Some q /\
  RuntimeConfig.recvq q = O /\
  (length (RuntimeConfig.buf q) <= RuntimeConfig.cap q)%nat /\
  exists s' q',
    Reloads.publish_each vs Scenario.serving = RuntimeConfig.Done () s' /\
    RuntimeConfig.chans s' !! 0%nat = Some q' /\
    RuntimeConfig.buf q' = [Some 1%nat].
Proof.
  intros q vs.
  assert (Hin : 0%nat ∈ RuntimeConfig.listeners Scenario.serving).
  { rewrite serving_registry. left. }
  assert (Hq : RuntimeConfig.chans Scenario.serving !! 0%nat = Some q)
    by (vm_compute; reflexivity).
  assert (Hlen : (length (RuntimeConfig.buf q) <= RuntimeConfig.cap q)%nat) by (cbn; lia).
  split; [exact wf_serving|]. split; [exact Hin|]. split; [exact Hq|].
  split; [reflexivity|]. split; [exact Hlen|].
  destruct (slow_listener_keeps_oldest vs Scenario.serving 0%nat q wf_serving Hin Hq
              eq_refl Hlen) as (s' & q' & Hrun & Hq' & Hbuf & _).
  exists s', q'. split; [exact Hrun|]. split; [exact Hq' | exact Hbuf].
Defined.
